(** * Conversation streaming and upload coordination core

    A shallow embedding of the client-side stores and chat components
    (the conversations store, the files store, [ChatWindow.vue] and
    [FileUploadArea.vue]) together with the properties of the
    specification that concern them.

    Conventions of the embedding:
    - a [ref] is a field of the state record; a mutation is a function from
      state to state;
    - [Map<string, V>] is a [gmap string V]; arrays are lists;
    - [Date.now()], [new Date()] and [Math.random()] are inputs of the
      operation that reads them;
    - JS numbers that the code only counts, compares or prints are [Z] or
      [nat];
    - objects that are mutated through several references (the upload
      entries of [ChatWindow.vue]) live in an explicit heap. *)

From Stdlib Require Import ZArith Lia Ascii String.
From stdpp Require Import base option list strings pretty gmap.

Local Open Scope string_scope.
Local Open Scope list_scope.
Local Open Scope Z_scope.

(** ** String primitives of the host language *)

Module JS.

(** [s.startsWith(p)] *)
Fixpoint startsWith (s p : string) {struct p} : bool :=
  match p, s with
  | EmptyString, _ => true
  | String a p', String b s' => if decide (a = b) then startsWith s' p' else false
  | String _ _, EmptyString => false
  end.

(** [s.includes(sub)] *)
Fixpoint includes (s sub : string) : bool :=
  startsWith s sub ||
  match s with
  | EmptyString => false
  | String _ s' => includes s' sub
  end.

(** [s.endsWith(suf)] *)
Fixpoint endsWith (s suf : string) : bool :=
  if decide (s = suf) then true
  else match s with
       | EmptyString => false
       | String _ s' => endsWith s' suf
       end.

(** [s.toLowerCase()], on the ASCII letters. *)
Definition lower_ascii (a : ascii) : ascii :=
  let n := nat_of_ascii a in
  if (Nat.leb 65 n && Nat.leb n 90)%bool then ascii_of_nat (n + 32) else a.

Fixpoint toLowerCase (s : string) : string :=
  match s with
  | EmptyString => EmptyString
  | String a s' => String (lower_ascii a) (toLowerCase s')
  end.

(** [xs.join(sep)] *)
Fixpoint join (sep : string) (xs : list string) : string :=
  match xs with
  | [] => ""
  | [x] => x
  | x :: rest => x +:+ sep +:+ join sep rest
  end.

(** [a || b] on an optional string: the empty string is falsy. *)
Definition or_else (a : option string) (b : string) : string :=
  match a with
  | Some s => if decide (s = "") then b else s
  | None => b
  end.

(** A template literal prints an integer in decimal. *)
Definition show_nat (n : nat) : string := pretty n.
Definition show_Z (z : Z) : string := pretty z.

End JS.

(** ** types/index.ts *)

Inductive Role := user | assistant | system.

Record Citation := {
  cit_id : string;
  cit_title : string;
  cit_source : string;
}.

Record Message := {
  msg_id : string;
  msg_role : Role;
  msg_content : string;
  msg_timestamp : Z;
  msg_citations : option (list Citation);
}.

(** [Partial<Message>]: every key may be absent. *)
Record PartialMessage := {
  p_id : option string;
  p_role : option Role;
  p_content : option string;
  p_timestamp : option Z;
  p_citations : option (list Citation);
}.

(** [{ ...m, ...u }]: the keys present in [u] win. *)
Definition spread (m : Message) (u : PartialMessage) : Message :=
  {| msg_id := default (msg_id m) (p_id u);
     msg_role := default (msg_role m) (p_role u);
     msg_content := default (msg_content m) (p_content u);
     msg_timestamp := default (msg_timestamp m) (p_timestamp u);
     msg_citations := match p_citations u with
                      | Some c => Some c
                      | None => msg_citations m
                      end |}.

(** A complete [Message] passed where a [Partial<Message>] is expected. *)
Definition as_updates (m : Message) : PartialMessage :=
  {| p_id := Some (msg_id m);
     p_role := Some (msg_role m);
     p_content := Some (msg_content m);
     p_timestamp := Some (msg_timestamp m);
     p_citations := msg_citations m |}.

Record StreamChunk := {
  chunk_id : string;
  chunk_content : string;
  chunk_isComplete : bool;
  chunk_messageId : option string;
}.

Inductive FileStatus := pending | uploading | completed | error.

Global Instance Role_eq_dec : EqDecision Role.
Proof. solve_decision. Defined.
Global Instance FileStatus_eq_dec : EqDecision FileStatus.
Proof. solve_decision. Defined.

(** ** The conversations store (stores/conversations.ts) *)

Module Conversations.

Record Conversation := {
  conv_id : string;
  conv_title : string;
  conv_createdAt : Z;
  conv_updatedAt : Z;
}.

(** The browser's [EventSource] object, as far as the store uses it: its
    url, whether [close()] has been called on it, and the [conversationId]
    that the [onmessage] closure installed on it has captured. *)
Record EventSource := {
  es_url : string;
  es_closed : bool;
  es_conversationId : string;
}.

Definition es_close (e : EventSource) : EventSource :=
  {| es_url := es_url e; es_closed := true;
     es_conversationId := es_conversationId e |}.

(** The refs of the store, followed by what the store reaches outside
    itself: the [EventSource] objects it has created (the ref
    [eventSource] holds the index of one of them, or [null]), the
    [console.error] log, and the token of the auth store. *)
Record Store := {
  activeConversationId : option string;
  streamingMessageId : option string;
  streamingContent : string;
  isStreaming : bool;
  eventSource : option nat;
  conversations : list Conversation;
  messages : gmap string (list Message);
  sources : list EventSource;
  console : list string;
  token : string;
}.

Definition init (tok : string) : Store :=
  {| activeConversationId := None; streamingMessageId := None;
     streamingContent := ""; isStreaming := false; eventSource := None;
     conversations := []; messages := ∅; sources := []; console := [];
     token := tok |}.

Definition set_activeConversationId (v : option string) (st : Store) : Store :=
  {| activeConversationId := v; streamingMessageId := streamingMessageId st;
     streamingContent := streamingContent st; isStreaming := isStreaming st;
     eventSource := eventSource st; conversations := conversations st;
     messages := messages st; sources := sources st; console := console st;
     token := token st |}.

Definition set_conversations (v : list Conversation) (st : Store) : Store :=
  {| activeConversationId := activeConversationId st;
     streamingMessageId := streamingMessageId st;
     streamingContent := streamingContent st; isStreaming := isStreaming st;
     eventSource := eventSource st; conversations := v;
     messages := messages st; sources := sources st; console := console st;
     token := token st |}.

Definition set_messages (v : gmap string (list Message)) (st : Store) : Store :=
  {| activeConversationId := activeConversationId st;
     streamingMessageId := streamingMessageId st;
     streamingContent := streamingContent st; isStreaming := isStreaming st;
     eventSource := eventSource st; conversations := conversations st;
     messages := v; sources := sources st; console := console st;
     token := token st |}.

Definition set_streamingContent (v : string) (st : Store) : Store :=
  {| activeConversationId := activeConversationId st;
     streamingMessageId := streamingMessageId st;
     streamingContent := v; isStreaming := isStreaming st;
     eventSource := eventSource st; conversations := conversations st;
     messages := messages st; sources := sources st; console := console st;
     token := token st |}.

Definition console_error (line : string) (st : Store) : Store :=
  {| activeConversationId := activeConversationId st;
     streamingMessageId := streamingMessageId st;
     streamingContent := streamingContent st; isStreaming := isStreaming st;
     eventSource := eventSource st; conversations := conversations st;
     messages := messages st; sources := sources st;
     console := console st ++ [line]; token := token st |}.

(** [messages.value.get(conversationId) || []] *)
Definition currentMessages (conversationId : string) (st : Store) : list Message :=
  default [] (messages st !! conversationId).

(** *** State management functions *)

Definition setConversations (newConversations : list Conversation) (st : Store) : Store :=
  set_conversations newConversations st.

Definition setActiveConversation (id : option string) (st : Store) : Store :=
  set_activeConversationId id st.

Definition addConversation (conversation : Conversation) (st : Store) : Store :=
  setActiveConversation (Some (conv_id conversation))
    (set_conversations (conversation :: conversations st) st).

Definition removeConversation (id : string) (st : Store) : Store :=
  let st1 := set_conversations
               (filter (λ conv, conv_id conv ≠ id) (conversations st)) st in
  let st2 := set_messages (delete id (messages st1)) st1 in
  if decide (activeConversationId st2 = Some id)
  then set_activeConversationId None st2
  else st2.

Definition setMessages (conversationId : string) (newMessages : list Message)
    (st : Store) : Store :=
  set_messages (<[conversationId := newMessages]> (messages st)) st.

Definition addMessage (conversationId : string) (message : Message)
    (st : Store) : Store :=
  set_messages
    (<[conversationId := currentMessages conversationId st ++ [message]]>
       (messages st)) st.

(** [findIndex] returns the first index whose message carries the id; the
    entry at that index is overwritten by the spread of the old entry and
    the updates. *)
Definition updateMessage (conversationId messageId : string)
    (updates : PartialMessage) (st : Store) : Store :=
  let cur := currentMessages conversationId st in
  match list_find (λ msg, msg_id msg = messageId) cur with
  | Some (index, old) =>
      set_messages
        (<[conversationId := <[index := spread old updates]> cur]> (messages st)) st
  | None => st
  end.

Definition removeMessage (conversationId messageId : string) (st : Store) : Store :=
  set_messages
    (<[conversationId :=
         filter (λ msg, msg_id msg ≠ messageId) (currentMessages conversationId st)]>
       (messages st)) st.

(** *** Streaming functions *)

Definition close_source (h : nat) (srcs : list EventSource) : list EventSource :=
  alter es_close h srcs.

Definition stream_url (conversationId streamId tok : string) : string :=
  "/api/conversations/" +:+ conversationId +:+ "/stream/" +:+ streamId
    +:+ "?token=" +:+ tok.

Definition stopStreaming (st : Store) : Store :=
  {| activeConversationId := activeConversationId st;
     streamingMessageId := None;
     streamingContent := "";
     isStreaming := false;
     eventSource := None;
     conversations := conversations st;
     messages := messages st;
     sources := match eventSource st with
                | Some h => close_source h (sources st)
                | None => sources st
                end;
     console := console st;
     token := token st |}.

Definition startStreaming (streamId conversationId : string) (st : Store) : Store :=
  let srcs := match eventSource st with
              | Some h => close_source h (sources st)
              | None => sources st
              end in
  {| activeConversationId := activeConversationId st;
     streamingMessageId := Some ("stream-" +:+ streamId);
     streamingContent := "";
     isStreaming := true;
     eventSource := Some (length srcs);
     conversations := conversations st;
     messages := messages st;
     sources := srcs ++ [ {| es_url := stream_url conversationId streamId (token st);
                             es_closed := false;
                             es_conversationId := conversationId |} ];
     console := console st;
     token := token st |}.

(** The [onmessage] closure of [startStreaming]. [data] is the outcome of
    [JSON.parse(event.data)]: [None] when it throws, [Some chunk] when the
    payload is a [StreamChunk]. [now] is the value of [new Date()].  The
    non-null assertion [streamingMessageId.value!] is read with a default:
    the ref is set whenever the source that delivers the event is open
    (see [coherent] and [connected] below). *)
Definition onmessage (conversationId : string) (data : option StreamChunk)
    (now : Z) (st : Store) : Store :=
  match data with
  | Some chunk =>
      if chunk_isComplete chunk then
        let assistantMessage :=
          {| msg_id := JS.or_else (chunk_messageId chunk)
                         (default "" (streamingMessageId st));
             msg_role := assistant;
             msg_content := streamingContent st;
             msg_timestamp := now;
             msg_citations := Some [] |} in
        stopStreaming (addMessage conversationId assistantMessage st)
      else
        set_streamingContent (streamingContent st +:+ chunk_content chunk) st
  | None =>
      stopStreaming (console_error "Error parsing stream chunk:" st)
  end.

(** The [onerror] closure of [startStreaming]. *)
Definition onerror (st : Store) : Store :=
  stopStreaming (console_error "Streaming error:" st).

Inductive SourceEvent :=
| MessageEvent (data : option StreamChunk) (now : Z)
| ErrorEvent.

(** The transport: the browser fires a [message] or [error] event at an
    [EventSource] only while that object has not been closed; the event
    runs the closure installed on the object. *)
Definition dispatch (h : nat) (ev : SourceEvent) (st : Store) : Store :=
  match sources st !! h with
  | Some src =>
      if es_closed src then st
      else match ev with
           | MessageEvent data now => onmessage (es_conversationId src) data now st
           | ErrorEvent => onerror st
           end
  | None => st
  end.

(** *** Actions *)

(** The literal of [addOptimisticMessage]: defaults first, then the keys
    of the partial message. [now] is [Date.now()]. *)
Definition optimisticMessage (message : PartialMessage) (now : Z) : Message :=
  spread {| msg_id := "optimistic-" +:+ JS.show_Z now;
            msg_role := user;
            msg_content := "";
            msg_timestamp := now;
            msg_citations := None |} message.

Definition addOptimisticMessage (conversationId : string)
    (message : PartialMessage) (now : Z) (st : Store) : string * Store :=
  let m := optimisticMessage message now in
  (msg_id m, addMessage conversationId m st).

Definition removeOptimisticMessage (conversationId messageId : string)
    (st : Store) : Store :=
  removeMessage conversationId messageId st.

Definition cleanup (st : Store) : Store := stopStreaming st.

(** What can happen to a store: a call of one of its synchronous functions
    or an event of the transport. *)
Inductive action :=
| SetConversations (cs : list Conversation)
| AddConversation (c : Conversation)
| RemoveConversation (id : string)
| SetActiveConversation (id : option string)
| SetMessages (conversationId : string) (ms : list Message)
| AddMessage (conversationId : string) (m : Message)
| UpdateMessage (conversationId messageId : string) (u : PartialMessage)
| RemoveMessage (conversationId messageId : string)
| AddOptimisticMessage (conversationId : string) (m : PartialMessage) (now : Z)
| RemoveOptimisticMessage (conversationId messageId : string)
| StartStreaming (streamId conversationId : string)
| StopStreaming
| Cleanup
| Dispatch (h : nat) (ev : SourceEvent).

Definition step (st : Store) (a : action) : Store :=
  match a with
  | SetConversations cs => setConversations cs st
  | AddConversation c => addConversation c st
  | RemoveConversation id => removeConversation id st
  | SetActiveConversation id => setActiveConversation id st
  | SetMessages c ms => setMessages c ms st
  | AddMessage c m => addMessage c m st
  | UpdateMessage c i u => updateMessage c i u st
  | RemoveMessage c i => removeMessage c i st
  | AddOptimisticMessage c m now => (addOptimisticMessage c m now st).2
  | RemoveOptimisticMessage c i => removeOptimisticMessage c i st
  | StartStreaming s c => startStreaming s c st
  | StopStreaming => stopStreaming st
  | Cleanup => cleanup st
  | Dispatch h ev => dispatch h ev st
  end.

Definition run (st : Store) (tr : list action) : Store := foldl step st tr.

(** The fragments of a session, each with its time of arrival, delivered
    in order on source [h]. *)
Definition deliver (h : nat) (chunks : list (StreamChunk * Z)) : list action :=
  map (λ c, Dispatch h (MessageEvent (Some c.1) c.2)) chunks.

(** The contents of a list of fragments, concatenated in order. *)
Definition contents (chunks : list (StreamChunk * Z)) : string :=
  foldr (λ c acc, chunk_content c.1 +:+ acc) "" chunks.

Definition source_closed (h : nat) (st : Store) : Prop :=
  ∃ src, sources st !! h = Some src ∧ es_closed src = true.

Definition source_open (h : nat) (st : Store) : Prop :=
  ∃ src, sources st !! h = Some src ∧ es_closed src = false.

(** The message that the terminal fragment [last] of the session
    [streamId] commits when the buffer holds [buffer]. *)
Definition finished (streamId : string) (last : StreamChunk) (buffer : string)
    (now : Z) : Message :=
  {| msg_id := JS.or_else (chunk_messageId last) ("stream-" +:+ streamId);
     msg_role := assistant;
     msg_content := buffer;
     msg_timestamp := now;
     msg_citations := Some [] |}.

(** Every source on which the transport can still fire is the one the
    ref [eventSource] holds. *)
Definition coherent (st : Store) : Prop :=
  ∀ h, source_open h st → eventSource st = Some h.

(** The source the ref [eventSource] holds is open, and the id of the
    streaming message is set. *)
Definition connected (st : Store) : Prop :=
  ∀ h, eventSource st = Some h →
       source_open h st ∧ is_Some (streamingMessageId st).

(** What the liveness of sessions depends on. *)
Definition view (st : Store)
    : list EventSource * option nat * option string :=
  (sources st, eventSource st, streamingMessageId st).

(** The events with which a session fails: a payload that does not parse,
    or an error event of the transport. *)
Definition failure (ev : SourceEvent) : option string :=
  match ev with
  | MessageEvent None _ => Some "Error parsing stream chunk:"
  | MessageEvent (Some _) _ => None
  | ErrorEvent => Some "Streaming error:"
  end.

(** The number of sources on which the transport can still fire. *)
Definition live_sessions (st : Store) : nat :=
  length (filter (λ e, es_closed e = false) (sources st)).

(** *** Getters *)

(** [activeConversation]: an empty id is falsy, like [null]; [find] returns
    the first conversation that carries the id. *)
Definition activeConversation (st : Store) : option Conversation :=
  match activeConversationId st with
  | Some id =>
      if decide (id = "") then None
      else snd <$> list_find (λ conv, conv_id conv = id) (conversations st)
  | None => None
  end.

Definition activeMessages (st : Store) : list Message :=
  match activeConversationId st with
  | Some id => if decide (id = "") then [] else currentMessages id st
  | None => []
  end.

(** *** updateConversation *)

(** [Partial<Conversation>], on the fields of [Conversation] kept here. *)
Record PartialConversation := {
  pc_id : option string;
  pc_title : option string;
  pc_createdAt : option Z;
  pc_updatedAt : option Z;
}.

Definition spread_conversation (c : Conversation) (u : PartialConversation)
    : Conversation :=
  {| conv_id := default (conv_id c) (pc_id u);
     conv_title := default (conv_title c) (pc_title u);
     conv_createdAt := default (conv_createdAt c) (pc_createdAt u);
     conv_updatedAt := default (conv_updatedAt c) (pc_updatedAt u) |}.

Definition updateConversation (id : string) (updates : PartialConversation)
    (st : Store) : Store :=
  match list_find (λ conv, conv_id conv = id) (conversations st) with
  | Some (index, old) =>
      set_conversations
        (<[index := spread_conversation old updates]> (conversations st)) st
  | None => st
  end.

(** *** Consistency of the streaming refs *)

(** The flag [isStreaming] and the id of the streaming message are set
    exactly while the ref [eventSource] holds a source, and the buffer is
    empty while it holds none. *)
Definition settled (st : Store) : Prop :=
  (isStreaming st = true ↔ is_Some (eventSource st))
  ∧ (is_Some (streamingMessageId st) ↔ is_Some (eventSource st))
  ∧ (eventSource st = None → streamingContent st = "").

(** The actions that end the session running on source [h]: a restart, a
    stop, a terminal fragment, a payload that does not parse, an error
    event. *)
Definition ends_session (h : nat) (a : action) : Prop :=
  match a with
  | StartStreaming _ _ | StopStreaming | Cleanup => True
  | Dispatch h' (MessageEvent (Some chunk) _) =>
      h' = h ∧ chunk_isComplete chunk = true
  | Dispatch h' (MessageEvent None _) => h' = h
  | Dispatch h' ErrorEvent => h' = h
  | _ => False
  end.

(** The actions of the streaming coordinator. *)
Definition streaming_action (a : action) : Prop :=
  match a with
  | StartStreaming _ _ | StopStreaming | Cleanup | Dispatch _ _ => True
  | _ => False
  end.

End Conversations.

(** ** The notifications store *)

Module Notifications.

Inductive NotificationType := n_success | n_error | n_warning | n_info.

Record Notification := {
  n_id : string;
  n_type : NotificationType;
  n_title : string;
  n_message : option string;
  n_duration : Z;
  n_persistent : bool;
  n_createdAt : Z;
}.

Record Store := {
  notifications : list Notification;
  maxNotifications : nat;
  defaultDuration : Z;
}.

Definition init : Store :=
  {| notifications := []; maxNotifications := 5%nat; defaultDuration := 5000 |}.

(** [push] followed by [enforceMaxNotifications]: [splice(0, excess)]
    drops the oldest entries. [id] stands for [generateId()] and [now]
    for [new Date()]; the removal timer is not part of the state. *)
Definition addNotification (id : string) (now : Z) (ty : NotificationType)
    (title : string) (message : option string) (duration : option Z)
    (persistent : bool) (st : Store) : Store :=
  let n := {| n_id := id; n_type := ty; n_title := title; n_message := message;
              n_duration := default (defaultDuration st) duration;
              n_persistent := persistent; n_createdAt := now |} in
  let all := notifications st ++ [n] in
  {| notifications := drop (length all - maxNotifications st) all;
     maxNotifications := maxNotifications st;
     defaultDuration := defaultDuration st |}.

(** The convenience method [error]: errors are persistent. *)
Definition error (id : string) (now : Z) (title : string)
    (message : option string) (st : Store) : Store :=
  addNotification id now n_error title message None true st.

Global Instance NotificationType_eq_dec : EqDecision NotificationType.
Proof. solve_decision. Defined.

(** [findIndex] and [splice(index, 1)]: the first notification with the id
    is taken out. Also what the removal timer runs when it fires. *)
Definition removeNotification (id : string) (st : Store) : Store :=
  match list_find (λ n, n_id n = id) (notifications st) with
  | Some (index, _) =>
      {| notifications := delete index (notifications st);
         maxNotifications := maxNotifications st;
         defaultDuration := defaultDuration st |}
  | None => st
  end.

Definition clearAll (st : Store) : Store :=
  {| notifications := [];
     maxNotifications := maxNotifications st;
     defaultDuration := defaultDuration st |}.

Definition clearByType (ty : NotificationType) (st : Store) : Store :=
  {| notifications := filter (λ n, n_type n ≠ ty) (notifications st);
     maxNotifications := maxNotifications st;
     defaultDuration := defaultDuration st |}.

(** The convenience methods, called without [options]. *)
Definition success (id : string) (now : Z) (title : string)
    (message : option string) (st : Store) : Store :=
  addNotification id now n_success title message None false st.

Definition warning (id : string) (now : Z) (title : string)
    (message : option string) (st : Store) : Store :=
  addNotification id now n_warning title message (Some 7000) false st.

Definition info (id : string) (now : Z) (title : string)
    (message : option string) (st : Store) : Store :=
  addNotification id now n_info title message None false st.

Inductive action :=
| Add (id : string) (now : Z) (ty : NotificationType) (title : string)
    (message : option string) (duration : option Z) (persistent : bool)
| Remove (id : string)
| ClearAll
| ClearByType (ty : NotificationType).

Definition step (st : Store) (a : action) : Store :=
  match a with
  | Add id now ty title message duration persistent =>
      addNotification id now ty title message duration persistent st
  | Remove id => removeNotification id st
  | ClearAll => clearAll st
  | ClearByType ty => clearByType ty st
  end.

Definition run (st : Store) (tr : list action) : Store := foldl step st tr.

End Notifications.

(** ** The application: the stores side by side

    The conversations store imports the auth store only; none of its
    functions reads or writes the notifications store. *)

Module App.

Record State := {
  conversationsStore : Conversations.Store;
  notificationsStore : Notifications.Store;
}.

Definition init (tok : string) : State :=
  {| conversationsStore := Conversations.init tok;
     notificationsStore := Notifications.init |}.

Definition step (app : State) (a : Conversations.action) : State :=
  {| conversationsStore := Conversations.step (conversationsStore app) a;
     notificationsStore := notificationsStore app |}.

Definition run (app : State) (tr : list Conversations.action) : State :=
  foldl step app tr.

(** An error has been surfaced between [before] and [after] when the
    notification list of [after] holds an error notification that the
    list of [before] does not. *)
Definition surfaced (before after : State) : Prop :=
  ∃ n, (n ∈ Notifications.notifications (notificationsStore after))
       ∧ (n ∉ Notifications.notifications (notificationsStore before))
       ∧ (Notifications.n_type n = Notifications.n_error).

End App.

(** ** Upload entries *)

(** The browser's [File], as far as validation reads it. *)
Record File := {
  file_name : string;
  file_size : Z;
  file_type : string;
}.

Record UploadedFile := {
  uf_id : string;
  uf_name : string;
  uf_size : Z;
  uf_type : string;
  uf_status : FileStatus;
  uf_url : option string;
  uf_uploadProgress : option Z;
  uf_progress : option Z;
  uf_error : option string;
}.

Definition with_status (s : FileStatus) (f : UploadedFile) : UploadedFile :=
  {| uf_id := uf_id f; uf_name := uf_name f; uf_size := uf_size f;
     uf_type := uf_type f; uf_status := s; uf_url := uf_url f;
     uf_uploadProgress := uf_uploadProgress f; uf_progress := uf_progress f;
     uf_error := uf_error f |}.

Definition with_progress (p : Z) (f : UploadedFile) : UploadedFile :=
  {| uf_id := uf_id f; uf_name := uf_name f; uf_size := uf_size f;
     uf_type := uf_type f; uf_status := uf_status f; uf_url := uf_url f;
     uf_uploadProgress := uf_uploadProgress f; uf_progress := Some p;
     uf_error := uf_error f |}.

(** ** The files store (stores/files.ts) *)

Module FilesStore.

Record Store := {
  uploadQueue : gmap string UploadedFile;
  dragActive : bool;
  maxFileSize : Z;
  allowedTypes : list string;
}.

Definition init : Store :=
  {| uploadQueue := ∅;
     dragActive := false;
     maxFileSize := 10 * 1024 * 1024;
     allowedTypes :=
       [ "application/pdf"; "text/plain"; "application/msword";
         "application/vnd.openxmlformats-officedocument.wordprocessingml.document";
         "text/markdown" ] |}.

Definition set_uploadQueue (q : gmap string UploadedFile) (st : Store) : Store :=
  {| uploadQueue := q; dragActive := dragActive st;
     maxFileSize := maxFileSize st; allowedTypes := allowedTypes st |}.

Record Validation := { valid : bool; verror : option string }.

(** [Math.round(maxFileSize / 1024 / 1024)], rounding half up. *)
Definition round_MB (bytes : Z) : Z := (2 * bytes + 1048576) / 2097152.

Definition validateFile (st : Store) (file : File) : Validation :=
  if decide (file_size file > maxFileSize st) then
    {| valid := false;
       verror := Some ("File size exceeds " +:+ JS.show_Z (round_MB (maxFileSize st))
                         +:+ "MB limit") |}
  else if decide (file_type file ∈ allowedTypes st) then
    {| valid := true; verror := None |}
  else
    {| valid := false; verror := Some "File type not supported" |}.

(** The body of the [forEach] of [validateFiles]: [acc] is the pair of
    the arrays [valid] and [invalid]. *)
Definition validate_one (st : Store) (acc : list File * list (File * string))
    (file : File) : list File * list (File * string) :=
  let validation := validateFile st file in
  if valid validation then (acc.1 ++ [file], acc.2)
  else (acc.1, acc.2 ++ [(file, default "" (verror validation))]).

Definition validateFiles (st : Store) (files : list File)
    : list File * list (File * string) :=
  foldl (validate_one st) ([], []) files.

(** [id] stands for the [upload-<time>-<random>] identifier. *)
Definition createUploadedFile (file : File) (id : string) : UploadedFile :=
  {| uf_id := id; uf_name := file_name file; uf_size := file_size file;
     uf_type := file_type file; uf_status := pending; uf_url := None;
     uf_uploadProgress := Some 0; uf_progress := None; uf_error := None |}.

(** [ids k] is the identifier drawn for the [k]-th valid file. *)
Definition addToQueue (files : list File) (ids : nat → string) (st : Store)
    : (list File * list (File * string)) * Store :=
  let r := validateFiles st files in
  let q := foldl (λ q uploadedFile, <[uf_id uploadedFile := uploadedFile]> q)
                 (uploadQueue st)
                 (imap (λ k file, createUploadedFile file (ids k)) r.1) in
  (r, set_uploadQueue q st).

Definition removeFromQueue (fileId : string) (st : Store) : Store :=
  set_uploadQueue (delete fileId (uploadQueue st)) st.

Definition clearQueue (st : Store) : Store := set_uploadQueue ∅ st.

Definition clearCompleted (st : Store) : Store :=
  set_uploadQueue (filter (λ kv, uf_status kv.2 ≠ completed) (uploadQueue st)) st.

Definition clearFailed (st : Store) : Store :=
  set_uploadQueue (filter (λ kv, uf_status kv.2 ≠ error) (uploadQueue st)) st.

Definition updateFileProgress (fileId : string) (progress : Z) (st : Store) : Store :=
  match uploadQueue st !! fileId with
  | Some file =>
      set_uploadQueue
        (<[fileId :=
             {| uf_id := uf_id file; uf_name := uf_name file; uf_size := uf_size file;
                uf_type := uf_type file;
                uf_status := if decide (progress = 100) then completed else uploading;
                uf_url := uf_url file;
                uf_uploadProgress := Some progress;
                uf_progress := uf_progress file;
                uf_error := uf_error file |}]> (uploadQueue st)) st
  | None => st
  end.

Definition setFileStatus (fileId : string) (status : FileStatus)
    (err : option string) (st : Store) : Store :=
  match uploadQueue st !! fileId with
  | Some file =>
      set_uploadQueue
        (<[fileId :=
             {| uf_id := uf_id file; uf_name := uf_name file; uf_size := uf_size file;
                uf_type := uf_type file; uf_status := status; uf_url := uf_url file;
                uf_uploadProgress := uf_uploadProgress file;
                uf_progress := uf_progress file; uf_error := err |}]>
           (uploadQueue st)) st
  | None => st
  end.

(** *** Getters

    A [Map] iterates in insertion order, which a [gmap] does not record:
    the functions that iterate take the keys in insertion order as the
    argument [order]. *)

Definition values (order : list string) (st : Store) : list UploadedFile :=
  omap (λ k, uploadQueue st !! k) order.

(** [order] lists the keys of the queue, each once. *)
Definition enumerates (order : list string) (st : Store) : Prop :=
  NoDup order ∧ ∀ k, k ∈ order ↔ is_Some (uploadQueue st !! k).

Definition uploadingFiles (order : list string) (st : Store) : list UploadedFile :=
  filter (λ file, uf_status file = uploading ∨ uf_status file = pending)
         (values order st).

Definition completedFiles (order : list string) (st : Store) : list UploadedFile :=
  filter (λ file, uf_status file = completed) (values order st).

Definition failedFiles (order : list string) (st : Store) : list UploadedFile :=
  filter (λ file, uf_status file = error) (values order st).

Definition hasActiveUploads (order : list string) (st : Store) : bool :=
  bool_decide (0 < length (uploadingFiles order st))%nat.

(** Every entry is stored under its own id. *)
Definition keyed_by_id (st : Store) : Prop :=
  ∀ k file, uploadQueue st !! k = Some file → uf_id file = k.

(** The synchronous actions of the store. *)
Inductive action :=
| AddToQueue (files : list File) (ids : nat → string)
| RemoveFromQueue (fileId : string)
| ClearQueue
| ClearCompleted
| ClearFailed
| UpdateFileProgress (fileId : string) (progress : Z)
| SetFileStatus (fileId : string) (status : FileStatus) (err : option string).

Definition step (st : Store) (a : action) : Store :=
  match a with
  | AddToQueue files ids => (addToQueue files ids st).2
  | RemoveFromQueue fileId => removeFromQueue fileId st
  | ClearQueue => clearQueue st
  | ClearCompleted => clearCompleted st
  | ClearFailed => clearFailed st
  | UpdateFileProgress fileId progress => updateFileProgress fileId progress st
  | SetFileStatus fileId status err => setFileStatus fileId status err st
  end.

Definition run (st : Store) (tr : list action) : Store := foldl step st tr.

End FilesStore.

(** ** The upload area (components/chat/FileUploadArea.vue) *)

Module FileUploadArea.

Record Props := {
  props_files : list UploadedFile;
  props_isUploading : bool;
  props_uploadProgress : Z;
  props_maxFileSize : Z;
  props_maxFiles : nat;
}.

(** [withDefaults]: the values of the props that the parent leaves out. *)
Definition default_maxFileSize : Z := 10 * 1024 * 1024.
Definition default_maxFiles : nat := 5.

Inductive Emit :=
| files_selected (files : list File)
| file_remove (fileId : string)
| upload_complete
| upload_error (message : string).

Definition allowedTypes : list string :=
  [ "text/plain"; "text/log"; "application/json"; "image/png"; "image/jpeg";
    "image/gif"; "application/pdf"; "application/msword";
    "application/vnd.openxmlformats-officedocument.wordprocessingml.document" ].

Definition allowedExtensions : list string :=
  [ ".txt"; ".log"; ".json"; ".png"; ".jpg"; ".jpeg"; ".gif"; ".pdf"; ".doc";
    ".docx" ].

Definition isValidFileType (file : File) : bool :=
  bool_decide (file_type file ∈ allowedTypes)
  || existsb (λ ext, JS.endsWith (JS.toLowerCase (file_name file)) ext)
             allowedExtensions.

Section Rendering.

(** [formatFileSize] goes through [Math.log] and [toFixed]; the
    properties below hold whatever text it renders. *)
Variable formatFileSize : Z → string.

Definition too_large (props : Props) (file : File) : string :=
  file_name file +:+ " is too large (max "
    +:+ formatFileSize (props_maxFileSize props) +:+ ")".

Definition unsupported (file : File) : string :=
  file_name file +:+ " is not a supported file type".

(** The body of the [for] loop of [processFiles]: [acc] is the pair of
    the arrays [validFiles] and [errors]. *)
Definition check (props : Props) (acc : list File * list string) (file : File)
    : list File * list string :=
  if decide (file_size file > props_maxFileSize props) then
    (acc.1, acc.2 ++ [too_large props file])
  else if negb (isValidFileType file) then
    (acc.1, acc.2 ++ [unsupported file])
  else
    (acc.1 ++ [file], acc.2).

Definition processFiles (props : Props) (files : list File) : list Emit :=
  if decide (props_maxFiles props < length (props_files props) + length files)%nat
  then
    [ upload_error ("Maximum " +:+ JS.show_nat (props_maxFiles props)
                      +:+ " files allowed") ]
  else
    let r := foldl (check props) ([], []) files in
    (if decide (0 < length r.2)%nat then [upload_error (JS.join ", " r.2)] else [])
    ++ (if decide (0 < length r.1)%nat then [files_selected r.1] else []).

(** A file passes the size and the type check. *)
Definition passes (props : Props) (file : File) : bool :=
  bool_decide (file_size file ≤ props_maxFileSize props) && isValidFileType file.

(** The line that reports a file that does not pass. *)
Definition rejection (props : Props) (file : File) : string :=
  if decide (file_size file > props_maxFileSize props)
  then too_large props file
  else unsupported file.

Definition count_limit (props : Props) : string :=
  "Maximum " +:+ JS.show_nat (props_maxFiles props) +:+ " files allowed".

End Rendering.

Definition removeFile (fileId : string) : list Emit := [file_remove fileId].

(** The remove button of an entry of the file list:
    [@click="removeFile(file.id)"], [:disabled="file.status === 'uploading'"].
    The attribute is written when the list is rendered, so it follows
    [shown], the status of the entry as the upload area last rendered it.
    That is not always the status at the time of the click: the chat
    window's [startFileUpload] writes [file.status] on the objects it was
    handed, not through the reactive array, and such a write alone
    renders nothing. A disabled button receives no click; the click on an
    enabled one reads [file.id], which is never written again. *)
Definition clickRemove (shown : FileStatus) (file : UploadedFile) : list Emit :=
  if decide (shown = uploading) then [] else removeFile (uf_id file).

End FileUploadArea.

(** ** The chat window (components/chat/ChatWindow.vue), upload part *)

Module ChatWindow.

Import FileUploadArea.

(** A suspended run of [startFileUpload]: the entry whose progress loop is
    waiting on its timer, the value of the loop variable [progress], and
    the entries of the batch still to come. Entries are addresses in the
    heap: the objects pushed on [uploadedFiles] are the objects that the
    run mutates. *)
Record Task := {
  t_file : nat;
  t_progress : Z;
  t_rest : list nat;
}.

Record State := {
  heap : list UploadedFile;
  uploadedFiles : list nat;
  isUploading : bool;
  uploadProgress : Z;
  showFileUpload : bool;
  errorRef : option string;
  tasks : list (option Task);
}.

Definition init : State :=
  {| heap := []; uploadedFiles := []; isUploading := false; uploadProgress := 0;
     showFileUpload := false; errorRef := None; tasks := [] |}.

Definition set_heap (h : list UploadedFile) (st : State) : State :=
  {| heap := h; uploadedFiles := uploadedFiles st; isUploading := isUploading st;
     uploadProgress := uploadProgress st; showFileUpload := showFileUpload st;
     errorRef := errorRef st; tasks := tasks st |}.

Definition set_uploadedFiles (l : list nat) (st : State) : State :=
  {| heap := heap st; uploadedFiles := l; isUploading := isUploading st;
     uploadProgress := uploadProgress st; showFileUpload := showFileUpload st;
     errorRef := errorRef st; tasks := tasks st |}.

Definition set_isUploading (b : bool) (st : State) : State :=
  {| heap := heap st; uploadedFiles := uploadedFiles st; isUploading := b;
     uploadProgress := uploadProgress st; showFileUpload := showFileUpload st;
     errorRef := errorRef st; tasks := tasks st |}.

Definition set_uploadProgress (p : Z) (st : State) : State :=
  {| heap := heap st; uploadedFiles := uploadedFiles st; isUploading := isUploading st;
     uploadProgress := p; showFileUpload := showFileUpload st;
     errorRef := errorRef st; tasks := tasks st |}.

Definition set_showFileUpload (b : bool) (st : State) : State :=
  {| heap := heap st; uploadedFiles := uploadedFiles st; isUploading := isUploading st;
     uploadProgress := uploadProgress st; showFileUpload := b;
     errorRef := errorRef st; tasks := tasks st |}.

Definition set_errorRef (e : option string) (st : State) : State :=
  {| heap := heap st; uploadedFiles := uploadedFiles st; isUploading := isUploading st;
     uploadProgress := uploadProgress st; showFileUpload := showFileUpload st;
     errorRef := e; tasks := tasks st |}.

Definition set_tasks (ts : list (option Task)) (st : State) : State :=
  {| heap := heap st; uploadedFiles := uploadedFiles st; isUploading := isUploading st;
     uploadProgress := uploadProgress st; showFileUpload := showFileUpload st;
     errorRef := errorRef st; tasks := ts |}.

(** The entries of [uploadedFiles], read through their addresses. *)
Definition queue (st : State) : list UploadedFile :=
  omap (λ r, heap st !! r) (uploadedFiles st).

Definition id_at (st : State) (r : nat) : option string :=
  uf_id <$> heap st !! r.

(** *** startFileUpload *)

(** [file.status = 'uploading'], then the first turn of the progress
    loop, up to its [await]. *)
Definition enter_file (r : nat) (rest : list nat) (st : State)
    : State * option Task :=
  let st1 := set_heap (alter (with_status uploading) r (heap st)) st in
  let st2 := set_heap (alter (with_progress 0) r (heap st1)) st1 in
  (set_uploadProgress 0 st2, Some {| t_file := r; t_progress := 0; t_rest := rest |}).

(** The head of the [for ... of] loop: the next entry, or the end of the
    run. *)
Definition next_file (rest : list nat) (st : State) : State * option Task :=
  match rest with
  | r :: rest' => enter_file r rest' st
  | [] => (set_isUploading false st, None)
  end.

(** The continuation after the [await]: [progress += 10], then either
    another turn of the progress loop or [file.status = 'completed'] and
    the next entry. The timer promise never rejects, so the [catch]
    branch is not reached. *)
Definition resume (t : Task) (st : State) : State * option Task :=
  let progress := t_progress t + 10 in
  if decide (progress ≤ 100) then
    let st1 := set_heap (alter (with_progress progress) (t_file t) (heap st)) st in
    (set_uploadProgress progress st1,
     Some {| t_file := t_file t; t_progress := progress; t_rest := t_rest t |})
  else
    next_file (t_rest t)
      (set_heap (alter (with_status completed) (t_file t) (heap st)) st).

(** The call itself runs up to the first [await]. *)
Definition startFileUpload (files : list nat) (st : State) : State :=
  let r := next_file files (set_isUploading true st) in
  set_tasks (tasks r.1 ++ [r.2]) r.1.

(** The timer of run [i] fires. *)
Definition tick (i : nat) (st : State) : State :=
  match tasks st !! i with
  | Some (Some t) =>
      let r := resume t st in
      set_tasks (<[i := r.2]> (tasks r.1)) r.1
  | _ => st
  end.

(** *** Handlers *)

(** [ids k] is the [generateId()] drawn for the [k]-th file. *)
Definition handleFilesSelected (files : list File) (ids : nat → string)
    (st : State) : State :=
  let newFiles :=
    imap (λ k file,
            {| uf_id := ids k; uf_name := file_name file; uf_size := file_size file;
               uf_type := file_type file; uf_status := pending; uf_url := None;
               uf_uploadProgress := None; uf_progress := None; uf_error := None |})
         files in
  let refs := seq (length (heap st)) (length newFiles) in
  let st1 := set_heap (heap st ++ newFiles) st in
  let st2 := set_uploadedFiles (uploadedFiles st1 ++ refs) st1 in
  startFileUpload refs st2.

Definition handleFileRemove (fileId : string) (st : State) : State :=
  set_uploadedFiles
    (filter (λ r, id_at st r ≠ Some fileId) (uploadedFiles st)) st.

Definition handleUploadComplete (st : State) : State := st.

Definition handleUploadError (errorMessage : string) (st : State) : State :=
  set_errorRef (Some errorMessage) st.

Definition clearFiles (st : State) : State :=
  set_showFileUpload false (set_uploadedFiles [] st).

Definition clearError (st : State) : State := set_errorRef None st.

Definition toggleFileUpload (st : State) : State :=
  set_showFileUpload (negb (showFileUpload st)) st.

(** *** The wiring of the template *)

(** [:files="uploadedFiles" :is-uploading="isUploading"
    :upload-progress="uploadProgress"]. The template passes neither
    [maxFileSize] nor [maxFiles]; they are arguments here so that the
    upload area can be studied under any limits. *)
Definition props (maxFileSize : Z) (maxFiles : nat) (st : State) : Props :=
  {| props_files := queue st;
     props_isUploading := isUploading st;
     props_uploadProgress := uploadProgress st;
     props_maxFileSize := maxFileSize;
     props_maxFiles := maxFiles |}.

(** [@files-selected], [@file-remove], [@upload-complete], [@upload-error] *)
Definition on_emit (ids : nat → string) (st : State) (e : Emit) : State :=
  match e with
  | files_selected files => handleFilesSelected files ids st
  | file_remove fileId => handleFileRemove fileId st
  | upload_complete => handleUploadComplete st
  | upload_error message => handleUploadError message st
  end.

Definition on_emits (ids : nat → string) (st : State) (es : list Emit) : State :=
  foldl (on_emit ids) st es.

(** The user drops or selects a batch of files on the upload area. *)
Definition userSelects (formatFileSize : Z → string) (maxFileSize : Z)
    (maxFiles : nat) (batch : list File) (ids : nat → string) (st : State) : State :=
  on_emits ids st (processFiles formatFileSize (props maxFileSize maxFiles st) batch).

(** The user clicks the remove button of the entry at address [r], which
    the upload area last rendered in status [shown]. The list has a
    button for the entries of [uploadedFiles] only. When the area renders
    is decided by the framework and is not modelled: [shown] is an input,
    as the time of an event is. *)
Definition userRemoves (r : nat) (shown : FileStatus) (st : State) : State :=
  match heap st !! r with
  | Some file =>
      if decide (r ∈ uploadedFiles st)
      then on_emits (λ _, "") st (clickRemove shown file)
      else st
  | None => st
  end.

Inductive action :=
| FilesSelected (files : list File) (ids : nat → string)
| FileRemove (fileId : string)
| UploadError (message : string)
| UserRemoves (r : nat) (shown : FileStatus)
| ClearFiles
| ClearError
| ToggleFileUpload
| Tick (i : nat).

Definition step (st : State) (a : action) : State :=
  match a with
  | FilesSelected files ids => handleFilesSelected files ids st
  | FileRemove fileId => handleFileRemove fileId st
  | UploadError message => handleUploadError message st
  | UserRemoves r shown => userRemoves r shown st
  | ClearFiles => clearFiles st
  | ClearError => clearError st
  | ToggleFileUpload => toggleFileUpload st
  | Tick i => tick i st
  end.

Definition run (st : State) (tr : list action) : State := foldl step st tr.

(** A trace is sequential when no batch is handed to
    [handleFilesSelected] while [isUploading] is still set, that is, while
    an earlier run of [startFileUpload] has not finished. *)
Fixpoint sequential (st : State) (tr : list action) : bool :=
  match tr with
  | [] => true
  | a :: tr' =>
      match a with
      | FilesSelected _ _ => negb (isUploading st)
      | _ => true
      end && sequential (step st a) tr'
  end.

(** Every address held by [uploadedFiles] is allocated. *)
Definition valid_refs (st : State) : Prop :=
  Forall (λ r, (r < length (heap st))%nat) (uploadedFiles st).

(** The [File] an entry was made from. *)
Definition entry_file (f : UploadedFile) : File :=
  {| file_name := uf_name f; file_size := uf_size f; file_type := uf_type f |}.

(** *** One run at a time *)

(** No run of [startFileUpload] is suspended and no object is being
    uploaded. *)
Definition idle (st : State) : Prop :=
  isUploading st = false
  ∧ (∀ i t, tasks st !! i ≠ Some (Some t))
  ∧ (∀ r f, heap st !! r = Some f → uf_status f ≠ uploading).

(** Run [i] is the only suspended run; it waits in state [t]: the object
    at [t_file t] is the only one being uploaded, and its progress is the
    value last written to [uploadProgress]. *)
Definition busy (st : State) (i : nat) (t : Task) : Prop :=
  isUploading st = true
  ∧ tasks st !! i = Some (Some t)
  ∧ (∀ j t', tasks st !! j = Some (Some t') → j = i)
  ∧ (∃ f, heap st !! t_file t = Some f
          ∧ uf_status f = uploading
          ∧ uf_progress f = Some (t_progress t))
  ∧ uploadProgress st = t_progress t
  ∧ (∀ r f, heap st !! r = Some f → uf_status f = uploading → r = t_file t)
  ∧ Forall (λ r, (r < length (heap st))%nat) (t_rest t).

Definition phase (st : State) : Prop := idle st ∨ ∃ i t, busy st i t.

Definition single_flight (st : State) : Prop :=
  phase st ∧ NoDup (uploadedFiles st) ∧ valid_refs st.

(** *** Aggregate progress *)

Definition uploading_entries (st : State) : list UploadedFile :=
  filter (λ f, uf_status f = uploading) (queue st).

(** [file.progress || 0], as the template reads it. *)
Definition progress_of (f : UploadedFile) : Z := default 0 (uf_progress f).

Definition sum_progress (fs : list UploadedFile) : Z :=
  foldr Z.add 0 (map progress_of fs).

(** [m] is the arithmetic mean of the progress of the entries [fs]. *)
Definition is_mean (m : Z) (fs : list UploadedFile) : Prop :=
  fs ≠ [] ∧ m * Z.of_nat (length fs) = sum_progress fs.

(** *** Progress values *)

(** The values the progress loop writes: 0, 10, ..., 100. *)
Definition in_steps (p : Z) : Prop := 0 ≤ p ≤ 100 ∧ (10 | p).

(** Every progress value in the state is one the loop writes. *)
Definition stepped (st : State) : Prop :=
  in_steps (uploadProgress st)
  ∧ (∀ r f p, heap st !! r = Some f → uf_progress f = Some p → in_steps p)
  ∧ (∀ i t, tasks st !! i = Some (Some t) → in_steps (t_progress t)).

(** [n] firings of the timer of run [i]. *)
Definition ticks (i n : nat) : list action := replicate n (Tick i).

(** An entry whose upload has run to its end. *)
Definition uploaded (f : UploadedFile) : UploadedFile :=
  with_status completed (with_progress 100 f).

End ChatWindow.

(** ** The message input (components/chat/MessageInput.vue) *)

Module MessageInput.

(** The props that the script reads. [placeholder], [maxLength] and
    [showCharCount] are read by the template only. *)
Record Props := {
  modelValue : string;
  isSending : bool;
  hasFiles : bool;
}.

(** The fields of the browser's [KeyboardEvent] that [handleKeydown]
    reads. *)
Record KeyboardEvent := {
  key : string;
  ctrlKey : bool;
  metaKey : bool;
  shiftKey : bool;
}.

Inductive Emit :=
| update_modelValue (value : string)
| send
| toggle_file_upload
| clear_files.

Section Text.

(** [String.prototype.trim] *)
Variable trim : string → string.

Definition canSend (props : Props) : bool :=
  negb (isSending props)
  && (bool_decide (0 < String.length (trim (modelValue props)))%nat
      || hasFiles props).

Definition handleSend (props : Props) : list Emit :=
  if canSend props then [send] else [].

(** The result is whether [event.preventDefault()] has been called, and
    what is emitted. *)
Definition handleKeydown (event : KeyboardEvent) (props : Props)
    : bool * list Emit :=
  if decide (key event = "Enter") then
    if ctrlKey event || metaKey event then (true, handleSend props)
    else if negb (shiftKey event) then (true, handleSend props)
    else (false, [])
  else (false, []).

(** The send button: [@click="handleSend" :disabled="!canSend"]. A
    disabled button dispatches no click. *)
Definition clickSend (props : Props) : list Emit :=
  if canSend props then handleSend props else [].

End Text.

End MessageInput.

(** ** The chat window (components/chat/ChatWindow.vue), message part *)

Module ChatMessages.

Import ChatWindow.

(** What the window emits to its parent. The array of [message-sent] is
    [[...uploadedFiles.value]]: a new array of the same entries, so it is
    a list of addresses. *)
Inductive Emitted :=
| message_sent (message : string) (files : list nat)
| citation_clicked (citation : Citation).

(** The refs of the message side, beside those of the upload side
    ([error] is [errorRef] there), followed by what is emitted and by
    the number of calls of [handleSendMessage] that are suspended at
    [await scrollToBottom()]. *)
Record Window := {
  uploads : State;
  messages : list Message;
  messageText : string;
  isSending : bool;
  isLoading : bool;
  isStreaming : bool;
  streamingMessageId : option string;
  emitted : list Emitted;
  sending : nat;
}.

Definition init (initialMessages : list Message) : Window :=
  {| uploads := ChatWindow.init; messages := initialMessages; messageText := "";
     isSending := false; isLoading := false; isStreaming := false;
     streamingMessageId := None; emitted := []; sending := 0 |}.

Definition set_uploads (st : State) (w : Window) : Window :=
  {| uploads := st; messages := messages w; messageText := messageText w;
     isSending := isSending w; isLoading := isLoading w;
     isStreaming := isStreaming w; streamingMessageId := streamingMessageId w;
     emitted := emitted w; sending := sending w |}.

Definition set_messages (ms : list Message) (w : Window) : Window :=
  {| uploads := uploads w; messages := ms; messageText := messageText w;
     isSending := isSending w; isLoading := isLoading w;
     isStreaming := isStreaming w; streamingMessageId := streamingMessageId w;
     emitted := emitted w; sending := sending w |}.

Definition set_messageText (s : string) (w : Window) : Window :=
  {| uploads := uploads w; messages := messages w; messageText := s;
     isSending := isSending w; isLoading := isLoading w;
     isStreaming := isStreaming w; streamingMessageId := streamingMessageId w;
     emitted := emitted w; sending := sending w |}.

Section Text.

Variable trim : string → string.

(** The user message that [handleSendMessage] builds; [id] is the
    [generateId()] drawn for it and [now] the time of the call. *)
Definition userMessage (id : string) (now : Z) (w : Window) : Message :=
  {| msg_id := id; msg_role := user; msg_content := messageText w;
     msg_timestamp := now; msg_citations := None |}.

(** [handleSendMessage] up to [await scrollToBottom()]. A listener of
    the parent that throws out of [emit] is not modelled, so the [catch]
    branch is not reached. *)
Definition handleSendMessage (id : string) (now : Z) (w : Window) : Window :=
  if decide (trim (messageText w) = "" ∧ uploadedFiles (uploads w) = []) then w
  else
    {| uploads := clearFiles (set_errorRef None (uploads w));
       messages := messages w ++ [userMessage id now w];
       messageText := "";
       isSending := true;
       isLoading := true;
       isStreaming := isStreaming w;
       streamingMessageId := streamingMessageId w;
       emitted := emitted w
                  ++ [message_sent (messageText w) (uploadedFiles (uploads w))];
       sending := S (sending w) |}.

(** The rest of [handleSendMessage]: the [finally] block, once
    [scrollToBottom()] has resolved. Scrolling touches the DOM only. *)
Definition settle (w : Window) : Window :=
  match sending w with
  | O => w
  | S n =>
      {| uploads := uploads w; messages := messages w;
         messageText := messageText w; isSending := false;
         isLoading := isLoading w; isStreaming := isStreaming w;
         streamingMessageId := streamingMessageId w; emitted := emitted w;
         sending := n |}
  end.

Definition handleCitationClick (citation : Citation) (w : Window) : Window :=
  {| uploads := uploads w; messages := messages w;
     messageText := messageText w; isSending := isSending w;
     isLoading := isLoading w; isStreaming := isStreaming w;
     streamingMessageId := streamingMessageId w;
     emitted := emitted w ++ [citation_clicked citation];
     sending := sending w |}.

(** *** Public methods for parent components *)

Definition addMessage (m : Message) (w : Window) : Window :=
  set_messages (messages w ++ [m]) w.

Definition startStreaming (messageId : string) (w : Window) : Window :=
  {| uploads := uploads w; messages := messages w;
     messageText := messageText w; isSending := isSending w;
     isLoading := false; isStreaming := true;
     streamingMessageId := Some messageId; emitted := emitted w;
     sending := sending w |}.

Definition stopStreaming (w : Window) : Window :=
  {| uploads := uploads w; messages := messages w;
     messageText := messageText w; isSending := isSending w;
     isLoading := isLoading w; isStreaming := false;
     streamingMessageId := None; emitted := emitted w;
     sending := sending w |}.

Definition with_content (content : string) (m : Message) : Message :=
  {| msg_id := msg_id m; msg_role := msg_role m; msg_content := content;
     msg_timestamp := msg_timestamp m; msg_citations := msg_citations m |}.

(** [messages.value.find(...)] yields the first message with the id. *)
Definition updateStreamingMessage (messageId content : string) (w : Window)
    : Window :=
  match list_find (λ m, msg_id m = messageId) (messages w) with
  | Some (i, _) => set_messages (alter (with_content content) i (messages w)) w
  | None => w
  end.

(** *** The wiring of the template *)

(** [v-model="messageText" :is-sending="isSending"
    :has-files="uploadedFiles.length > 0"] *)
Definition input_props (w : Window) : MessageInput.Props :=
  {| MessageInput.modelValue := messageText w;
     MessageInput.isSending := isSending w;
     MessageInput.hasFiles := bool_decide (uploadedFiles (uploads w) ≠ []) |}.

(** [v-model], [@send], [@toggle-file-upload], [@clear-files] *)
Definition on_input_emit (id : string) (now : Z) (w : Window)
    (e : MessageInput.Emit) : Window :=
  match e with
  | MessageInput.update_modelValue value => set_messageText value w
  | MessageInput.send => handleSendMessage id now w
  | MessageInput.toggle_file_upload => set_uploads (toggleFileUpload (uploads w)) w
  | MessageInput.clear_files => set_uploads (clearFiles (uploads w)) w
  end.

(** The user presses a key in the textarea. *)
Definition keydown (event : MessageInput.KeyboardEvent) (id : string) (now : Z)
    (w : Window) : Window :=
  foldl (on_input_emit id now) w
        (MessageInput.handleKeydown trim event (input_props w)).2.

(** The user clicks the send button. *)
Definition click (id : string) (now : Z) (w : Window) : Window :=
  foldl (on_input_emit id now) w (MessageInput.clickSend trim (input_props w)).

Inductive action :=
| Upload (a : ChatWindow.action)
| Input (value : string)
| Keydown (event : MessageInput.KeyboardEvent) (id : string) (now : Z)
| Click (id : string) (now : Z)
| Settle
| CitationClick (citation : Citation)
| AddMessage (m : Message)
| StartStreaming (messageId : string)
| StopStreaming
| UpdateStreamingMessage (messageId content : string).

Definition step (w : Window) (a : action) : Window :=
  match a with
  | Upload a' => set_uploads (ChatWindow.step (uploads w) a') w
  | Input value => set_messageText value w
  | Keydown event id now => keydown event id now w
  | Click id now => click id now w
  | Settle => settle w
  | CitationClick citation => handleCitationClick citation w
  | AddMessage m => addMessage m w
  | StartStreaming messageId => startStreaming messageId w
  | StopStreaming => stopStreaming w
  | UpdateStreamingMessage messageId content =>
      updateStreamingMessage messageId content w
  end.

Definition run (w : Window) (tr : list action) : Window := foldl step w tr.

(** At most one call of [handleSendMessage] is suspended, and [isSending]
    is set exactly while one is. *)
Definition one_send (w : Window) : Prop :=
  (sending w ≤ 1)%nat ∧ (isSending w = true ↔ sending w = 1%nat).

End Text.

End ChatMessages.

(** ** Sample data *)

Module Samples.

Definition fragment (content : string) (isComplete : bool)
    (messageId : option string) : StreamChunk :=
  {| chunk_id := "chunk"; chunk_content := content;
     chunk_isComplete := isComplete; chunk_messageId := messageId |}.

Definition hello : StreamChunk := fragment "Hello " false None.
Definition world : StreamChunk := fragment "world" true (Some "m1").

(** The argument of [addOptimisticMessage] for a user message. *)
Definition draft (content : string) : PartialMessage :=
  {| p_id := None; p_role := Some user; p_content := Some content;
     p_timestamp := None; p_citations := None |}.

(** The stored counterpart of a user message. *)
Definition final (id content : string) : Message :=
  {| msg_id := id; msg_role := user; msg_content := content;
     msg_timestamp := 9; msg_citations := None |}.

Definition store0 : Conversations.Store := Conversations.init "token".
Definition app0 : App.State := App.init "token".

Definition notes : File :=
  {| file_name := "Notes.TXT"; file_size := 512; file_type := "" |}.
Definition large : File :=
  {| file_name := "large.txt"; file_size := 2048; file_type := "text/plain" |}.
Definition binary : File :=
  {| file_name := "tool.exe"; file_size := 100; file_type := "application/x-msdownload" |}.

Definition render (bytes : Z) : string := JS.show_Z bytes +:+ " Bytes".
Definition ids_a (k : nat) : string := "a" +:+ JS.show_nat k.
Definition ids_b (k : nat) : string := "b" +:+ JS.show_nat k.

(** A files store whose queue holds one finished entry. *)
Definition done_entry : UploadedFile :=
  {| uf_id := "f1"; uf_name := "a.txt"; uf_size := 10; uf_type := "text/plain";
     uf_status := completed; uf_url := None; uf_uploadProgress := Some 100;
     uf_progress := None; uf_error := None |}.
Definition files1 : FilesStore.Store :=
  FilesStore.set_uploadQueue {[ "f1" := done_entry ]} FilesStore.init.



Definition entry1 : UploadedFile :=
  {| uf_id := "a0"; uf_name := "Notes.TXT"; uf_size := 512; uf_type := "";
     uf_status := uploading; uf_url := None; uf_uploadProgress := None;
     uf_progress := Some 0; uf_error := None |}.


Definition entry1_done : UploadedFile :=
  {| uf_id := "a0"; uf_name := "Notes.TXT"; uf_size := 512; uf_type := "";
     uf_status := completed; uf_url := None; uf_uploadProgress := None;
     uf_progress := Some 100; uf_error := None |}.

(** Two batches selected one after the other, then the first timer of the
    first batch. *)
Definition overlapping : list ChatWindow.action :=
  [ChatWindow.FilesSelected [notes] ids_a;
   ChatWindow.FilesSelected [notes] ids_b;
   ChatWindow.Tick 0].

(** One batch of two files and two timers. *)
Definition one_batch : list ChatWindow.action :=
  [ChatWindow.FilesSelected [notes; notes] ids_a;
   ChatWindow.Tick 0; ChatWindow.Tick 0].

(** A chat window with two entries in its queue. *)
Definition window2 : ChatWindow.State :=
  ChatWindow.run ChatWindow.init [ChatWindow.FilesSelected [notes; notes] ids_a].

(** A [trim] that knows the space character only. *)
Fixpoint trim_start (s : string) : string :=
  match s with
  | String " "%char s' => trim_start s'
  | _ => s
  end.

Definition reversed (s : string) : string :=
  string_of_list_ascii (rev (list_ascii_of_string s)).

Definition trim (s : string) : string :=
  reversed (trim_start (reversed (trim_start s))).

(** The [Enter] key on its own. *)
Definition enter : MessageInput.KeyboardEvent :=
  {| MessageInput.key := "Enter"; MessageInput.ctrlKey := false;
     MessageInput.metaKey := false; MessageInput.shiftKey := false |}.

(** A fresh chat window, and the same with a text typed in. *)
Definition panel0 : ChatMessages.Window := ChatMessages.init [].
Definition typed : ChatMessages.Window := ChatMessages.set_messageText " hi " panel0.

(** A store with a session running for conversation [c1]. *)
Definition session : list Conversations.action :=
  [Conversations.StartStreaming "s1" "c1"].

End Samples.

(** * Properties *)

(** ** Strings *)

Lemma append_cons (a : ascii) (s t : string) :
  String a s +:+ t = String a (s +:+ t).
Proof. reflexivity. Qed.

Lemma append_nil_l (s : string) : "" +:+ s = s.
Proof. reflexivity. Qed.

Lemma append_nil_r (s : string) : s +:+ "" = s.
Proof.
  induction s as [|a s IH]; [done |]. by rewrite append_cons, IH.
Qed.

Lemma append_assoc (a b c : string) : (a +:+ b) +:+ c = a +:+ (b +:+ c).
Proof.
  induction a as [|x a IH]; [done |]. by rewrite !append_cons, IH.
Qed.

Lemma endsWith_append (a b : string) : JS.endsWith (a +:+ b) b = true.
Proof.
  induction a as [|x a IH].
  - rewrite append_nil_l. destruct b; cbn [JS.endsWith]; by rewrite decide_True.
  - rewrite append_cons. cbn [JS.endsWith]. case_decide; [done | exact IH].
Qed.

(** [endsWith] holds of the strings that are the suffix after some
    text, and of no others. *)
Lemma endsWith_inv (s suf : string) :
  JS.endsWith s suf = true → ∃ base, s = base +:+ suf.
Proof.
  induction s as [|a s IH]; cbn [JS.endsWith].
  - case_decide as Heq; [| done]. intros _. exists "". by rewrite <- Heq.
  - case_decide as Heq.
    + intros _. exists "". by rewrite <- Heq.
    + intros [base ->]%IH. exists (String a base). by rewrite append_cons.
Qed.

Lemma endsWith_iff (s suf : string) :
  JS.endsWith s suf = true ↔ ∃ base, s = base +:+ suf.
Proof.
  split; [apply endsWith_inv |]. intros [base ->]. apply endsWith_append.
Qed.

Lemma startsWith_append (p s : string) : JS.startsWith (p +:+ s) p = true.
Proof.
  induction p as [|a p IH]; [done |].
  rewrite append_cons. cbn [JS.startsWith].
  destruct (decide (a = a)); [exact IH | congruence].
Qed.

Lemma startsWith_refl (s : string) : JS.startsWith s s = true.
Proof.
  pose proof (startsWith_append s "") as H. by rewrite append_nil_r in H.
Qed.

Lemma startsWith_append_l (s b sub : string) :
  JS.startsWith s sub = true → JS.startsWith (s +:+ b) sub = true.
Proof.
  revert sub. induction s as [|y s IH]; intros [|z sub]; try done.
  rewrite append_cons. cbn [JS.startsWith].
  destruct (decide (z = y)); [apply IH | done].
Qed.

Lemma includes_startsWith (s sub : string) :
  JS.startsWith s sub = true → JS.includes s sub = true.
Proof. destruct s; cbn [JS.includes]; intros ->; done. Qed.

Lemma includes_append_r (a s sub : string) :
  JS.includes s sub = true → JS.includes (a +:+ s) sub = true.
Proof.
  intros H. induction a as [|x a IH]; [done |].
  rewrite append_cons. cbn [JS.includes]. rewrite IH. apply orb_true_r.
Qed.

Lemma includes_middle (a sub b : string) :
  JS.includes (a +:+ sub +:+ b) sub = true.
Proof. apply includes_append_r, includes_startsWith, startsWith_append. Qed.

Lemma includes_append_l (s b sub : string) :
  JS.includes s sub = true → JS.includes (s +:+ b) sub = true.
Proof.
  induction s as [|x s IH].
  - cbn [JS.includes]. rewrite orb_false_r. intros H.
    apply includes_startsWith. by apply startsWith_append_l.
  - cbn [JS.includes]. intros [H|H]%orb_true_iff.
    + apply includes_startsWith. by apply startsWith_append_l.
    + rewrite append_cons. cbn [JS.includes]. rewrite (IH H). apply orb_true_r.
Qed.

Lemma includes_join (sep x : string) (xs : list string) :
  x ∈ xs → JS.includes (JS.join sep xs) x = true.
Proof.
  induction xs as [|y xs IH]; [by intros ?%elem_of_nil |].
  intros [->|Hin]%elem_of_cons.
  - destruct xs as [|z xs]; cbn [JS.join].
    + apply includes_startsWith, startsWith_refl.
    + apply includes_startsWith, startsWith_append.
  - destruct xs as [|z xs]; [by apply elem_of_nil in Hin |].
    change (JS.join sep (y :: z :: xs)) with (y +:+ sep +:+ JS.join sep (z :: xs)).
    apply includes_append_r, includes_append_r. by apply IH.
Qed.

Lemma startsWith_inv (s p : string) :
  JS.startsWith s p = true → ∃ b, s = p +:+ b.
Proof.
  revert s. induction p as [|a p IH]; intros s H; [by exists s |].
  destruct s as [|c s]; [done |]. cbn [JS.startsWith] in H.
  destruct (decide (a = c)) as [->|]; [| done].
  destruct (IH s H) as [b ->]. by exists b.
Qed.

Lemma includes_inv (s sub : string) :
  JS.includes s sub = true → ∃ a b, s = a +:+ sub +:+ b.
Proof.
  induction s as [|c s IH]; cbn [JS.includes].
  - rewrite orb_false_r. intros [b ->]%startsWith_inv. by exists "", b.
  - intros [H|H]%orb_true_iff.
    + apply startsWith_inv in H as [b ->]. by exists "", b.
    + destruct (IH H) as (a & b & ->). by exists (String c a), b.
Qed.

Lemma includes_trans (s t u : string) :
  JS.includes s t = true → JS.includes t u = true → JS.includes s u = true.
Proof.
  intros (a & b & ->)%includes_inv (a' & b' & ->)%includes_inv.
  rewrite !append_assoc, <- (append_assoc a a').
  apply includes_middle.
Qed.

(** ** The streaming coordinator *)

Section Streaming.

Import Conversations.

Lemma run_app (st : Store) (tr1 tr2 : list action) :
  run st (tr1 ++ tr2) = run (run st tr1) tr2.
Proof. apply foldl_app. Qed.

Lemma run_cons (st : Store) (a : action) (tr : list action) :
  run st (a :: tr) = run (step st a) tr.
Proof. reflexivity. Qed.

(** A closed source delivers nothing. *)
Lemma dispatch_closed (h : nat) (ev : SourceEvent) (st : Store) :
  source_closed h st → dispatch h ev st = st.
Proof. intros (src & Hsrc & Hc). unfold dispatch. by rewrite Hsrc, Hc. Qed.

Lemma dispatch_unknown (h : nat) (ev : SourceEvent) (st : Store) :
  sources st !! h = None → dispatch h ev st = st.
Proof. intros H. unfold dispatch. by rewrite H. Qed.

(** The source that [startStreaming] creates is the last one, and is open. *)
Lemma startStreaming_source (streamId conversationId : string) (st : Store) :
  sources (startStreaming streamId conversationId st) !! length (sources st)
  = Some {| es_url := stream_url conversationId streamId (token st);
            es_closed := false;
            es_conversationId := conversationId |}.
Proof.
  unfold startStreaming; cbn [sources].
  destruct (eventSource st) as [h|]; unfold close_source;
    apply list_lookup_middle; by rewrite ?length_alter.
Qed.

Lemma stopStreaming_closes (h : nat) (src : EventSource) (st : Store) :
  eventSource st = Some h → sources st !! h = Some src →
  source_closed h (stopStreaming st).
Proof.
  intros Hh Hsrc. exists (es_close src). split; [| done].
  unfold stopStreaming; cbn [sources]. rewrite Hh. unfold close_source.
  by rewrite list_lookup_alter_eq, Hsrc.
Qed.

Lemma set_streamingContent_twice (a b : string) (st : Store) :
  set_streamingContent a (set_streamingContent b st) = set_streamingContent a st.
Proof. reflexivity. Qed.

Lemma set_streamingContent_same (st : Store) :
  set_streamingContent (streamingContent st) st = st.
Proof. by destruct st. Qed.

(** Non-terminal fragments only grow the buffer, in arrival order. *)
Lemma deliver_buffers (h : nat) (chunks : list (StreamChunk * Z)) (st : Store) :
  source_open h st →
  Forall (λ c, chunk_isComplete c.1 = false) chunks →
  run st (deliver h chunks)
  = set_streamingContent (streamingContent st +:+ contents chunks) st.
Proof.
  intros Hopen Hnt. revert st Hopen.
  induction Hnt as [|[c now] chunks Hc _ IH]; intros st Hopen.
  - cbn [deliver map run foldl contents foldr].
    by rewrite append_nil_r, set_streamingContent_same.
  - cbn [deliver map fst snd]. rewrite run_cons. fold (deliver h chunks).
    destruct Hopen as (src & Hsrc & Hcl).
    assert (step st (Dispatch h (MessageEvent (Some c) now))
            = set_streamingContent (streamingContent st +:+ chunk_content c) st)
      as ->.
    { cbn [step]. unfold dispatch. rewrite Hsrc, Hcl. cbn [onmessage fst snd].
      simpl in Hc. by rewrite Hc. }
    rewrite IH by (exists src; done).
    cbn [contents foldr fst]. fold (contents chunks).
    by rewrite set_streamingContent_twice, <- append_assoc.
Qed.

(** C1 (as amended). A session opened by [startStreaming], fed any
    sequence of non-terminal fragments and then a terminal fragment,
    appends exactly one assistant message to the owning conversation. Its
    id is the terminal fragment's [messageId] when that is a non-empty
    string and [stream-<streamId>] otherwise; its content is the
    concatenation, in arrival order, of the contents of the non-terminal
    fragments: the content of the terminal fragment is not part of it.
    The coordinator is idle afterwards: buffer cleared, source closed. *)
Theorem C1_terminal_fragment_commits_buffer
    (st : Store) (streamId conversationId : string)
    (chunks : list (StreamChunk * Z)) (last : StreamChunk) (now : Z) :
  Forall (λ c, chunk_isComplete c.1 = false) chunks →
  chunk_isComplete last = true →
  let h := length (sources st) in
  let st' := run st (StartStreaming streamId conversationId
                       :: deliver h chunks
                       ++ [Dispatch h (MessageEvent (Some last) now)]) in
  messages st'
  = <[conversationId :=
        currentMessages conversationId st
        ++ [finished streamId last (contents chunks) now]]> (messages st)
  ∧ isStreaming st' = false
  ∧ streamingContent st' = ""
  ∧ streamingMessageId st' = None
  ∧ eventSource st' = None
  ∧ source_closed h st'.
Proof.
  intros Hnt Hlast h st'. subst st'.
  rewrite run_cons, run_app. cbn [step].
  pose proof (startStreaming_source streamId conversationId st) as Hsrc.
  fold h in Hsrc.
  set (st1 := startStreaming streamId conversationId st) in *.
  rewrite deliver_buffers; [| eexists; split; [exact Hsrc | done] | done].
  cbn [run foldl step]. unfold dispatch.
  cbn [sources set_streamingContent]. rewrite Hsrc. cbn [es_closed es_conversationId].
  unfold onmessage. rewrite Hlast.
  cbn [stopStreaming addMessage set_messages set_streamingContent messages
       isStreaming streamingContent streamingMessageId eventSource sources
       currentMessages].
  split_and!; try done.
  apply stopStreaming_closes with
    (src := {| es_url := stream_url conversationId streamId (token st);
               es_closed := false;
               es_conversationId := conversationId |}); [| exact Hsrc].
  subst st1 h. cbn [startStreaming eventSource addMessage set_messages
                    set_streamingContent].
  destruct (eventSource st); unfold close_source; by rewrite ?length_alter.
Qed.

Lemma C1_terminal_fragment_commits_buffer_witness :
  Forall (λ c : StreamChunk * Z, chunk_isComplete c.1 = false) [(Samples.hello, 1)]
  ∧ chunk_isComplete Samples.world = true
  ∧ messages (run Samples.store0
                [StartStreaming "s1" "c1";
                 Dispatch 0 (MessageEvent (Some Samples.hello) 1);
                 Dispatch 0 (MessageEvent (Some Samples.world) 2)])
    = <["c1" := [finished "s1" Samples.world "Hello " 2]]> ∅.
Proof.
  split; [by repeat constructor |]. split; [reflexivity |].
  apply (C1_terminal_fragment_commits_buffer Samples.store0 "s1" "c1"
           [(Samples.hello, 1)] Samples.world 2);
    [by repeat constructor | reflexivity].
Defined.

(** C1 (as stated) fails on the specification's own example: after the
    fragment ['Hello '] and the terminal fragment ['world'] with
    [messageId = 'm1'], conversation [c1] holds one message with id [m1]
    whose content is ['Hello '], not ['Hello world']. *)
Lemma C1_counterexample :
  ∃ m, messages (run Samples.store0
                   [StartStreaming "s1" "c1";
                    Dispatch 0 (MessageEvent (Some Samples.hello) 1);
                    Dispatch 0 (MessageEvent (Some Samples.world) 2)]) !! "c1"
       = Some [m]
       ∧ msg_id m = "m1"
       ∧ msg_content m = "Hello "
       ∧ msg_content m
         ≠ chunk_content Samples.hello +:+ chunk_content Samples.world.
Proof. eexists. split; [reflexivity |]. by repeat split. Qed.

(** *** Failed sessions *)

Lemma app_run (app : App.State) (tr : list action) :
  App.run app tr
  = {| App.conversationsStore := run (App.conversationsStore app) tr;
       App.notificationsStore := App.notificationsStore app |}.
Proof.
  revert app. induction tr as [|a tr IH]; intros app; [by destruct app |].
  cbn [App.run foldl]. fold (App.run (App.step app a) tr). by rewrite IH.
Qed.

(** C5 (as amended). When a fragment fails to parse, or the transport
    reports an error event, the session aborts and the coordinator is
    idle; the error is written to the console with [console.error] and
    the notifications store is left as it was; no message is committed:
    the message lists are those from before the session started. *)
Theorem C5_failed_session_commits_nothing
    (app : App.State) (streamId conversationId : string)
    (chunks : list (StreamChunk * Z)) (ev : SourceEvent) (line : string) :
  Forall (λ c, chunk_isComplete c.1 = false) chunks →
  failure ev = Some line →
  let st := App.conversationsStore app in
  let h := length (sources st) in
  let app' := App.run app (StartStreaming streamId conversationId
                             :: deliver h chunks ++ [Dispatch h ev]) in
  let st' := App.conversationsStore app' in
  isStreaming st' = false
  ∧ eventSource st' = None
  ∧ streamingContent st' = ""
  ∧ streamingMessageId st' = None
  ∧ source_closed h st'
  ∧ messages st' = messages st
  ∧ console st' = console st ++ [line]
  ∧ App.notificationsStore app' = App.notificationsStore app.
Proof.
  intros Hnt Hfail st h app' st'. subst app' st'.
  rewrite app_run. cbn [App.conversationsStore App.notificationsStore].
  fold st. rewrite run_cons, run_app. cbn [step].
  pose proof (startStreaming_source streamId conversationId st) as Hsrc.
  fold h in Hsrc.
  rewrite deliver_buffers; [| eexists; split; [exact Hsrc | done] | done].
  cbn [run foldl step]. unfold dispatch.
  cbn [sources set_streamingContent]. rewrite Hsrc.
  cbn [es_closed es_conversationId].
  assert (eventSource (startStreaming streamId conversationId st) = Some h) as Hh.
  { subst h. cbn [startStreaming eventSource].
    destruct (eventSource st); unfold close_source; by rewrite ?length_alter. }
  destruct ev as [[c|] now|]; simpl in Hfail; simplify_eq;
    (split_and!; try done);
    unfold onmessage, onerror;
    (eapply stopStreaming_closes; [exact Hh | exact Hsrc]).
Qed.

Lemma C5_failed_session_commits_nothing_witness :
  Forall (λ c : StreamChunk * Z, chunk_isComplete c.1 = false) [(Samples.hello, 1)]
  ∧ failure ErrorEvent = Some "Streaming error:"
  ∧ messages (App.conversationsStore
                (App.run Samples.app0
                   [StartStreaming "s1" "c1";
                    Dispatch 0 (MessageEvent (Some Samples.hello) 1);
                    Dispatch 0 ErrorEvent]))
    = messages (App.conversationsStore Samples.app0).
Proof.
  split; [by repeat constructor |]. split; [reflexivity |].
  apply (C5_failed_session_commits_nothing Samples.app0 "s1" "c1"
           [(Samples.hello, 1)] ErrorEvent "Streaming error:");
    [by repeat constructor | reflexivity].
Defined.

(** C5 (as stated) fails: after a fragment that does not parse, and after
    an error event of the transport, the coordinator is idle but no error
    notification has been added to the notifications store. *)
Lemma C5_counterexample :
  let unparsable := App.run Samples.app0
                      [StartStreaming "s1" "c1"; Dispatch 0 (MessageEvent None 1)] in
  let broken := App.run Samples.app0
                  [StartStreaming "s1" "c1"; Dispatch 0 ErrorEvent] in
  isStreaming (App.conversationsStore unparsable) = false
  ∧ ¬ App.surfaced Samples.app0 unparsable
  ∧ isStreaming (App.conversationsStore broken) = false
  ∧ ¬ App.surfaced Samples.app0 broken.
Proof.
  split_and!; try reflexivity;
    intros (n & Hin & _); cbn in Hin; by apply elem_of_nil in Hin.
Qed.

(** *** One live session *)

(** With respect to sources, the ref [eventSource] and the id of the
    streaming message, every step is the identity, a [startStreaming] or
    a [stopStreaming]. *)
Lemma step_view (st : Store) (a : action) :
  view (step st a) = view st
  ∨ (∃ s c, view (step st a) = view (startStreaming s c st))
  ∨ view (step st a) = view (stopStreaming st).
Proof.
  destruct a as [cs|c|id|id|c ms|c m|c i u|c i|c m now|c i|s c| | |h ev];
    cbn [step]; try by left.
  - left. unfold removeConversation. by case_decide.
  - left. unfold updateMessage. by destruct (list_find _ _) as [[??]|].
  - right; left. by exists s, c.
  - by right; right.
  - by right; right.
  - unfold dispatch. destruct (sources st !! h) as [src|]; [| by left].
    destruct (es_closed src); [by left |].
    destruct ev as [[chunk|] now|]; cbn [onmessage onerror];
      [destruct (chunk_isComplete chunk); [right; right | left] | right; right ..];
      reflexivity.
Qed.

Lemma coherent_view (st st' : Store) :
  view st = view st' → coherent st → coherent st'.
Proof.
  unfold view, coherent, source_open. intros [= Hs He _] H h. rewrite <- Hs, <- He.
  apply H.
Qed.

Lemma connected_view (st st' : Store) :
  view st = view st' → connected st → connected st'.
Proof.
  unfold view, connected, source_open. intros [= Hs He Hm] H h.
  rewrite <- Hs, <- He, <- Hm. apply H.
Qed.

Lemma closed_view (h : nat) (st st' : Store) :
  view st = view st' → source_closed h st → source_closed h st'.
Proof. unfold view, source_closed. intros [= Hs _ _]. by rewrite <- Hs. Qed.

(** The sources left behind by [close()] on the current one: none is
    open. *)
Lemma closing_leaves_none_open (st : Store) (h : nat) (src : EventSource) :
  coherent st →
  match eventSource st with
  | Some cur => close_source cur (sources st)
  | None => sources st
  end !! h = Some src →
  es_closed src = true.
Proof.
  intros Hco Hl. destruct (eventSource st) as [cur|] eqn:Hcur.
  - unfold close_source in Hl. destruct (decide (cur = h)) as [->|Hne].
    + rewrite list_lookup_alter_eq in Hl.
      destruct (sources st !! h); simplify_eq/=. done.
    + rewrite list_lookup_alter_ne in Hl by done.
      destruct (es_closed src) eqn:Hc; [done |].
      assert (eventSource st = Some h) as Hh by (apply Hco; by exists src).
      congruence.
  - destruct (es_closed src) eqn:Hc; [done |].
    assert (eventSource st = Some h) as Hh by (apply Hco; by exists src).
    congruence.
Qed.

Lemma coherent_startStreaming (s c : string) (st : Store) :
  coherent st → coherent (startStreaming s c st).
Proof.
  intros Hco h (src & Hl & Hopen).
  unfold startStreaming in *; cbn [sources eventSource] in *.
  apply lookup_app_Some in Hl as [Hl | [Hge Hl]].
  - apply (closing_leaves_none_open st h src Hco) in Hl. congruence.
  - destruct (h - _)%nat as [|k] eqn:Hk; [| done]. f_equal. lia.
Qed.

Lemma coherent_stopStreaming (st : Store) : coherent st → coherent (stopStreaming st).
Proof.
  intros Hco h (src & Hl & Hopen).
  unfold stopStreaming in *; cbn [sources eventSource] in *.
  apply (closing_leaves_none_open st h src Hco) in Hl. congruence.
Qed.

Lemma coherent_step (st : Store) (a : action) : coherent st → coherent (step st a).
Proof.
  intros Hco. destruct (step_view st a) as [H | [(s & c & H) | H]].
  - by apply (coherent_view st).
  - apply (coherent_view (startStreaming s c st)); [done |].
    by apply coherent_startStreaming.
  - apply (coherent_view (stopStreaming st)); [done |].
    by apply coherent_stopStreaming.
Qed.

Lemma coherent_run (st : Store) (tr : list action) : coherent st → coherent (run st tr).
Proof.
  revert st. induction tr as [|a tr IH]; intros st H; [done |].
  rewrite run_cons. by apply IH, coherent_step.
Qed.

Lemma coherent_init (tok : string) : coherent (init tok).
Proof. intros h (src & Hl & _). cbn in Hl. by rewrite lookup_nil in Hl. Qed.

Lemma connected_step (st : Store) (a : action) : connected st → connected (step st a).
Proof.
  intros Hco. destruct (step_view st a) as [H | [(s & c & H) | H]].
  - by apply (connected_view st).
  - apply (connected_view (startStreaming s c st)); [done |].
    intros h Hh. split; [| by eexists].
    pose proof (startStreaming_source s c st) as Hsrc.
    assert (h = length (sources st)) as ->;
      [| eexists; split; [exact Hsrc | reflexivity]].
    cbn [startStreaming eventSource] in Hh.
    destruct (eventSource st); unfold close_source in Hh;
      rewrite ?length_alter in Hh; congruence.
  - apply (connected_view (stopStreaming st)); [done |]. by intros h Hh.
Qed.

Lemma connected_run (st : Store) (tr : list action) : connected st → connected (run st tr).
Proof.
  revert st. induction tr as [|a tr IH]; intros st H; [done |].
  rewrite run_cons. by apply IH, connected_step.
Qed.

Lemma connected_init (tok : string) : connected (init tok).
Proof. by intros h Hh. Qed.

(** [close()] is final: a closed source stays closed. *)
Lemma closed_alter (h cur : nat) (srcs : list EventSource) :
  (∃ src, srcs !! h = Some src ∧ es_closed src = true) →
  ∃ src, close_source cur srcs !! h = Some src ∧ es_closed src = true.
Proof.
  intros (src & Hl & Hc). unfold close_source.
  destruct (decide (cur = h)) as [->|Hne].
  - exists (es_close src). by rewrite list_lookup_alter_eq, Hl.
  - exists src. by rewrite list_lookup_alter_ne.
Qed.

Lemma closed_step (h : nat) (st : Store) (a : action) :
  source_closed h st → source_closed h (step st a).
Proof.
  intros Hcl. destruct (step_view st a) as [H | [(s & c & H) | H]].
  - by apply (closed_view h st).
  - apply (closed_view h (startStreaming s c st)); [done |].
    unfold source_closed, startStreaming; cbn [sources].
    assert (∃ src, match eventSource st with
                   | Some cur => close_source cur (sources st)
                   | None => sources st
                   end !! h = Some src ∧ es_closed src = true)
      as (src & Hl & Hc).
    { destruct (eventSource st); [by apply closed_alter | done]. }
    exists src. split; [| done]. by apply lookup_app_l_Some.
  - apply (closed_view h (stopStreaming st)); [done |].
    unfold source_closed, stopStreaming; cbn [sources].
    destruct (eventSource st); [by apply closed_alter | done].
Qed.

Lemma closed_run (h : nat) (st : Store) (tr : list action) :
  source_closed h st → source_closed h (run st tr).
Proof.
  revert st. induction tr as [|a tr IH]; intros st H; [done |].
  rewrite run_cons. by apply IH, closed_step.
Qed.

Lemma filter_none {A} (P : A → Prop) `{∀ x, Decision (P x)} (l : list A) :
  (∀ i x, l !! i = Some x → ¬ P x) → filter P l = [].
Proof.
  induction l as [|a l IH]; intros Hl; [done |].
  rewrite filter_cons_False by (by apply (Hl 0%nat)).
  apply IH. intros i x. apply (Hl (S i)).
Qed.

Lemma filter_at_most_one {A} (P : A → Prop) `{∀ x, Decision (P x)}
    (l : list A) (k : nat) :
  (∀ i x, l !! i = Some x → P x → i = k) → (length (filter P l) ≤ 1)%nat.
Proof.
  revert k. induction l as [|a l IH]; intros k Hl; [simpl; lia |].
  destruct (decide (P a)) as [Ha|Ha].
  - rewrite filter_cons_True by done.
    rewrite filter_none; [simpl; lia |].
    intros i x Hx HP. pose proof (Hl 0%nat a eq_refl Ha).
    pose proof (Hl (S i) x Hx HP). lia.
  - rewrite filter_cons_False by done.
    apply (IH (pred k)). intros i x Hx HP.
    pose proof (Hl (S i) x Hx HP). lia.
Qed.

Lemma coherent_at_most_one (st : Store) : coherent st → (live_sessions st ≤ 1)%nat.
Proof.
  intros Hco. unfold live_sessions.
  destruct (eventSource st) as [cur|] eqn:Hcur.
  - apply (filter_at_most_one _ _ cur). intros i x Hx HP.
    assert (eventSource st = Some i) by (apply Hco; by exists x). congruence.
  - rewrite filter_none; [simpl; lia |]. intros i x Hx HP.
    assert (eventSource st = Some i) by (apply Hco; by exists x). congruence.
Qed.

(** C2. When [startStreaming(s2, c)] is called while a session is live on
    source [h1], that source is closed and the buffer emptied, and a
    different, open source becomes the current one. In every state
    reached from there (and in every state reached at all) at most one
    source is live, and an event arriving for [h1] changes nothing. *)
Theorem C2_restart_tears_down_prior_session
    (tok : string) (before after : list action) (s2 c : string) (h1 : nat)
    (ev : SourceEvent) :
  let st := run (init tok) before in
  eventSource st = Some h1 →
  let st2 := startStreaming s2 c st in
  let st3 := run st2 after in
  (live_sessions st ≤ 1)%nat
  ∧ source_open h1 st
  ∧ source_closed h1 st2
  ∧ streamingContent st2 = ""
  ∧ streamingMessageId st2 = Some ("stream-" +:+ s2)
  ∧ (∃ h2, eventSource st2 = Some h2 ∧ h2 ≠ h1 ∧ source_open h2 st2)
  ∧ (live_sessions st2 ≤ 1)%nat
  ∧ (live_sessions st3 ≤ 1)%nat
  ∧ dispatch h1 ev st3 = st3.
Proof.
  intros st Hh1 st2 st3.
  assert (coherent st) as Hco by apply coherent_run, coherent_init.
  assert (connected st) as Hcn by apply connected_run, connected_init.
  destruct (Hcn h1 Hh1) as [Hopen _].
  assert (source_closed h1 st2) as Hcl.
  { destruct Hopen as (src & Hl & _). exists (es_close src). split; [| done].
    subst st2. unfold startStreaming; cbn [sources]. rewrite Hh1.
    apply lookup_app_l_Some. unfold close_source.
    by rewrite list_lookup_alter_eq, Hl. }
  assert (coherent st2) as Hco2 by apply (coherent_step st (StartStreaming s2 c) Hco).
  split_and!; try done.
  - by apply coherent_at_most_one.
  - exists (length (sources st)). split_and!.
    + subst st2. cbn [startStreaming eventSource]. rewrite Hh1.
      unfold close_source. by rewrite length_alter.
    + destruct Hopen as (src & Hl & _). apply lookup_lt_Some in Hl. lia.
    + eexists. split; [apply startStreaming_source | done].
  - by apply coherent_at_most_one.
  - by apply coherent_at_most_one, coherent_run.
  - by apply dispatch_closed, closed_run.
Qed.

Lemma C2_restart_tears_down_prior_session_witness :
  let st := run Samples.store0
              [StartStreaming "s1" "c1";
               Dispatch 0 (MessageEvent (Some Samples.hello) 1)] in
  let st2 := startStreaming "s2" "c1" st in
  eventSource st = Some 0%nat
  ∧ source_closed 0 st2
  ∧ dispatch 0 (MessageEvent (Some Samples.hello) 2) st2 = st2.
Proof.
  split; [reflexivity |].
  pose proof (C2_restart_tears_down_prior_session "token"
                [StartStreaming "s1" "c1";
                 Dispatch 0 (MessageEvent (Some Samples.hello) 1)]
                [] "s2" "c1" 0%nat
                (MessageEvent (Some Samples.hello) 2) eq_refl) as H.
  split; apply H.
Defined.

(** The staleness of a superseded session rests on the transport alone:
    the [onmessage] closure carries no check of its own, and run directly
    on the state of the new session it would write into the new buffer. *)
Remark superseded_handler_is_unguarded :
  let st2 := run Samples.store0 [StartStreaming "s1" "c1"; StartStreaming "s2" "c1"] in
  streamingContent st2 = ""
  ∧ streamingContent (onmessage "c1" (Some Samples.hello) 1 st2) = "Hello ".
Proof. split; reflexivity. Qed.

(** ** Optimistic messages *)

Lemma currentMessages_addMessage (c : string) (m : Message) (st : Store) :
  currentMessages c (addMessage c m st) = currentMessages c st ++ [m].
Proof.
  unfold currentMessages at 1, addMessage; cbn [messages set_messages].
  by rewrite lookup_insert_eq.
Qed.

Lemma currentMessages_addMessages (c : string) (ms : list Message) (st : Store) :
  currentMessages c (run st (map (AddMessage c) ms)) = currentMessages c st ++ ms.
Proof.
  revert st. induction ms as [|m ms IH]; intros st; [by rewrite app_nil_r |].
  cbn [map]. rewrite run_cons, IH. cbn [step].
  by rewrite currentMessages_addMessage, <- app_assoc.
Qed.

Lemma spread_as_updates (old m : Message) :
  let entry := spread old (as_updates m) in
  msg_id entry = msg_id m
  ∧ msg_role entry = msg_role m
  ∧ msg_content entry = msg_content m
  ∧ msg_timestamp entry = msg_timestamp m
  ∧ (is_Some (msg_citations m) ∨ msg_citations old = None → entry = m).
Proof.
  split_and!; try done. intros H. destruct old, m; unfold spread; simpl in *.
  f_equal. destruct msg_citations1; [done |]. by destruct H as [[? ?] | ->].
Qed.

(** [updateMessage] overwrites the first entry that carries the id. *)
Lemma updateMessage_first (c t : string) (u : PartialMessage)
    (before after : list Message) (old : Message) (st : Store) :
  currentMessages c st = before ++ old :: after →
  t ∉ msg_id <$> before →
  msg_id old = t →
  currentMessages c (updateMessage c t u st) = before ++ spread old u :: after.
Proof.
  intros Hcur Hfresh Hid. unfold updateMessage. rewrite Hcur.
  assert (list_find (λ msg, msg_id msg = t) (before ++ old :: after)
          = Some (length before, old)) as ->.
  { apply list_find_Some. split_and!.
    - by apply list_lookup_middle.
    - done.
    - intros j y Hy Hj Hyt. apply Hfresh.
      rewrite lookup_app_l in Hy by done.
      apply list_elem_of_fmap. exists y. split; [done |].
      by apply list_elem_of_lookup_2 in Hy. }
  unfold currentMessages; cbn [messages set_messages].
  rewrite lookup_insert_eq. cbn [default].
  rewrite insert_app_r_alt by done. by rewrite Nat.sub_diag.
Qed.

(** C3 (as amended). Let a message be appended optimistically, under the
    temporary identity [t1] that [addOptimisticMessage] returns, to a
    conversation none of whose messages carries [t1] already; let any
    messages be appended after it; then let [updateMessage] reconcile
    [t1] with the final message [m1]. The conversation holds one entry
    for the message: the optimistic entry is overwritten at its position
    and carries the identity, role, content and timestamp of [m1]; no
    entry is added. *)
Theorem C3_optimistic_then_reconciled_in_place
    (st : Store) (c : string) (partial : PartialMessage) (now : Z)
    (m1 : Message) (later : list Message) :
  let r := addOptimisticMessage c partial now st in
  let t1 := r.1 in
  t1 ∉ msg_id <$> currentMessages c st →
  let st1 := run r.2 (map (AddMessage c) later) in
  let st2 := updateMessage c t1 (as_updates m1) st1 in
  let entry := spread (optimisticMessage partial now) (as_updates m1) in
  currentMessages c st1
  = currentMessages c st ++ optimisticMessage partial now :: later
  ∧ currentMessages c st2 = currentMessages c st ++ entry :: later
  ∧ length (currentMessages c st2) = length (currentMessages c st1)
  ∧ msg_id entry = msg_id m1
  ∧ msg_role entry = msg_role m1
  ∧ msg_content entry = msg_content m1
  ∧ msg_timestamp entry = msg_timestamp m1
  ∧ (is_Some (msg_citations m1) ∨ p_citations partial = None → entry = m1).
Proof.
  intros r t1 Hfresh st1 st2 entry.
  assert (currentMessages c st1
          = currentMessages c st ++ optimisticMessage partial now :: later) as H1.
  { subst st1 r. rewrite currentMessages_addMessages.
    cbn [addOptimisticMessage snd]. rewrite currentMessages_addMessage.
    by rewrite <- app_assoc. }
  assert (currentMessages c st2 = currentMessages c st ++ entry :: later) as H2.
  { subst st2 entry. by apply updateMessage_first. }
  split_and!; try done.
  - rewrite H1, H2. by rewrite !length_app.
  - intros H. apply spread_as_updates.
    destruct H as [H | H]; [by left | right].
    unfold optimisticMessage, spread; cbn [msg_citations]. by rewrite H.
Qed.

Lemma C3_optimistic_then_reconciled_in_place_witness :
  let r := addOptimisticMessage "c1" (Samples.draft "hi") 5 Samples.store0 in
  (r.1 ∉ msg_id <$> currentMessages "c1" Samples.store0)
  ∧ currentMessages "c1" (updateMessage "c1" r.1 (as_updates (Samples.final "m1" "hi")) r.2)
    = [Samples.final "m1" "hi"].
Proof.
  split; [by intros ?%elem_of_nil |].
  apply (C3_optimistic_then_reconciled_in_place Samples.store0 "c1"
           (Samples.draft "hi") 5 (Samples.final "m1" "hi") []).
  by intros ?%elem_of_nil.
Defined.

(** The other path the store offers, [removeOptimisticMessage] followed
    by [addMessage], leaves one entry as well when it runs right after
    the optimistic append. *)
Lemma remove_then_add (st : Store) (c : string) (partial : PartialMessage)
    (now : Z) (m1 : Message) :
  let r := addOptimisticMessage c partial now st in
  r.1 ∉ msg_id <$> currentMessages c st →
  currentMessages c (addMessage c m1 (removeOptimisticMessage c r.1 r.2))
  = currentMessages c st ++ [m1].
Proof.
  intros r Hfresh. rewrite currentMessages_addMessage. f_equal.
  unfold removeOptimisticMessage, removeMessage, currentMessages at 1.
  cbn [messages set_messages]. rewrite lookup_insert_eq. cbn [default].
  subst r. cbn [addOptimisticMessage fst snd] in *.
  rewrite currentMessages_addMessage, filter_app.
  rewrite filter_cons_False, filter_nil, app_nil_r by (by intros H; apply H).
  clear -Hfresh. induction (currentMessages c st) as [|m l IH]; [done |].
  rewrite fmap_cons, not_elem_of_cons in Hfresh. destruct Hfresh as [Hm Hl].
  rewrite filter_cons_True by done. unfold id in *. by rewrite IH.
Qed.

(** C3 (as stated) fails when the temporary identity is not new to the
    conversation. Two optimistic appends within the same millisecond
    receive the same identity [optimistic-5]; reconciling the second one
    overwrites the first entry, and the second optimistic entry stays in
    the list under its temporary identity. *)
Lemma C3_counterexample :
  let a := addOptimisticMessage "c1" (Samples.draft "first") 5 Samples.store0 in
  let b := addOptimisticMessage "c1" (Samples.draft "second") 5 a.2 in
  let st2 := updateMessage "c1" b.1 (as_updates (Samples.final "m1" "second")) b.2 in
  b.1 = "optimistic-5"
  ∧ currentMessages "c1" st2
    = [Samples.final "m1" "second";
       optimisticMessage (Samples.draft "second") 5]
  ∧ msg_id (optimisticMessage (Samples.draft "second") 5) = b.1.
Proof. by vm_compute. Qed.

End Streaming.

(** ** The files store *)

Section Files.

Import FilesStore.

(** C10. [updateFileProgress(id, p)] on an entry of the queue sets its
    status to [completed] exactly when [p = 100] and to [uploading]
    otherwise, whatever the status was, and records [p]; every other
    field and every other entry is kept. When the queue has no entry
    under [id] the store is unchanged. *)
Theorem C10_updateFileProgress_sets_status
    (st : Store) (fileId : string) (progress : Z) :
  let st' := updateFileProgress fileId progress st in
  (∀ file, uploadQueue st !! fileId = Some file →
     ∃ file', uploadQueue st' !! fileId = Some file'
       ∧ (uf_status file' = completed ↔ progress = 100)
       ∧ (uf_status file' = uploading ↔ progress ≠ 100)
       ∧ uf_uploadProgress file' = Some progress
       ∧ with_status (uf_status file) file'
         = {| uf_id := uf_id file; uf_name := uf_name file; uf_size := uf_size file;
              uf_type := uf_type file; uf_status := uf_status file;
              uf_url := uf_url file; uf_uploadProgress := Some progress;
              uf_progress := uf_progress file; uf_error := uf_error file |}
       ∧ ∀ other, other ≠ fileId → uploadQueue st' !! other = uploadQueue st !! other)
  ∧ (uploadQueue st !! fileId = None → st' = st).
Proof.
  intros st'. subst st'. unfold updateFileProgress. split.
  - intros file ->. eexists. cbn [uploadQueue set_uploadQueue].
    split; [apply lookup_insert_eq |]. cbn [uf_status uf_uploadProgress].
    split_and!; try done.
    + case_decide; split; done.
    + case_decide; split; done.
    + intros other Hne. by rewrite lookup_insert_ne.
  - by intros ->.
Qed.

Lemma C10_updateFileProgress_sets_status_witness :
  uploadQueue Samples.files1 !! "f1" = Some Samples.done_entry
  ∧ uf_status Samples.done_entry = completed
  ∧ ∃ file', uploadQueue (updateFileProgress "f1" 50 Samples.files1) !! "f1"
             = Some file'
             ∧ (uf_status file' = uploading ↔ 50 ≠ 100).
Proof.
  split; [reflexivity |]. split; [reflexivity |].
  destruct (C10_updateFileProgress_sets_status Samples.files1 "f1" 50) as [H _].
  destruct (H Samples.done_entry eq_refl) as (file' & Hl & _ & Hu & _).
  exists file'. by split.
Defined.

(** The type check of the store's own [validateFile] reads the MIME type
    only; the store keeps no list of extensions. *)
Remark validateFile_type_check (st : Store) (file : File) :
  file_size file ≤ maxFileSize st →
  valid (validateFile st file) = true ↔ file_type file ∈ allowedTypes st.
Proof.
  intros Hsize. unfold validateFile.
  rewrite decide_False by lia. case_decide; cbn [valid]; split; done.
Qed.

(** [removeFromQueue] deletes the entry under the id, whatever its
    status. *)
Remark removeFromQueue_unconditional (st : Store) (fileId : string) :
  uploadQueue (removeFromQueue fileId st) !! fileId = None.
Proof. apply lookup_delete_eq. Qed.

End Files.

(** ** The upload area *)

Section UploadArea.

Import FileUploadArea ChatWindow.

Variable formatFileSize : Z → string.

Lemma existsb_elem_of {A} (f : A → bool) (l : list A) :
  existsb f l = true ↔ ∃ x, x ∈ l ∧ f x = true.
Proof.
  rewrite existsb_exists. split; intros (x & Hin & Hf); exists x;
    (split; [by apply list_elem_of_In | done]).
Qed.

(** One turn of the loop of [processFiles]. *)
Lemma check_passes (props : Props) (acc : list File * list string) (file : File) :
  check formatFileSize props acc file
  = if passes props file
    then (acc.1 ++ [file], acc.2)
    else (acc.1, acc.2 ++ [rejection formatFileSize props file]).
Proof.
  unfold check, passes, rejection.
  destruct (decide (file_size file > props_maxFileSize props)) as [Hgt|Hle].
  - by rewrite bool_decide_eq_false_2 by lia.
  - rewrite bool_decide_eq_true_2 by lia. by destruct (isValidFileType file).
Qed.

(** The loop splits the batch, in order, into the files that pass and the
    lines for the files that do not. *)
Lemma check_fold (props : Props) (files : list File) (acc : list File * list string) :
  foldl (check formatFileSize props) acc files
  = (acc.1 ++ filter (λ f, passes props f = true) files,
     acc.2 ++ (rejection formatFileSize props
                 <$> filter (λ f, passes props f = false) files)).
Proof.
  revert acc. induction files as [|f files IH]; intros [ok bad].
  - cbn [foldl fst snd fmap list_fmap]. by rewrite !filter_nil, !app_nil_r.
  - cbn [foldl]. rewrite IH, check_passes, !filter_cons.
    destruct (passes props f) eqn:Hf; cbn [fst snd].
    + rewrite decide_True, decide_False by done. by rewrite <- app_assoc.
    + rewrite decide_False, decide_True by done.
      by rewrite fmap_cons, <- app_assoc.
Qed.

(** What the upload area emits for a batch within the count limit. *)
Lemma processFiles_admitted (props : Props) (batch : list File) :
  (length (props_files props) + length batch ≤ props_maxFiles props)%nat →
  let ok := filter (λ f, passes props f = true) batch in
  let bad := filter (λ f, passes props f = false) batch in
  processFiles formatFileSize props batch
  = (if decide (bad = []) then []
     else [upload_error (JS.join ", " (rejection formatFileSize props <$> bad))])
    ++ (if decide (ok = []) then [] else [files_selected ok]).
Proof.
  intros Hcount ok bad. unfold processFiles.
  rewrite decide_False by lia. rewrite check_fold. cbn [fst snd app].
  fold ok bad. f_equal.
  - destruct bad; cbn [fmap list_fmap length].
    + rewrite decide_False by lia. by rewrite decide_True.
    + rewrite decide_True by lia. by rewrite decide_False.
  - destruct ok; cbn [length].
    + rewrite decide_False by lia. by rewrite decide_True.
    + rewrite decide_True by lia. by rewrite decide_False.
Qed.

(** C8. A file passes the type check exactly when its MIME type is in
    [allowedTypes] or its lower-cased name is some text followed by one of
    [allowedExtensions]; either match suffices. The check decides what
    the upload area does with the file: within the size and count limits,
    a file that matches either way is emitted for the queue, one with an
    unlisted MIME type and a listed extension included, and a file that
    matches neither way is refused with an error that names it, and is
    not emitted. *)
Theorem C8_type_check_mime_or_extension (file : File) :
  let by_type := file_type file ∈ allowedTypes in
  let by_name :=
    ∃ ext base, ext ∈ allowedExtensions
                ∧ JS.toLowerCase (file_name file) = base +:+ ext in
  (isValidFileType file = true ↔ by_type ∨ by_name)
  ∧ ∀ props : Props,
      (length (props_files props) + 1 ≤ props_maxFiles props)%nat →
      file_size file ≤ props_maxFileSize props →
      (by_type ∨ by_name →
       processFiles formatFileSize props [file] = [files_selected [file]])
      ∧ (¬ (by_type ∨ by_name) →
         processFiles formatFileSize props [file]
         = [upload_error (file_name file +:+ " is not a supported file type")]).
Proof.
  intros by_type by_name.
  assert (isValidFileType file = true ↔ by_type ∨ by_name) as Hiff.
  { unfold isValidFileType, by_type, by_name.
    rewrite orb_true_iff, bool_decide_eq_true, existsb_elem_of.
    split.
    - intros [Ht|(ext & Hext & Hend)]; [by left | right].
      apply endsWith_inv in Hend as [base Hbase]. by exists ext, base.
    - intros [Ht|(ext & base & Hext & Hname)]; [by left | right].
      exists ext. split; [done |]. rewrite Hname. apply endsWith_append. }
  split; [exact Hiff |].
  intros props Hcount Hsize.
  rewrite processFiles_admitted by (cbn [length]; lia).
  rewrite !filter_cons, !filter_nil. split.
  - intros Htype. apply Hiff in Htype.
    assert (passes props file = true) as Hp.
    { unfold passes. rewrite Htype, andb_true_r. apply bool_decide_eq_true. lia. }
    rewrite Hp. rewrite decide_True, decide_False by done. done.
  - intros Htype.
    assert (isValidFileType file = false) as Hv.
    { destruct (isValidFileType file) eqn:Hv; [| done].
      exfalso. apply Htype. by apply Hiff. }
    assert (passes props file = false) as Hp.
    { unfold passes. by rewrite Hv, andb_false_r. }
    rewrite Hp. rewrite decide_False, decide_True by done.
    rewrite (decide_False (P := false = true)) by done.
    rewrite decide_True by done.
    cbn [fmap list_fmap JS.join app]. unfold rejection.
    rewrite decide_False by lia. done.
Qed.

(** An overflowing batch, on the upload area alone. *)
Lemma processFiles_overflow (props : Props) (batch : list File) :
  (props_maxFiles props < length (props_files props) + length batch)%nat →
  processFiles formatFileSize props batch = [upload_error (count_limit props)].
Proof. intros H. unfold processFiles. by rewrite decide_True. Qed.

Lemma count_limit_includes (props : Props) :
  JS.includes (count_limit props)
    ("Maximum " +:+ JS.show_nat (props_maxFiles props) +:+ " files") = true.
Proof.
  apply includes_startsWith. unfold count_limit.
  change " files allowed" with (" files" +:+ " allowed").
  rewrite <- !append_assoc. apply startsWith_append.
Qed.

(** C4. A batch whose admission would take the queue past [maxFiles] is
    rejected as a whole: the upload area emits one [upload-error] whose
    message contains [Maximum <maxFiles> files] and no [files-selected];
    the chat window records the message and its queue is unchanged. *)
Theorem C4_overflowing_batch_rejected
    (maxFileSize : Z) (maxFiles : nat) (st : State) (batch : list File)
    (ids : nat → string) :
  (maxFiles < length (queue st) + length batch)%nat →
  let p := props maxFileSize maxFiles st in
  let st' := userSelects formatFileSize maxFileSize maxFiles batch ids st in
  processFiles formatFileSize p batch = [upload_error (count_limit p)]
  ∧ JS.includes (count_limit p) ("Maximum " +:+ JS.show_nat maxFiles +:+ " files")
    = true
  ∧ st' = handleUploadError (count_limit p) st
  ∧ errorRef st' = Some (count_limit p)
  ∧ uploadedFiles st' = uploadedFiles st
  ∧ heap st' = heap st
  ∧ queue st' = queue st
  ∧ length (queue st') = length (queue st).
Proof.
  intros Hover p st'.
  assert (processFiles formatFileSize p batch = [upload_error (count_limit p)]) as Hp
    by (by apply processFiles_overflow).
  assert (st' = handleUploadError (count_limit p) st) as ->.
  { subst st'. unfold userSelects. fold p. by rewrite Hp. }
  split_and!; try done. apply (count_limit_includes p).
Qed.

End UploadArea.

Lemma C4_overflowing_batch_rejected_witness :
  (2 < length (ChatWindow.queue Samples.window2) + length [Samples.notes])%nat
  ∧ ChatWindow.errorRef
      (ChatWindow.userSelects Samples.render 1024 2 [Samples.notes] Samples.ids_b
         Samples.window2)
    = Some "Maximum 2 files allowed"
  ∧ JS.includes "Maximum 2 files allowed" "Maximum 2 files" = true
  ∧ length (ChatWindow.queue
              (ChatWindow.userSelects Samples.render 1024 2 [Samples.notes]
                 Samples.ids_b Samples.window2))
    = 2%nat.
Proof.
  assert (2 < length (ChatWindow.queue Samples.window2) + length [Samples.notes])%nat
    as H by (vm_compute; lia).
  split; [exact H |].
  pose proof (C4_overflowing_batch_rejected Samples.render 1024 2 Samples.window2
                [Samples.notes] Samples.ids_b H) as (_ & Hinc & _ & Herr & _ & _ & _ & Hlen).
  split; [exact Herr |]. split; [exact Hinc |]. exact Hlen.
Defined.

Lemma C8_type_check_mime_or_extension_witness :
  let props := ChatWindow.props 1024 5 ChatWindow.init in
  (length (FileUploadArea.props_files props) + 1 ≤ 5)%nat
  ∧ file_size Samples.notes ≤ 1024
  ∧ (file_type Samples.notes ∉ FileUploadArea.allowedTypes)
  ∧ JS.toLowerCase (file_name Samples.notes) = "notes" +:+ ".txt"
  ∧ FileUploadArea.processFiles Samples.render props [Samples.notes]
    = [FileUploadArea.files_selected [Samples.notes]]
  ∧ file_size Samples.binary ≤ 1024
  ∧ FileUploadArea.isValidFileType Samples.binary = false
  ∧ FileUploadArea.processFiles Samples.render props [Samples.binary]
    = [FileUploadArea.upload_error "tool.exe is not a supported file type"].
Proof.
  intros props.
  assert (length (FileUploadArea.props_files props) + 1 ≤ 5)%nat as Hcount
    by (vm_compute; lia).
  assert (file_size Samples.notes ≤ 1024) as Hnotes by (vm_compute; discriminate).
  assert (file_size Samples.binary ≤ 1024) as Hbinary by (vm_compute; discriminate).
  assert (FileUploadArea.isValidFileType Samples.binary = false) as Hno
    by reflexivity.
  split; [exact Hcount |]. split; [exact Hnotes |].
  split; [apply (proj1 (bool_decide_eq_false _)); by vm_compute |].
  split; [reflexivity |]. split.
  - apply (proj2 (C8_type_check_mime_or_extension Samples.render Samples.notes)
             props Hcount Hnotes).
    right. exists ".txt", "notes". split; [| reflexivity].
    apply (proj1 (bool_decide_eq_true _)). by vm_compute.
  - split; [exact Hbinary |]. split; [exact Hno |].
    apply (proj2 (C8_type_check_mime_or_extension Samples.render Samples.binary)
             props Hcount Hbinary).
    intros Hyes.
    apply (proj1 (C8_type_check_mime_or_extension Samples.render Samples.binary))
      in Hyes.
    rewrite Hno in Hyes. discriminate.
Defined.

(** ** The chat window *)

Section Window.

Import FileUploadArea ChatWindow.

Variable formatFileSize : Z → string.

Lemma window_run_cons (st : State) (a : action) (tr : list action) :
  run st (a :: tr) = run (step st a) tr.
Proof. reflexivity. Qed.

(** *** Heap and queue *)

Lemma alter_lookup_cases {A} (f : A → A) (r r' : nat) (h : list A) (x : A) :
  alter f r h !! r' = Some x →
  (r' = r ∧ ∃ y, h !! r = Some y ∧ x = f y) ∨ (r' ≠ r ∧ h !! r' = Some x).
Proof.
  destruct (decide (r = r')) as [->|Hne].
  - rewrite list_lookup_alter_eq. destruct (h !! r') as [y|]; [| done].
    intros [= <-]. left. eauto.
  - rewrite list_lookup_alter_ne by done. intros H. right. eauto.
Qed.

Lemma shape_alter (f : UploadedFile → UploadedFile) (r : nat) (h : list UploadedFile) :
  (∀ x, entry_file (f x) = entry_file x) →
  entry_file <$> alter f r h = entry_file <$> h.
Proof.
  intros Hf. apply list_eq. intros k. rewrite !list_lookup_fmap.
  destruct (decide (r = k)) as [->|Hne].
  - rewrite list_lookup_alter_eq. destruct (h !! k); [| done].
    cbn. by rewrite Hf.
  - by rewrite list_lookup_alter_ne.
Qed.

Lemma shape_enter_file (r : nat) (rest : list nat) (st : State) :
  entry_file <$> heap (enter_file r rest st).1 = entry_file <$> heap st.
Proof.
  unfold enter_file; cbn [fst heap set_heap set_uploadProgress].
  by rewrite !shape_alter.
Qed.

Lemma shape_next_file (rest : list nat) (st : State) :
  entry_file <$> heap (next_file rest st).1 = entry_file <$> heap st.
Proof. destruct rest; [done | apply shape_enter_file]. Qed.

Lemma shape_resume (t : Task) (st : State) :
  entry_file <$> heap (resume t st).1 = entry_file <$> heap st.
Proof.
  unfold resume. case_decide.
  - cbn [fst heap set_heap set_uploadProgress]. by rewrite shape_alter.
  - rewrite shape_next_file. cbn [heap set_heap]. by rewrite shape_alter.
Qed.

Lemma uploadedFiles_next_file (rest : list nat) (st : State) :
  uploadedFiles (next_file rest st).1 = uploadedFiles st.
Proof. by destruct rest. Qed.

Lemma uploadedFiles_resume (t : Task) (st : State) :
  uploadedFiles (resume t st).1 = uploadedFiles st.
Proof. unfold resume. case_decide; [done |]. by rewrite uploadedFiles_next_file. Qed.

Lemma shape_tick (i : nat) (st : State) :
  entry_file <$> heap (tick i st) = entry_file <$> heap st.
Proof.
  unfold tick. destruct (tasks st !! i) as [[t|]|]; try done.
  cbn [heap set_tasks]. apply shape_resume.
Qed.

Lemma uploadedFiles_tick (i : nat) (st : State) :
  uploadedFiles (tick i st) = uploadedFiles st.
Proof.
  unfold tick. destruct (tasks st !! i) as [[t|]|]; try done.
  cbn [uploadedFiles set_tasks]. apply uploadedFiles_resume.
Qed.

Lemma shape_handleFilesSelected (files : list File) (ids : nat → string) (st : State) :
  entry_file <$> heap (handleFilesSelected files ids st)
  = (entry_file <$> heap st) ++ files.
Proof.
  unfold handleFilesSelected, startFileUpload. cbn [heap set_tasks].
  rewrite shape_next_file.
  cbn [heap set_heap set_uploadedFiles set_isUploading].
  rewrite fmap_app. f_equal. apply list_eq. intros k.
  rewrite list_lookup_fmap, list_lookup_imap.
  destruct (files !! k) as [[n sz ty]|]; done.
Qed.

Lemma uploadedFiles_handleFilesSelected (files : list File) (ids : nat → string)
    (st : State) :
  uploadedFiles (handleFilesSelected files ids st)
  = uploadedFiles st ++ seq (length (heap st)) (length files).
Proof.
  unfold handleFilesSelected, startFileUpload. cbn [uploadedFiles set_tasks].
  rewrite uploadedFiles_next_file.
  cbn [uploadedFiles set_heap set_uploadedFiles set_isUploading heap].
  by rewrite length_imap.
Qed.

Lemma heap_length (st : State) : length (heap st) = length (entry_file <$> heap st).
Proof. by rewrite length_fmap. Qed.

Lemma queue_shape (st : State) :
  entry_file <$> queue st
  = omap (λ r, (entry_file <$> heap st) !! r) (uploadedFiles st).
Proof.
  unfold queue. induction (uploadedFiles st) as [|r refs IH]; [done |].
  cbn [omap list_omap]. rewrite list_lookup_fmap.
  destruct (heap st !! r); cbn; by rewrite IH.
Qed.

Lemma omap_lookup_app_l {A} (l1 l2 : list A) (refs : list nat) :
  Forall (λ r, (r < length l1)%nat) refs →
  omap (λ r, (l1 ++ l2) !! r) refs = omap (λ r, l1 !! r) refs.
Proof.
  induction 1 as [|r refs Hr _ IH]; [done |].
  cbn [omap list_omap]. by rewrite lookup_app_l, IH.
Qed.

Lemma omap_lookup_app_r {A} (l1 l2 : list A) :
  omap (λ r, (l1 ++ l2) !! r) (seq (length l1) (length l2)) = l2.
Proof.
  revert l1. induction l2 as [|x l2 IH]; intros l1; [done |].
  cbn [length seq omap list_omap].
  rewrite list_lookup_middle by done.
  f_equal. specialize (IH (l1 ++ [x])).
  rewrite <- app_assoc, length_app in IH. cbn [length app] in IH.
  by rewrite Nat.add_1_r in IH.
Qed.

(** The files handed to [handleFilesSelected] are appended to the queue;
    the entries already there keep their place. *)
Lemma queue_handleFilesSelected (files : list File) (ids : nat → string) (st : State) :
  valid_refs st →
  entry_file <$> queue (handleFilesSelected files ids st)
  = (entry_file <$> queue st) ++ files.
Proof.
  intros Hv. rewrite !queue_shape, shape_handleFilesSelected,
    uploadedFiles_handleFilesSelected, omap_app.
  f_equal.
  - apply omap_lookup_app_l. by rewrite <- heap_length.
  - rewrite heap_length. apply omap_lookup_app_r.
Qed.


(** *** Allocated addresses *)

Lemma refs_handleFilesSelected (files : list File) (ids : nat → string) (st : State) :
  NoDup (uploadedFiles st) ∧ valid_refs st →
  NoDup (uploadedFiles (handleFilesSelected files ids st))
  ∧ valid_refs (handleFilesSelected files ids st).
Proof.
  intros [Hnd Hv]. unfold valid_refs in *.
  rewrite uploadedFiles_handleFilesSelected.
  assert (length (heap (handleFilesSelected files ids st))
          = (length (heap st) + length files)%nat) as ->.
  { by rewrite heap_length, shape_handleFilesSelected, length_app, <- heap_length. }
  rewrite Forall_forall in Hv. split.
  - apply NoDup_app. split_and!; [done | | apply NoDup_seq].
    intros r Hr. rewrite elem_of_seq. specialize (Hv r Hr). cbn in Hv. lia.
  - apply Forall_forall. intros r [Hr | Hr]%elem_of_app.
    + specialize (Hv r Hr). cbn in Hv. lia.
    + apply elem_of_seq in Hr. lia.
Qed.

Lemma refs_handleFileRemove (fileId : string) (st : State) :
  NoDup (uploadedFiles st) ∧ valid_refs st →
  NoDup (uploadedFiles (handleFileRemove fileId st))
  ∧ valid_refs (handleFileRemove fileId st).
Proof.
  intros [Hnd Hv]. unfold valid_refs, handleFileRemove in *.
  cbn [uploadedFiles heap set_uploadedFiles]. split.
  - by apply NoDup_filter.
  - rewrite Forall_forall in *. intros r [_ Hr]%list_elem_of_filter. by apply Hv.
Qed.

Lemma refs_tick (k : nat) (st : State) :
  NoDup (uploadedFiles st) ∧ valid_refs st →
  NoDup (uploadedFiles (tick k st)) ∧ valid_refs (tick k st).
Proof.
  unfold valid_refs. rewrite uploadedFiles_tick.
  by rewrite (heap_length (tick k st)), shape_tick, <- heap_length.
Qed.

Lemma userRemoves_cases (r : nat) (shown : FileStatus) (st : State) :
  userRemoves r shown st = st
  ∨ ∃ fileId, userRemoves r shown st = handleFileRemove fileId st.
Proof.
  unfold userRemoves, clickRemove. destruct (heap st !! r) as [f|]; [| by left].
  destruct (decide (r ∈ uploadedFiles st)); [| by left].
  destruct (decide (shown = uploading)); [by left | right]. by exists (uf_id f).
Qed.

Lemma valid_refs_step (st : State) (a : action) :
  NoDup (uploadedFiles st) ∧ valid_refs st →
  NoDup (uploadedFiles (step st a)) ∧ valid_refs (step st a).
Proof.
  intros Hrefs. destruct a as [files ids|fileId|message|r shown| | | |k]; cbn [step];
    try done.
  - by apply refs_handleFilesSelected.
  - by apply refs_handleFileRemove.
  - destruct (userRemoves_cases r shown st) as [-> | [fileId ->]]; [done |].
    by apply refs_handleFileRemove.
  - split; [apply NoDup_nil_2 | apply Forall_nil_2].
  - by apply refs_tick.
Qed.

(** In every state the chat window can reach, the addresses held by the
    queue are allocated. *)
Lemma valid_refs_run (tr : list action) : valid_refs (run init tr).
Proof.
  assert (∀ st, NoDup (uploadedFiles st) ∧ valid_refs st →
                NoDup (uploadedFiles (run st tr)) ∧ valid_refs (run st tr)) as H.
  { induction tr as [|a tr IH]; intros st Hst; [done |].
    rewrite window_run_cons. by apply IH, valid_refs_step. }
  apply H. split; [apply NoDup_nil_2 | apply Forall_nil_2].
Qed.

Lemma errorRef_handleFilesSelected (files : list File) (ids : nat → string) (st : State) :
  errorRef (handleFilesSelected files ids st) = errorRef st.
Proof. unfold handleFilesSelected, startFileUpload. by destruct files. Qed.

Lemma rejection_names_file (p : Props) (f : File) :
  JS.startsWith (rejection formatFileSize p f) (file_name f) = true.
Proof.
  unfold rejection, too_large, unsupported. case_decide; apply startsWith_append.
Qed.

(** C7. In a batch within the count limit every file is checked on its
    own: it is accepted exactly when its size is within [maxFileSize] and
    its type is valid. A file over the size limit is reported by a line
    containing [too large] and is not accepted. The lines of all rejected
    files are joined into the message of a single [upload-error], each
    line naming its file, and the accepted files are appended to the
    queue of the chat window all the same. *)
Theorem C7_admitted_batch_checked_per_file
    (maxFileSize : Z) (maxFiles : nat) (tr : list action) (batch : list File)
    (ids : nat → string) :
  let st := run init tr in
  (length (queue st) + length batch ≤ maxFiles)%nat →
  let p := props maxFileSize maxFiles st in
  let ok := filter (λ f, passes p f = true) batch in
  let bad := filter (λ f, passes p f = false) batch in
  let report := JS.join ", " (rejection formatFileSize p <$> bad) in
  let st' := userSelects formatFileSize maxFileSize maxFiles batch ids st in
  (∀ f, f ∈ ok ↔ f ∈ batch ∧ file_size f ≤ maxFileSize ∧ isValidFileType f = true)
  ∧ (∀ f, f ∈ bad ↔ f ∈ batch ∧ ¬ (file_size f ≤ maxFileSize ∧ isValidFileType f = true))
  ∧ processFiles formatFileSize p batch
    = (if decide (bad = []) then [] else [upload_error report])
      ++ (if decide (ok = []) then [] else [files_selected ok])
  ∧ (∀ f, f ∈ batch → file_size f > maxFileSize →
       (f ∉ ok) ∧ (f ∈ bad)
       ∧ JS.includes (rejection formatFileSize p f) "too large" = true
       ∧ JS.includes report "too large" = true)
  ∧ (∀ f, f ∈ bad →
       JS.includes report (rejection formatFileSize p f) = true
       ∧ JS.includes report (file_name f) = true)
  ∧ (bad ≠ [] → errorRef st' = Some report)
  ∧ entry_file <$> queue st' = (entry_file <$> queue st) ++ ok.
Proof.
  intros st Hcount p ok bad report st'.
  assert (valid_refs st) as Hv by apply valid_refs_run.
  assert (∀ f, passes p f = true
               ↔ file_size f ≤ maxFileSize ∧ isValidFileType f = true) as Hpass.
  { intros f. unfold passes. cbn [p props props_maxFileSize].
    by rewrite andb_true_iff, bool_decide_eq_true. }
  assert (∀ f, f ∈ ok ↔ f ∈ batch ∧ file_size f ≤ maxFileSize
                        ∧ isValidFileType f = true) as Hok.
  { intros f. unfold ok. rewrite list_elem_of_filter, Hpass. tauto. }
  assert (∀ f, f ∈ bad ↔ f ∈ batch ∧ ¬ (file_size f ≤ maxFileSize
                                         ∧ isValidFileType f = true)) as Hbad.
  { intros f. unfold bad. rewrite list_elem_of_filter, <- Hpass.
    rewrite not_true_iff_false. tauto. }
  assert (processFiles formatFileSize p batch
          = (if decide (bad = []) then [] else [upload_error report])
            ++ (if decide (ok = []) then [] else [files_selected ok])) as Hemit.
  { by apply processFiles_admitted. }
  assert (∀ f, f ∈ bad → JS.includes report (rejection formatFileSize p f) = true)
    as Hline.
  { intros f Hf. apply includes_join, list_elem_of_fmap. by exists f. }
  split_and!; try done.
  - intros f Hin Hsize.
    assert (f ∈ bad) as Hfbad.
    { rewrite Hbad. split; [done |]. intros [? _]. lia. }
    assert (JS.includes (rejection formatFileSize p f) "too large" = true) as Hlarge.
    { unfold rejection. cbn [p props props_maxFileSize].
      rewrite decide_True by done. unfold too_large.
      change " is too large (max " with (" is " +:+ "too large" +:+ " (max ").
      rewrite !append_assoc, <- append_assoc. apply includes_middle. }
    split_and!; try done.
    + rewrite Hok. intros (_ & ? & _). lia.
    + eapply includes_trans; [by apply Hline | done].
  - intros f Hf. split; [by apply Hline |].
    eapply includes_trans; [by apply Hline |].
    apply includes_startsWith, rejection_names_file.
  - intros Hne. subst st'. unfold userSelects. fold p. rewrite Hemit.
    rewrite decide_False by done.
    destruct (decide (ok = [])); cbn [app on_emits foldl on_emit]; [done |].
    by rewrite errorRef_handleFilesSelected.
  - subst st'. unfold userSelects. fold p. rewrite Hemit.
    destruct (decide (bad = [])), (decide (ok = [])) as [->| ];
      cbn [app on_emits foldl on_emit];
      rewrite ?app_nil_r; try done;
      by rewrite queue_handleFilesSelected.
Qed.

(** *** Removal *)




(** *** One run at a time *)

Lemma phase_frame (st st' : State) :
  heap st' = heap st → isUploading st' = isUploading st →
  uploadProgress st' = uploadProgress st → tasks st' = tasks st →
  phase st → phase st'.
Proof.
  unfold phase, idle, busy. intros -> -> -> ->. done.
Qed.

Lemma enter_file_facts (r : nat) (rest : list nat) (st : State) (x : UploadedFile) :
  heap st !! r = Some x →
  (∀ r' f, heap st !! r' = Some f → uf_status f = uploading → r' = r) →
  let st1 := (enter_file r rest st).1 in
  (enter_file r rest st).2 = Some {| t_file := r; t_progress := 0; t_rest := rest |}
  ∧ (∃ f, heap st1 !! r = Some f ∧ uf_status f = uploading ∧ uf_progress f = Some 0)
  ∧ uploadProgress st1 = 0
  ∧ (∀ r' f, heap st1 !! r' = Some f → uf_status f = uploading → r' = r)
  ∧ length (heap st1) = length (heap st)
  ∧ isUploading st1 = isUploading st
  ∧ tasks st1 = tasks st.
Proof.
  intros Hx Honly st1. subst st1. unfold enter_file.
  cbn [fst snd heap set_heap set_uploadProgress uploadProgress isUploading tasks].
  split_and!; try done.
  - eexists. rewrite !list_lookup_alter_eq, Hx. cbn. done.
  - intros r' f Hf Hs. destruct (decide (r' = r)) as [|Hne]; [done |].
    rewrite !list_lookup_alter_ne in Hf by done. by apply (Honly r' f).
  - by rewrite !length_alter.
Qed.

Lemma phase_tick (k : nat) (st : State) : phase st → phase (tick k st).
Proof.
  intros Hph. unfold tick.
  destruct (tasks st !! k) as [[t|]|] eqn:Hk; try done.
  destruct Hph as [(_ & Hno & _) | (i & t0 & Hup & Hi & Huniq & Hf & Hp & Honly & Hrest)];
    [by destruct (Hno k t) |].
  assert (k = i) as -> by (by apply (Huniq k t)).
  assert (t0 = t) as -> by congruence. clear Hi.
  destruct Hf as (f & Hf & Hfs & Hfp).
  assert (i < length (tasks st))%nat as Hlt by (by apply lookup_lt_Some in Hk).
  unfold resume. case_decide as Hle.
  - (* another turn of the progress loop *)
    right. exists i.
    exists {| t_file := t_file t; t_progress := t_progress t + 10;
              t_rest := t_rest t |}.
    unfold busy.
    cbn [fst snd heap set_heap set_uploadProgress set_tasks uploadProgress
         isUploading tasks t_file t_progress t_rest].
    split_and!; try done.
    + by apply list_lookup_insert_eq.
    + intros j t' Hj. destruct (decide (j = i)) as [|Hne]; [done |].
      rewrite list_lookup_insert_ne in Hj by done. by apply (Huniq j t').
    + eexists. rewrite list_lookup_alter_eq, Hf. cbn. done.
    + intros r f' Hf' Hs'.
      apply alter_lookup_cases in Hf' as [[-> _] | [_ Hold]]; [done |].
      by apply (Honly r f').
    + by rewrite length_alter.
  - (* the entry is complete *)
    set (st1 := set_heap (alter (with_status completed) (t_file t) (heap st)) st).
    assert (∀ r f', heap st1 !! r = Some f' → uf_status f' ≠ uploading) as Hnone.
    { intros r f' Hf' Hs'. subst st1. cbn [heap set_heap] in Hf'.
      apply alter_lookup_cases in Hf' as [[-> (y & _ & ->)] | [Hne Hold]].
      - done.
      - by apply Hne, (Honly r f'). }
    destruct (t_rest t) as [|r2 rest2] eqn:Hr.
    + left. unfold idle.
      cbn [next_file fst snd heap set_heap set_isUploading set_tasks isUploading tasks].
      split_and!; try done.
      intros j t' Hj. destruct (decide (j = i)) as [->|Hne].
      * by rewrite list_lookup_insert_eq in Hj.
      * rewrite list_lookup_insert_ne in Hj by done. by apply Hne, (Huniq j t').
    + cbn [next_file].
      apply Forall_cons in Hrest as [Hr2 Hrest2].
      assert (is_Some (heap st1 !! r2)) as [x Hx].
      { apply lookup_lt_is_Some. subst st1. cbn [heap set_heap].
        by rewrite length_alter. }
      destruct (enter_file_facts r2 rest2 st1 x Hx) as
        (Ht & Hf2 & Hp2 & Honly2 & Hlen2 & Hup2 & Hts2).
      { intros r' f' Hf' Hs'. by destruct (Hnone r' f'). }
      right. exists i.
      exists {| t_file := r2; t_progress := 0; t_rest := rest2 |}.
      unfold busy.
      cbn [set_tasks isUploading tasks heap uploadProgress].
      rewrite Ht, Hts2, Hup2, Hlen2.
      cbn [t_file t_progress t_rest st1 set_heap isUploading tasks heap].
      split_and!; try done.
      * by apply list_lookup_insert_eq.
      * intros j t' Hj. destruct (decide (j = i)) as [|Hne]; [done |].
        rewrite list_lookup_insert_ne in Hj by done. by apply (Huniq j t').
      * by rewrite length_alter.
Qed.

Lemma phase_handleFilesSelected (files : list File) (ids : nat → string) (st : State) :
  isUploading st = false → phase st → phase (handleFilesSelected files ids st).
Proof.
  intros Hoff [(_ & Hno & Hnone) | (i & t & Hup & _)]; [| congruence].
  unfold handleFilesSelected, startFileUpload.
  set (newFiles := imap _ files).
  assert (length newFiles = length files) as Hlen by apply length_imap.
  assert (∀ k f, newFiles !! k = Some f → uf_status f = pending) as Hnew.
  { intros k f. unfold newFiles. rewrite list_lookup_imap.
    destruct (files !! k); [| done]. by intros [= <-]. }
  set (st2 := set_isUploading true _).
  assert (heap st2 = heap st ++ newFiles) as Hheap by done.
  assert (tasks st2 = tasks st) as Htasks by done.
  assert (∀ r f, heap st2 !! r = Some f → uf_status f ≠ uploading) as Hnone2.
  { intros r f. rewrite Hheap. intros [Hf | [_ Hf]]%lookup_app_Some.
    - by apply (Hnone r f).
    - by rewrite (Hnew _ f Hf). }
  assert (∀ (o : option Task) j t',
            (tasks st ++ [o]) !! j = Some (Some t') →
            j = length (tasks st) ∧ o = Some t') as Hlast.
  { intros o j t' [Hj | [Hge Hj]]%lookup_app_Some; [by destruct (Hno j t') |].
    destruct (j - length (tasks st))%nat as [|n] eqn:Hn; [| done].
    cbn in Hj. split; [lia | congruence]. }
  rewrite Hlen. destruct files as [|file files].
  - left. unfold idle. cbn [seq next_file fst snd]. split_and!; try done.
    + intros j t' Hj. cbn [tasks set_tasks set_isUploading] in Hj.
      rewrite ?Htasks in Hj. by destruct (Hlast None j t' Hj).
  - cbn [length seq next_file]. cbn [length] in Hlen.
    set (r := length (heap st)). set (rest := seq (S r) (length files)).
    assert (is_Some (heap st2 !! r)) as [x Hx].
    { apply lookup_lt_is_Some. rewrite Hheap, length_app. lia. }
    destruct (enter_file_facts r rest st2 x Hx) as
      (Ht & Hf2 & Hp2 & Honly2 & Hlen2 & Hup2 & Hts2).
    { intros r' f' Hf' Hs'. by destruct (Hnone2 r' f'). }
    right. exists (length (tasks st)).
    exists {| t_file := r; t_progress := 0; t_rest := rest |}.
    unfold busy. cbn [set_tasks isUploading tasks heap uploadProgress].
    rewrite Ht, Hts2, Hup2, Hlen2, Htasks.
    cbn [t_file t_progress t_rest].
    split_and!; try done.
    + by apply list_lookup_middle.
    + intros j t' Hj. by destruct (Hlast _ j t' Hj).
    + rewrite Hheap, length_app, Hlen. apply Forall_forall. intros r'.
      unfold rest. rewrite elem_of_seq. fold r. lia.
Qed.

(** Along a sequential trace there is at most one run in flight. *)
Lemma single_flight_step (st : State) (a : action) :
  single_flight st →
  match a with FilesSelected _ _ => isUploading st = false | _ => True end →
  single_flight (step st a).
Proof.
  intros (Hph & Hrefs) Hadm.
  destruct a as [files ids|fileId|message|r shown| | | |k]; cbn [step].
  - split; [by apply phase_handleFilesSelected | by apply refs_handleFilesSelected].
  - split; [by apply (phase_frame st) | by apply refs_handleFileRemove].
  - split; [by apply (phase_frame st) | done].
  - destruct (userRemoves_cases r shown st) as [-> | [fileId ->]]; [done |].
    split; [by apply (phase_frame st) | by apply refs_handleFileRemove].
  - split; [by apply (phase_frame st) |]. split; [apply NoDup_nil_2 | apply Forall_nil_2].
  - split; [by apply (phase_frame st) | done].
  - split; [by apply (phase_frame st) | done].
  - split; [by apply phase_tick | by apply refs_tick].
Qed.

Lemma single_flight_init : single_flight init.
Proof.
  split; [left | split; [apply NoDup_nil_2 | apply Forall_nil_2]].
  unfold idle. split_and!; [done | |]; intros ? ?; cbn; by rewrite lookup_nil.
Qed.

Lemma single_flight_run (st : State) (tr : list action) :
  single_flight st → sequential st tr = true → single_flight (run st tr).
Proof.
  revert st. induction tr as [|a tr IH]; intros st Hsf Hseq; [done |].
  cbn [sequential] in Hseq. apply andb_true_iff in Hseq as [Ha Hseq].
  rewrite window_run_cons. apply IH; [| done].
  apply single_flight_step; [done |].
  destruct a; try done. by apply negb_true_iff in Ha.
Qed.

(** *** Aggregate progress *)

Lemma filter_none_elem {A} (P : A → Prop) `{∀ x, Decision (P x)} (l : list A) :
  (∀ x, x ∈ l → ¬ P x) → filter P l = [].
Proof.
  induction l as [|a l IH]; intros Hl; [done |].
  rewrite filter_cons_False by (apply Hl; left).
  apply IH. intros x Hx. apply Hl. by right.
Qed.

Lemma at_most_one_selected {A} (P : A → Prop) `{∀ x, Decision (P x)}
    (h : list A) (refs : list nat) (k : nat) :
  NoDup refs →
  (∀ r x, h !! r = Some x → P x → r = k) →
  (length (filter P (omap (λ r, h !! r) refs)) ≤ 1)%nat.
Proof.
  intros Hnd Honly. induction Hnd as [|r refs Hr Hnd IH]; [cbn; lia |].
  cbn [omap list_omap]. destruct (h !! r) as [x|] eqn:Hx; [| done].
  destruct (decide (P x)) as [HP|HP].
  - rewrite filter_cons_True by done.
    rewrite filter_none_elem; [cbn; lia |].
    intros y (r' & Hr' & Hy)%list_elem_of_omap HPy.
    apply Hr. by rewrite (Honly r x Hx HP), <- (Honly r' y Hy HPy).
  - by rewrite filter_cons_False.
Qed.

Lemma single_flight_progress (st : State) :
  single_flight st →
  (∀ f, f ∈ uploading_entries st → progress_of f = uploadProgress st)
  ∧ (length (uploading_entries st) ≤ 1)%nat.
Proof.
  intros ([(_ & _ & Hnone) | (i & t & _ & _ & _ & Hf & Hp & Honly & _)] & Hnd & _).
  - assert (uploading_entries st = []) as ->;
      [| split; [by intros ? ?%elem_of_nil | cbn; lia]].
    apply filter_none_elem. intros f (r & _ & Hr)%list_elem_of_omap.
    by apply (Hnone r f).
  - split.
    + intros f [Hs (r & _ & Hr)%list_elem_of_omap]%list_elem_of_filter.
      destruct Hf as (f0 & Hf0 & _ & Hp0).
      rewrite (Honly r f Hr Hs) in Hr. simplify_eq.
      unfold progress_of. by rewrite Hp0.
    + by apply (at_most_one_selected _ _ _ (t_file t)).
Qed.

(** C9 (as amended). As long as no batch is selected while the upload of
    an earlier batch is still running, at most one entry of the queue is
    in [uploading] status at any point, and the reported aggregate
    progress is the progress of that entry, which is the arithmetic mean
    over the entries in [uploading] status; entries in [pending],
    [completed] or [error] status do not enter it. *)
Theorem C9_progress_is_mean_for_one_batch_at_a_time (tr : list action) :
  sequential init tr = true →
  let st := run init tr in
  (∀ f, f ∈ uploading_entries st → progress_of f = uploadProgress st)
  ∧ (length (uploading_entries st) ≤ 1)%nat
  ∧ (uploading_entries st ≠ [] →
     is_mean (uploadProgress st) (uploading_entries st)).
Proof.
  intros Hseq st.
  destruct (single_flight_progress st) as [Hall Hone].
  { by apply single_flight_run; [apply single_flight_init |]. }
  split_and!; try done.
  intros Hne. split; [done |].
  destruct (uploading_entries st) as [|f [|g l]] eqn:Hl; [done | | cbn in Hone; lia].
  unfold sum_progress. cbn [map foldr length].
  rewrite (Hall f) by (by left). lia.
Qed.

End Window.



Lemma C7_admitted_batch_checked_per_file_witness :
  (length (ChatWindow.queue Samples.window2)
     + length [Samples.notes; Samples.large; Samples.binary] ≤ 5)%nat
  ∧ FileUploadArea.processFiles Samples.render
      (ChatWindow.props 1024 5 Samples.window2)
      [Samples.notes; Samples.large; Samples.binary]
    = [FileUploadArea.upload_error
         "large.txt is too large (max 1024 Bytes), tool.exe is not a supported file type";
       FileUploadArea.files_selected [Samples.notes]]
  ∧ ChatWindow.entry_file
      <$> ChatWindow.queue
            (ChatWindow.userSelects Samples.render 1024 5
               [Samples.notes; Samples.large; Samples.binary] Samples.ids_b
               Samples.window2)
    = [Samples.notes; Samples.notes; Samples.notes].
Proof.
  assert (length (ChatWindow.queue Samples.window2)
          + length [Samples.notes; Samples.large; Samples.binary] ≤ 5)%nat as Hc
    by (vm_compute; lia).
  split; [exact Hc |].
  pose proof (C7_admitted_batch_checked_per_file Samples.render 1024 5
                [ChatWindow.FilesSelected [Samples.notes; Samples.notes] Samples.ids_a]
                [Samples.notes; Samples.large; Samples.binary] Samples.ids_b Hc)
    as (_ & _ & Hemit & _ & _ & _ & Hqueue).
  split; [exact Hemit | exact Hqueue].
Defined.

Lemma C9_progress_is_mean_for_one_batch_at_a_time_witness :
  ChatWindow.sequential ChatWindow.init Samples.one_batch = true
  ∧ ChatWindow.is_mean 20
      (ChatWindow.uploading_entries (ChatWindow.run ChatWindow.init Samples.one_batch)).
Proof.
  split; [reflexivity |].
  apply (C9_progress_is_mean_for_one_batch_at_a_time Samples.one_batch eq_refl).
  by vm_compute.
Defined.

(** C9 (as stated) fails when a second batch is selected while the first is
    still uploading: after the first timer of the first batch both entries
    are in [uploading] status with progress 10 and 0, and the reported
    aggregate is 10, the value last written, not their mean. *)
Lemma C9_counterexample :
  let st := ChatWindow.run ChatWindow.init Samples.overlapping in
  ChatWindow.isUploading st = true
  ∧ ChatWindow.progress_of <$> ChatWindow.uploading_entries st = [10; 0]
  ∧ ChatWindow.uploadProgress st = 10
  ∧ ¬ ChatWindow.is_mean (ChatWindow.uploadProgress st) (ChatWindow.uploading_entries st).
Proof.
  split_and!; try by vm_compute.
  intros [_ H]. vm_compute in H. discriminate.
Qed.


(** * Further properties of the code *)

(** ** The conversations store *)

Section Coordinator.

Import Conversations.

Lemma settled_stopped (st : Store) : settled (stopStreaming st).
Proof.
  unfold settled, stopStreaming; cbn.
  split_and!; try done; split; try done; by intros [? ?].
Qed.

Lemma settled_frame (st st' : Store) :
  isStreaming st' = isStreaming st → eventSource st' = eventSource st →
  streamingMessageId st' = streamingMessageId st →
  streamingContent st' = streamingContent st →
  settled st → settled st'.
Proof. unfold settled. by intros -> -> -> ->. Qed.

Lemma settled_step (st : Store) (a : action) :
  coherent st → settled st → settled (step st a).
Proof.
  intros Hco Hse.
  destruct a as [cs|c|id|id|c ms|c m|c i u|c i|c m now|c i|s c| | |h ev];
    cbn [step];
    try (by apply settled_stopped);
    try (by apply (settled_frame st)).
  - apply (settled_frame st); try done; unfold removeConversation; by case_decide.
  - apply (settled_frame st); try done; unfold updateMessage;
      by destruct (list_find _ _) as [[??]|].
  - unfold settled, startStreaming; cbn. split_and!; try done; split; by eauto.
  - unfold dispatch. destruct (sources st !! h) as [src|] eqn:Hsrc; [| done].
    destruct (es_closed src) eqn:Hcl; [done |].
    assert (eventSource st = Some h) as Hh by (apply Hco; by exists src).
    destruct ev as [[chunk|] now|]; cbn [onmessage onerror];
      try (by apply settled_stopped).
    destruct (chunk_isComplete chunk); [by apply settled_stopped |].
    destruct Hse as (Hs & Hm & Hb).
    unfold settled; cbn. split_and!; try done. by rewrite Hh.
Qed.

(** In every state the store reaches, [isStreaming] and the id of the
    streaming message are set exactly while a source is held, and the
    buffer is empty while none is. *)
Theorem streaming_refs_settled (tok : string) (tr : list action) :
  settled (run (init tok) tr).
Proof.
  assert (∀ st, coherent st → settled st → settled (run st tr)) as H.
  { induction tr as [|a tr IH]; intros st Hco Hse; [done |].
    rewrite run_cons. apply IH; [by apply coherent_step | by apply settled_step]. }
  apply H; [apply coherent_init |].
  unfold settled; cbn. split_and!; try done; split; try done; by intros [? ?].
Qed.

(** [stopStreaming] while idle changes nothing, and calling it twice is
    calling it once. *)
Theorem stopStreaming_idle_is_noop (tok : string) (tr : list action) (st0 : Store) :
  let st := run (init tok) tr in
  eventSource st = None →
  stopStreaming st = st
  ∧ stopStreaming (stopStreaming st0) = stopStreaming st0.
Proof.
  intros st Hidle. split; [| done].
  destruct (streaming_refs_settled tok tr) as (Hs & Hm & Hb). fold st in Hs, Hm, Hb.
  specialize (Hb Hidle).
  assert (isStreaming st = false) as Hf.
  { destruct (isStreaming st); [| done]. destruct Hs as [Hs _].
    rewrite Hidle in Hs. by destruct Hs. }
  assert (streamingMessageId st = None) as Hn.
  { destruct (streamingMessageId st) eqn:E; [| done]. destruct Hm as [Hm _].
    rewrite Hidle in Hm. destruct Hm; by eauto. }
  unfold stopStreaming. rewrite Hidle. destruct st; cbn in *. by subst.
Qed.

Lemma ended_source_closed (st : Store) (h : nat) (a : action) :
  source_open h st → eventSource st = Some h → ends_session h a →
  source_closed h (step st a).
Proof.
  intros (src & Hsrc & Hop) Hh Hend.
  assert (source_closed h (stopStreaming st)) as Hstop
    by (by eapply stopStreaming_closes).
  destruct a as [cs|c|id|id|c ms|c m|c i u|c i|c m now|c i|s c| | |h' ev];
    cbn [ends_session] in Hend; try done; cbn [step].
  - exists (es_close src). split; [| done].
    unfold startStreaming; cbn [sources]. rewrite Hh.
    apply lookup_app_l_Some. unfold close_source.
    by rewrite list_lookup_alter_eq, Hsrc.
  - assert (h' = h) as -> by (destruct ev as [[?|] ?|]; tauto).
    unfold dispatch. rewrite Hsrc, Hop.
    destruct ev as [[chunk|] now|]; cbn [onmessage onerror].
    + destruct Hend as [_ ->]. by eapply stopStreaming_closes.
    + by eapply stopStreaming_closes.
    + by eapply stopStreaming_closes.
Qed.

(** However the session on source [h] ends, events that still arrive for
    [h] change nothing: a late or repeated terminal fragment commits no
    second message. *)
Theorem ended_session_is_silent
    (tok : string) (tr : list action) (h : nat) (a : action)
    (late : list SourceEvent) :
  let st := run (init tok) tr in
  eventSource st = Some h →
  ends_session h a →
  run (step st a) (map (Dispatch h) late) = step st a.
Proof.
  intros st Hh Hend.
  assert (source_open h st) as Hop.
  { by apply (connected_run (init tok) tr (connected_init tok)). }
  pose proof (ended_source_closed st h a Hop Hh Hend) as Hcl.
  induction late as [|ev late IH]; [done |].
  cbn [map]. rewrite run_cons. cbn [step]. by rewrite dispatch_closed.
Qed.

(** The streaming coordinator only ever appends: an action of it leaves
    every list of messages as it was, or appends one assistant message to
    one of them. *)
Theorem streaming_only_appends (st : Store) (a : action) (c : string) :
  streaming_action a →
  ∃ extra, currentMessages c (step st a) = currentMessages c st ++ extra
           ∧ (length extra ≤ 1)%nat
           ∧ Forall (λ m, msg_role m = assistant) extra.
Proof.
  intros Ha.
  assert (∀ st' : Store, messages st' = messages st →
            ∃ extra, currentMessages c st' = currentMessages c st ++ extra
                     ∧ (length extra ≤ 1)%nat
                     ∧ Forall (λ m, msg_role m = assistant) extra) as Hsame.
  { intros st' Hm. exists []. unfold currentMessages. rewrite Hm, app_nil_r.
    split_and!; [done | cbn; lia | done]. }
  destruct a as [cs|c0|id|id|c0 ms|c0 m|c0 i u|c0 i|c0 m now|c0 i|s c0| | |h ev];
    cbn [streaming_action] in Ha; try done; cbn [step]; try by apply Hsame.
  unfold dispatch. destruct (sources st !! h) as [src|]; [| by apply Hsame].
  destruct (es_closed src); [by apply Hsame |].
  destruct ev as [[chunk|] now|]; cbn [onmessage onerror]; try by apply Hsame.
  destruct (chunk_isComplete chunk); [| by apply Hsame].
  destruct (decide (es_conversationId src = c)) as [->|Hne].
  - eexists [_]. unfold currentMessages at 1.
    cbn [stopStreaming addMessage set_messages messages].
    rewrite lookup_insert_eq. cbn [default].
    split_and!; [done | cbn; lia | by repeat constructor].
  - exists []. unfold currentMessages.
    cbn [stopStreaming addMessage set_messages messages].
    rewrite lookup_insert_ne by done. rewrite app_nil_r.
    split_and!; [done | cbn; lia | done].
Qed.

(** Removing a conversation removes it from the list, drops its messages
    and clears the selection when it was the active one; every other
    conversation and its messages stay, and the streaming refs are not
    touched: a session running for the conversation keeps running. *)
Theorem removeConversation_cascades (id : string) (st : Store) :
  let st' := removeConversation id st in
  conversations st' = filter (λ conv, conv_id conv ≠ id) (conversations st)
  ∧ (∀ conv, conv ∈ conversations st' → conv_id conv ≠ id)
  ∧ messages st' !! id = None
  ∧ (∀ other, other ≠ id → messages st' !! other = messages st !! other)
  ∧ activeConversationId st'
    = (if decide (activeConversationId st = Some id) then None
       else activeConversationId st)
  ∧ activeConversation st' = (if decide (activeConversationId st = Some id) then None
                              else activeConversation st)
  ∧ view st' = view st
  ∧ isStreaming st' = isStreaming st
  ∧ streamingContent st' = streamingContent st.
Proof.
  intros st'. subst st'. unfold removeConversation.
  cbn [activeConversationId set_conversations set_messages messages conversations].
  assert (∀ l : list Conversation, ∀ k,
            k ≠ id →
            snd <$> list_find (λ conv, conv_id conv = k)
                      (filter (λ conv, conv_id conv ≠ id) l)
            = snd <$> list_find (λ conv, conv_id conv = k) l) as Hfind.
  { intros l k Hk. induction l as [|x l IH]; [done |].
    rewrite filter_cons. destruct (decide (conv_id x ≠ id)) as [Hx|Hx].
    - cbn [list_find]. case_decide; [done |].
      destruct (list_find _ (filter _ l)) as [[??]|],
               (list_find _ l) as [[??]|]; cbn in *; congruence.
    - cbn [list_find]. rewrite decide_False by (apply dec_stable in Hx; congruence).
      rewrite IH. by destruct (list_find _ l) as [[??]|]. }
  case_decide as Hact; cbn; split_and!; try done.
  - intros conv [? _]%list_elem_of_filter. done.
  - apply lookup_delete_eq.
  - intros other Hne. by apply lookup_delete_ne.
  - intros conv [? _]%list_elem_of_filter. done.
  - apply lookup_delete_eq.
  - intros other Hne. by apply lookup_delete_ne.
  - unfold activeConversation.
    cbn [activeConversationId conversations set_messages set_conversations].
    destruct (activeConversationId st) as [k|]; [| done].
    case_decide; [done |].
    apply Hfind. congruence.
Qed.

(** A conversation removed while its session is running comes back as a
    list of messages: the terminal fragment stores the finished message
    under the removed id, as the only message of that list. *)
Theorem stream_outlives_removed_conversation
    (st : Store) (streamId conversationId : string)
    (chunks : list (StreamChunk * Z)) (last : StreamChunk) (now : Z) :
  Forall (λ c, chunk_isComplete c.1 = false) chunks →
  chunk_isComplete last = true →
  let h := length (sources st) in
  let st' := run st (StartStreaming streamId conversationId
                       :: RemoveConversation conversationId
                       :: deliver h chunks
                       ++ [Dispatch h (MessageEvent (Some last) now)]) in
  messages st' !! conversationId
  = Some [finished streamId last (contents chunks) now]
  ∧ (∀ conv, conv ∈ conversations st' → conv_id conv ≠ conversationId).
Proof.
  intros Hnt Hlast h st'. subst st'.
  rewrite !run_cons, run_app. cbn [step].
  pose proof (startStreaming_source streamId conversationId st) as Hsrc.
  fold h in Hsrc.
  set (st1 := startStreaming streamId conversationId st) in *.
  destruct (removeConversation_cascades conversationId st1)
    as (Hconvs & Hnone & Hgone & _ & _ & _ & Hview & _ & Hbuf).
  set (st2 := removeConversation conversationId st1) in *.
  assert (sources st2 = sources st1) as Hs2 by (by injection Hview).
  assert (streamingMessageId st2 = Some ("stream-" +:+ streamId)) as Hid.
  { assert (streamingMessageId st2 = streamingMessageId st1) as ->
      by (by injection Hview). done. }
  rewrite deliver_buffers; [| eexists; split; [by rewrite Hs2 | done] | done].
  cbn [run foldl step]. unfold dispatch.
  cbn [sources set_streamingContent]. rewrite Hs2, Hsrc.
  cbn [es_closed es_conversationId]. unfold onmessage. rewrite Hlast.
  cbn [stopStreaming addMessage set_messages set_streamingContent messages
       conversations streamingContent streamingMessageId currentMessages].
  rewrite lookup_insert_eq. unfold currentMessages.
  cbn [messages set_streamingContent]. rewrite Hgone, Hid, Hbuf.
  split; [done | exact Hnone].
Qed.

(** Appending a message whose id no message of the conversation carries,
    and then removing the message with that id, gives back the list of
    messages; a conversation that had no list has the empty list
    afterwards. *)
Theorem addMessage_then_removeMessage (c : string) (m : Message) (st : Store) :
  msg_id m ∉ msg_id <$> currentMessages c st →
  let st' := removeMessage c (msg_id m) (addMessage c m st) in
  currentMessages c st' = currentMessages c st
  ∧ messages st' !! c = Some (currentMessages c st)
  ∧ (∀ other, other ≠ c → messages st' !! other = messages st !! other).
Proof.
  intros Hfresh st'.
  assert (filter (λ msg, msg_id msg ≠ msg_id m) (currentMessages c st ++ [m])
          = currentMessages c st) as Hfilter.
  { rewrite filter_app, filter_cons_False, filter_nil, app_nil_r
      by (by intros H; apply H).
    induction (currentMessages c st) as [|x l IH]; [done |].
    rewrite fmap_cons, not_elem_of_cons in Hfresh. destruct Hfresh as [Hx Hl].
    rewrite filter_cons_True by done. by rewrite IH. }
  assert (messages st' !! c = Some (currentMessages c st)) as Hl.
  { subst st'. unfold removeMessage. cbn [messages set_messages].
    by rewrite lookup_insert_eq, currentMessages_addMessage, Hfilter. }
  split_and!; [| done |].
  - unfold currentMessages at 1. by rewrite Hl.
  - intros other Hne. subst st'. unfold removeMessage, addMessage.
    cbn [messages set_messages]. by rewrite !lookup_insert_ne.
Qed.

(** The id that [addOptimisticMessage] returns is [optimistic-<now>]
    unless the partial message brings an id of its own, which then wins;
    removing the message under the returned id undoes the append when the
    id was new to the conversation. *)
Theorem optimistic_append_and_removal
    (c : string) (partial : PartialMessage) (now : Z) (st : Store) :
  let r := addOptimisticMessage c partial now st in
  r.1 = default ("optimistic-" +:+ JS.show_Z now) (p_id partial)
  ∧ (p_id partial = None → JS.startsWith r.1 "optimistic-" = true)
  ∧ (∃ m, currentMessages c r.2 = currentMessages c st ++ [m] ∧ msg_id m = r.1)
  ∧ (r.1 ∉ msg_id <$> currentMessages c st →
     currentMessages c (removeOptimisticMessage c r.1 r.2) = currentMessages c st).
Proof.
  intros r. subst r. cbn [addOptimisticMessage fst snd]. split_and!.
  - done.
  - intros Hid. unfold optimisticMessage, spread. cbn [msg_id]. rewrite Hid.
    apply startsWith_append.
  - eexists. split; [apply currentMessages_addMessage | done].
  - intros Hfresh. unfold removeOptimisticMessage.
    by apply (addMessage_then_removeMessage c (optimisticMessage partial now) st).
Qed.

(** [updateMessage] changes at most one entry: the list keeps its length,
    every entry with another id stays where it is, other conversations are
    untouched, and when no message carries the id the store is unchanged. *)
Theorem updateMessage_touches_one_entry
    (c id : string) (u : PartialMessage) (st : Store) :
  let st' := updateMessage c id u st in
  length (currentMessages c st') = length (currentMessages c st)
  ∧ (∀ i m, currentMessages c st !! i = Some m → msg_id m ≠ id →
            currentMessages c st' !! i = Some m)
  ∧ (∀ other, other ≠ c → messages st' !! other = messages st !! other)
  ∧ (id ∉ msg_id <$> currentMessages c st → st' = st).
Proof.
  intros st'. subst st'. unfold updateMessage.
  destruct (list_find _ _) as [[index old]|] eqn:Hfind.
  - apply list_find_Some in Hfind as (Hold & Hid & _).
    assert (currentMessages c
              (set_messages
                 (<[c := <[index := spread old u]> (currentMessages c st)]> (messages st))
                 st)
            = <[index := spread old u]> (currentMessages c st)) as Hcur.
    { unfold currentMessages at 1. cbn [messages set_messages].
      by rewrite lookup_insert_eq. }
    rewrite Hcur. split_and!.
    + by rewrite length_insert.
    + intros i m Hi Hne. rewrite list_lookup_insert_ne; [done |].
      intros ->. congruence.
    + intros other Hne. cbn [messages set_messages]. by rewrite lookup_insert_ne.
    + intros Hfresh. exfalso. apply Hfresh.
      apply list_elem_of_fmap. exists old. split; [done |].
      by apply list_elem_of_lookup_2 in Hold.
  - done.
Qed.

(** A conversation added to the store is the active one right away, found
    ahead of any older conversation with the same id, and its messages are
    the active messages; a conversation whose id is the empty string is
    never reported as active. *)
Theorem added_conversation_is_active (conv : Conversation) (st : Store) :
  let st' := addConversation conv st in
  conversations st' = conv :: conversations st
  ∧ activeConversationId st' = Some (conv_id conv)
  ∧ (conv_id conv ≠ "" →
     activeConversation st' = Some conv
     ∧ activeMessages st' = currentMessages (conv_id conv) st)
  ∧ (conv_id conv = "" → activeConversation st' = None ∧ activeMessages st' = []).
Proof.
  intros st'. subst st'. unfold addConversation, activeConversation, activeMessages.
  cbn [setActiveConversation set_activeConversationId set_conversations
       activeConversationId conversations].
  split_and!; try done.
  - intros Hne. rewrite !decide_False by done. cbn [list_find].
    by rewrite decide_True.
  - intros Heq. by rewrite !decide_True.
Qed.

(** [updateConversation] changes at most one conversation, the first one
    that carries the id; the list keeps its length, messages are not
    touched, and an unknown id changes nothing. *)
Theorem updateConversation_touches_one_entry
    (id : string) (u : PartialConversation) (st : Store) :
  let st' := updateConversation id u st in
  length (conversations st') = length (conversations st)
  ∧ (∀ i conv, conversations st !! i = Some conv → conv_id conv ≠ id →
               conversations st' !! i = Some conv)
  ∧ messages st' = messages st
  ∧ (id ∉ conv_id <$> conversations st → st' = st)
  ∧ (∀ i conv, list_find (λ x, conv_id x = id) (conversations st) = Some (i, conv) →
               conversations st' !! i = Some (spread_conversation conv u)).
Proof.
  intros st'. subst st'. unfold updateConversation.
  destruct (list_find _ _) as [[index old]|] eqn:Hfind.
  - apply list_find_Some in Hfind as (Hold & Hid & _).
    cbn [conversations set_conversations messages]. split_and!; try done.
    + by rewrite length_insert.
    + intros i conv Hi Hne. rewrite list_lookup_insert_ne; [done |].
      intros ->. congruence.
    + intros Hfresh. exfalso. apply Hfresh.
      apply list_elem_of_fmap. exists old. split; [done |].
      by apply list_elem_of_lookup_2 in Hold.
    + intros i conv [= <- <-]. apply list_lookup_insert_eq.
      by apply lookup_lt_Some in Hold.
  - split_and!; try done.
Qed.

End Coordinator.

(** ** The notifications store *)

Section Notices.

Import Notifications.

Lemma step_max (st : Store) (a : action) :
  maxNotifications (step st a) = maxNotifications st.
Proof.
  destruct a; cbn [step]; try done.
  unfold removeNotification. by destruct (list_find _ _) as [[??]|].
Qed.

Lemma step_bounded (st : Store) (a : action) :
  (length (notifications st) ≤ maxNotifications st)%nat →
  (length (notifications (step st a)) ≤ maxNotifications (step st a))%nat.
Proof.
  intros Hb. rewrite step_max. destruct a; cbn [step].
  - unfold addNotification; cbn [notifications maxNotifications].
    rewrite length_drop, length_app. cbn [length]. lia.
  - unfold removeNotification.
    destruct (list_find _ _) as [[i n]|] eqn:Hfind; [| done].
    apply list_find_Some in Hfind as (Hl & _).
    cbn [notifications]. rewrite length_delete; [lia | by eexists].
  - cbn. lia.
  - cbn [clearByType notifications]. etrans; [apply length_filter | done].
Qed.

(** The store never holds more than [maxNotifications], five,
    notifications, whatever is added, removed or cleared. *)
Theorem notifications_bounded (tr : list action) :
  let st := run init tr in
  maxNotifications st = 5%nat ∧ (length (notifications st) ≤ 5)%nat.
Proof.
  assert (∀ st, maxNotifications st = 5%nat →
                (length (notifications st) ≤ maxNotifications st)%nat →
                maxNotifications (run st tr) = 5%nat
                ∧ (length (notifications (run st tr)) ≤ maxNotifications (run st tr))%nat)
    as H.
  { induction tr as [|a tr IH]; intros st Hm Hb; [done |].
    cbn [run foldl]. apply IH; [by rewrite step_max | by apply step_bounded]. }
  intros st. destruct (H init) as [Hm Hb]; [done | cbn; lia |].
  subst st. split; [done | by rewrite <- Hm].
Qed.

(** The notification just added is always kept (it is the last one), and
    when the store is full the oldest notification is the one evicted,
    persistent or not. *)
Theorem full_store_evicts_oldest
    (id : string) (now : Z) (ty : NotificationType) (title : string)
    (message : option string) (duration : option Z) (persistent : bool)
    (st : Store) :
  (0 < maxNotifications st)%nat →
  let added := {| n_id := id; n_type := ty; n_title := title; n_message := message;
                  n_duration := default (defaultDuration st) duration;
                  n_persistent := persistent; n_createdAt := now |} in
  let st' := addNotification id now ty title message duration persistent st in
  last (notifications st') = Some added
  ∧ ((length (notifications st) < maxNotifications st)%nat →
     notifications st' = notifications st ++ [added])
  ∧ (length (notifications st) = maxNotifications st →
     notifications st' = drop 1 (notifications st) ++ [added]).
Proof.
  intros Hmax added st'. subst st'. unfold addNotification.
  cbn [notifications]. fold added.
  set (l := notifications st) in *. set (m := maxNotifications st) in *.
  rewrite length_app. cbn [length]. split_and!.
  - rewrite drop_app_le by lia. by rewrite last_snoc.
  - intros Hlt. replace (length l + 1 - m)%nat with 0%nat by lia. done.
  - intros Heq. replace (length l + 1 - m)%nat with 1%nat by lia.
    rewrite drop_app_le by lia. done.
Qed.

(** [removeNotification] takes out one notification at most, the first
    one with the id, and leaves the store alone when none has it (as when
    the removal timer fires for a notification already evicted). *)
Theorem removeNotification_first_match (id : string) (st : Store) :
  let st' := removeNotification id st in
  (id ∉ n_id <$> notifications st → st' = st)
  ∧ (∀ i n, list_find (λ n, n_id n = id) (notifications st) = Some (i, n) →
            notifications st' = take i (notifications st) ++ drop (S i) (notifications st)
            ∧ S (length (notifications st')) = length (notifications st)
            ∧ (id ∉ n_id <$> take i (notifications st)))
  ∧ (NoDup (n_id <$> notifications st) → id ∉ n_id <$> notifications st').
Proof.
  intros st'. subst st'. unfold removeNotification.
  destruct (list_find _ _) as [[index found]|] eqn:Hfind.
  - apply list_find_Some in Hfind as (Hl & Hid & Hfirst).
    cbn [notifications]. split_and!.
    + intros Hfresh. exfalso. apply Hfresh. apply list_elem_of_fmap.
      exists found. split; [done |]. by apply list_elem_of_lookup_2 in Hl.
    + intros i n [= <- <-]. rewrite delete_take_drop. split_and!; [done | |].
      * rewrite length_app, length_take, length_drop.
        apply lookup_lt_Some in Hl. lia.
      * intros (x & Hx & Hin)%list_elem_of_fmap.
        apply list_elem_of_lookup in Hin as [j Hj].
        pose proof (lookup_lt_Some _ _ _ Hj) as Hlt. rewrite length_take in Hlt.
        rewrite lookup_take_lt in Hj by lia. apply (Hfirst j x); [done | lia | done].
    + intros Hnd (x & Hx & Hin)%list_elem_of_fmap.
      rewrite delete_take_drop in Hin.
      rewrite <- (take_drop_middle _ _ _ Hl), fmap_app, fmap_cons in Hnd.
      apply NoDup_app in Hnd as (_ & Hsep & Hnd2).
      apply NoDup_cons in Hnd2 as [Hnotin _].
      apply elem_of_app in Hin as [Hin | Hin].
      * apply (Hsep (n_id found)); [| left].
        apply list_elem_of_fmap. exists x. split; [congruence | done].
      * apply Hnotin. apply list_elem_of_fmap. exists x. split; [congruence | done].
  - split_and!; try done. intros _ (x & Hx & Hin)%list_elem_of_fmap.
    apply list_find_None in Hfind. rewrite Forall_forall in Hfind.
    by apply (Hfind x).
Qed.

End Notices.

(** ** The files store *)

Section Queue.

Import FilesStore.

Lemma validateFile_valid (st : Store) (file : File) :
  valid (validateFile st file) = true
  ↔ file_size file ≤ maxFileSize st ∧ file_type file ∈ allowedTypes st.
Proof.
  unfold validateFile. repeat case_decide; cbn [valid]; split; try done;
    try (intros [? ?]; done); try (intros [? ?]; lia); lia.
Qed.

Lemma validate_fold (st : Store) (files : list File)
    (acc : list File * list (File * string)) :
  foldl (validate_one st) acc files
  = (acc.1 ++ filter (λ f, valid (validateFile st f) = true) files,
     acc.2 ++ ((λ f, (f, default "" (verror (validateFile st f))))
                 <$> filter (λ f, valid (validateFile st f) = false) files)).
Proof.
  revert acc. induction files as [|f files IH]; intros [ok bad].
  - cbn [foldl fst snd fmap list_fmap]. by rewrite !filter_nil, !app_nil_r.
  - cbn [foldl]. rewrite IH. unfold validate_one. rewrite !filter_cons.
    destruct (valid (validateFile st f)) eqn:Hf; cbn [fst snd].
    + rewrite decide_True, decide_False by done. by rewrite <- app_assoc.
    + rewrite decide_False, decide_True by done.
      by rewrite fmap_cons, <- app_assoc.
Qed.

(** [validateFiles] splits a batch, in order, into the files that are
    within the size limit and of a listed MIME type, and the others, each
    with its error; the size is checked first, so an oversize file is
    reported for its size whatever its type. *)
Theorem validateFiles_partitions (st : Store) (files : list File) :
  let r := validateFiles st files in
  r.1 = filter (λ f, file_size f ≤ maxFileSize st ∧ file_type f ∈ allowedTypes st) files
  ∧ r.2.*1
    = filter (λ f, ¬ (file_size f ≤ maxFileSize st ∧ file_type f ∈ allowedTypes st)) files
  ∧ (length r.1 + length r.2 = length files)%nat
  ∧ (∀ f e, (f, e) ∈ r.2 →
       (file_size f > maxFileSize st →
        e = "File size exceeds " +:+ JS.show_Z (round_MB (maxFileSize st)) +:+ "MB limit")
       ∧ (file_size f ≤ maxFileSize st → e = "File type not supported")).
Proof.
  intros r. subst r. unfold validateFiles. rewrite validate_fold.
  cbn [fst snd app].
  assert (filter (λ f, valid (validateFile st f) = true) files
          = filter (λ f, file_size f ≤ maxFileSize st ∧ file_type f ∈ allowedTypes st)
              files) as Hok.
  { apply list_filter_iff. intros f. apply validateFile_valid. }
  assert (filter (λ f, valid (validateFile st f) = false) files
          = filter (λ f, ¬ (file_size f ≤ maxFileSize st
                            ∧ file_type f ∈ allowedTypes st)) files) as Hbad.
  { apply list_filter_iff. intros f. rewrite <- validateFile_valid.
    by rewrite not_true_iff_false. }
  split_and!.
  - done.
  - rewrite <- list_fmap_compose, <- Hbad. apply list_fmap_id.
  - rewrite length_fmap, Hok, Hbad.
    pose proof (filter_app_complement
                  (λ f, file_size f ≤ maxFileSize st ∧ file_type f ∈ allowedTypes st)
                  files) as Hperm.
    apply Permutation_length in Hperm. by rewrite length_app in Hperm.
  - intros f e (g & [= <- ->] & Hg)%list_elem_of_fmap.
    unfold validateFile. split; intros Hsize.
    + by rewrite decide_True.
    + rewrite decide_False by lia. case_decide as Hty; [| done].
      apply list_elem_of_filter in Hg as [Hg _].
      unfold validateFile in Hg. rewrite decide_False in Hg by lia.
      by rewrite decide_True in Hg.
Qed.

Lemma foldl_insert_fresh (l : list UploadedFile) (q : gmap string UploadedFile) :
  NoDup (uf_id <$> l) →
  (∀ u, u ∈ l → q !! uf_id u = None) →
  let q' := foldl (λ q u, <[uf_id u := u]> q) q l in
  size q' = (size q + length l)%nat
  ∧ (∀ u, u ∈ l → q' !! uf_id u = Some u)
  ∧ (∀ k, k ∉ uf_id <$> l → q' !! k = q !! k).
Proof.
  revert q. induction l as [|x l IH]; intros q Hnd Hfresh q'; subst q'.
  - cbn. split_and!; [lia | by intros ? ?%elem_of_nil | done].
  - rewrite fmap_cons in Hnd. apply NoDup_cons in Hnd as [Hx Hnd].
    cbn [foldl].
    destruct (IH (<[uf_id x := x]> q) Hnd) as (Hsize & Hin & Hout).
    { intros u Hu. rewrite lookup_insert_ne.
      - apply Hfresh. by right.
      - intros Heq. apply Hx. rewrite Heq. by apply list_elem_of_fmap_2. }
    split_and!.
    + rewrite Hsize, map_size_insert_None by (apply Hfresh; left). cbn. lia.
    + intros u [->|Hu]%elem_of_cons; [| by apply Hin].
      rewrite Hout by done. apply lookup_insert_eq.
    + intros k Hk. rewrite fmap_cons, not_elem_of_cons in Hk. destruct Hk as [Hk1 Hk2].
      rewrite Hout by done. by rewrite lookup_insert_ne.
Qed.

(** [addToQueue] admits the files that pass validation, however many
    there are: with identifiers that are new and pairwise different, the
    queue grows by the number of valid files, each of them is stored under
    its identifier as a [pending] entry with progress 0, and no other entry
    changes. *)
Theorem addToQueue_admits_the_valid_files
    (files : list File) (ids : nat → string) (st : Store) :
  let r := addToQueue files ids st in
  let admitted := r.1.1 in
  (∀ j k, (j < length admitted)%nat → (k < length admitted)%nat →
          ids j = ids k → j = k) →
  (∀ k, (k < length admitted)%nat → uploadQueue st !! ids k = None) →
  r.1 = validateFiles st files
  ∧ size (uploadQueue r.2) = (size (uploadQueue st) + length admitted)%nat
  ∧ (∀ k file, admitted !! k = Some file →
       uploadQueue r.2 !! ids k = Some (createUploadedFile file (ids k)))
  ∧ (∀ key, (∀ k, (k < length admitted)%nat → ids k ≠ key) →
       uploadQueue r.2 !! key = uploadQueue st !! key).
Proof.
  intros r admitted Hinj Hfresh. subst r admitted.
  unfold addToQueue in *. cbn [fst snd uploadQueue set_uploadQueue] in *.
  set (admitted := (validateFiles st files).1) in *.
  set (l := imap (λ k file, createUploadedFile file (ids k)) admitted).
  assert (∀ u, u ∈ l ↔ ∃ k file, admitted !! k = Some file
                                 ∧ u = createUploadedFile file (ids k)) as Hl.
  { intros u. unfold l. rewrite list_elem_of_lookup. split.
    - intros [k Hk]. rewrite list_lookup_imap in Hk.
      destruct (admitted !! k) as [file|] eqn:Hf; [| done].
      injection Hk as <-. by exists k, file.
    - intros (k & file & Hf & ->). exists k. by rewrite list_lookup_imap, Hf. }
  assert (uf_id <$> l = ids <$> seq 0 (length admitted)) as Hids.
  { apply list_eq. intros k. unfold l.
    rewrite !list_lookup_fmap, list_lookup_imap.
    destruct (admitted !! k) as [file|] eqn:Hf.
    - rewrite lookup_seq_lt by (by apply lookup_lt_Some in Hf). done.
    - rewrite lookup_seq_ge by (by apply lookup_ge_None in Hf). done. }
  destruct (foldl_insert_fresh l (uploadQueue st)) as (Hsize & Hin & Hout).
  { rewrite Hids. apply NoDup_fmap_2_strong; [| apply NoDup_seq].
    intros j k [_ Hj]%elem_of_seq [_ Hk]%elem_of_seq Heq. apply Hinj; [lia | lia | done]. }
  { intros u (k & file & Hf & ->)%Hl. cbn [createUploadedFile uf_id].
    apply Hfresh. by apply lookup_lt_Some in Hf. }
  split_and!.
  - done.
  - rewrite Hsize. unfold l. by rewrite length_imap.
  - intros k file Hf.
    specialize (Hin (createUploadedFile file (ids k))). cbn [createUploadedFile uf_id] in Hin.
    apply Hin, Hl. by exists k, file.
  - intros key Hkey. apply Hout. rewrite Hids.
    intros (k & -> & [_ Hk]%elem_of_seq)%list_elem_of_fmap. apply (Hkey k); [lia | done].
Qed.

(** An error text outlives a progress update: an entry set to [error] with
    a message and then given a progress below 100 is [uploading] again and
    still carries the message; [setFileStatus] called without an error
    argument is what clears it. *)
Theorem error_text_outlives_progress
    (fileId message : string) (progress : Z) (file : UploadedFile) (st : Store) :
  uploadQueue st !! fileId = Some file →
  progress ≠ 100 →
  let failed := setFileStatus fileId error (Some message) st in
  let resumed := updateFileProgress fileId progress failed in
  let restarted := setFileStatus fileId uploading None failed in
  (uf_status <$> uploadQueue failed !! fileId = Some error)
  ∧ (uf_status <$> uploadQueue resumed !! fileId = Some uploading)
  ∧ (uf_error <$> uploadQueue resumed !! fileId = Some (Some message))
  ∧ (uf_status <$> uploadQueue restarted !! fileId = Some uploading)
  ∧ (uf_error <$> uploadQueue restarted !! fileId = Some None).
Proof.
  intros Hf Hp failed resumed restarted. subst failed resumed restarted.
  unfold updateFileProgress, setFileStatus. rewrite Hf.
  cbn [uploadQueue set_uploadQueue]. rewrite !lookup_insert_eq.
  cbn [uploadQueue set_uploadQueue]. rewrite !lookup_insert_eq.
  cbn. by rewrite decide_False.
Qed.

(** [clearCompleted] and [clearFailed] remove exactly the entries in
    [completed] and in [error] status; they can be applied in either order,
    and what is left is what is pending or uploading. *)
Theorem clearing_finished_entries (st : Store) :
  (∀ k file, uploadQueue (clearCompleted st) !! k = Some file
             ↔ uploadQueue st !! k = Some file ∧ uf_status file ≠ completed)
  ∧ (∀ k file, uploadQueue (clearFailed st) !! k = Some file
               ↔ uploadQueue st !! k = Some file ∧ uf_status file ≠ error)
  ∧ clearCompleted (clearFailed st) = clearFailed (clearCompleted st)
  ∧ (∀ k file, uploadQueue (clearCompleted (clearFailed st)) !! k = Some file
               ↔ uploadQueue st !! k = Some file
                 ∧ (uf_status file = pending ∨ uf_status file = uploading)).
Proof.
  assert (∀ s : Store, ∀ k file,
            uploadQueue (clearCompleted s) !! k = Some file
            ↔ uploadQueue s !! k = Some file ∧ uf_status file ≠ completed) as Hc.
  { intros s k file. unfold clearCompleted. cbn [uploadQueue set_uploadQueue].
    by rewrite map_lookup_filter_Some. }
  assert (∀ s : Store, ∀ k file,
            uploadQueue (clearFailed s) !! k = Some file
            ↔ uploadQueue s !! k = Some file ∧ uf_status file ≠ error) as Hf.
  { intros s k file. unfold clearFailed. cbn [uploadQueue set_uploadQueue].
    by rewrite map_lookup_filter_Some. }
  split_and!; try done.
  - unfold clearCompleted, clearFailed, set_uploadQueue. cbn. f_equal.
    apply map_eq. intros k. apply option_eq. intros file.
    rewrite !map_lookup_filter_Some. cbn. tauto.
  - intros k file. rewrite Hc, Hf. destruct (uf_status file); split;
      intros H; try tauto; destruct H as [? [?|?]]; try done.
Qed.

Lemma statuses_partition (l : list UploadedFile) :
  l ≡ₚ filter (λ file, uf_status file = uploading ∨ uf_status file = pending) l
       ++ filter (λ file, uf_status file = completed) l
       ++ filter (λ file, uf_status file = error) l.
Proof.
  induction l as [|x l IH]; [done |].
  rewrite !filter_cons. destruct (uf_status x) eqn:Hx.
  - rewrite decide_True, !decide_False by (try done; by right).
    cbn. by rewrite <- IH.
  - rewrite decide_True, !decide_False by (try done; by left).
    cbn. by rewrite <- IH.
  - rewrite decide_False, decide_True, decide_False by (try done; by intros [?|?]).
    cbn [app]. rewrite <- Permutation_middle. by rewrite <- IH.
  - rewrite !decide_False, decide_True by (try done; by intros [?|?]).
    rewrite app_assoc, <- Permutation_middle, <- app_assoc. by rewrite <- IH.
Qed.

(** The three getters split the queue: every entry is listed by exactly
    one of [uploadingFiles] (which holds the pending entries too),
    [completedFiles] and [failedFiles]; [hasActiveUploads] is unset exactly
    when every entry is completed or failed. *)
Theorem getters_partition_the_queue (order : list string) (st : Store) :
  values order st
  ≡ₚ uploadingFiles order st ++ completedFiles order st ++ failedFiles order st
  ∧ (length (uploadingFiles order st) + length (completedFiles order st)
     + length (failedFiles order st) = length (values order st))%nat
  ∧ (hasActiveUploads order st = false
     ↔ ∀ file, file ∈ values order st →
               uf_status file = completed ∨ uf_status file = error).
Proof.
  pose proof (statuses_partition (values order st)) as Hperm.
  split_and!.
  - exact Hperm.
  - apply Permutation_length in Hperm. rewrite !length_app in Hperm.
    unfold uploadingFiles, completedFiles, failedFiles. lia.
  - unfold hasActiveUploads. rewrite bool_decide_eq_false. unfold uploadingFiles.
    split.
    + intros Hnone file Hin.
      destruct (uf_status file) eqn:Hs; try (by left); try (by right);
        exfalso; apply Hnone;
        (assert (file ∈ filter (λ f, uf_status f = uploading ∨ uf_status f = pending)
                          (values order st)) as Hf
           by (apply list_elem_of_filter; split; [by eauto | done]));
        destruct (filter _ _); [by apply elem_of_nil in Hf | cbn; lia
                               | by apply elem_of_nil in Hf | cbn; lia].
    + intros Hall Hpos.
      destruct (filter _ _) as [|x l] eqn:Hf; [cbn in Hpos; lia |].
      assert (x ∈ filter (λ f, uf_status f = uploading ∨ uf_status f = pending)
                    (values order st)) as Hx by (rewrite Hf; left).
      apply list_elem_of_filter in Hx as [Hs Hin].
      destruct (Hall x Hin) as [Hc|Hc]; rewrite Hc in Hs; by destruct Hs.
Qed.

Lemma keyed_step (st : Store) (a : action) : keyed_by_id st → keyed_by_id (step st a).
Proof.
  intros Hk. destruct a as [files ids|fileId| | | |fileId progress|fileId status err];
    cbn [step].
  - unfold addToQueue. cbn [snd uploadQueue set_uploadQueue].
    generalize (imap (λ k file, createUploadedFile file (ids k)) (validateFiles st files).1).
    intros l. revert Hk. unfold keyed_by_id. generalize (uploadQueue st).
    induction l as [|u l IH]; intros q Hq; [done |].
    cbn [foldl]. apply IH. intros k file.
    destruct (decide (uf_id u = k)) as [<-|Hne].
    + rewrite lookup_insert_eq. by intros [= <-].
    + rewrite lookup_insert_ne by done. apply Hq.
  - intros k file. unfold removeFromQueue. cbn [uploadQueue set_uploadQueue].
    intros [_ H]%lookup_delete_Some. by apply Hk.
  - intros k file. cbn. by rewrite lookup_empty.
  - intros k file. unfold clearCompleted. cbn [uploadQueue set_uploadQueue].
    intros [H _]%map_lookup_filter_Some. by apply Hk.
  - intros k file. unfold clearFailed. cbn [uploadQueue set_uploadQueue].
    intros [H _]%map_lookup_filter_Some. by apply Hk.
  - unfold updateFileProgress. destruct (uploadQueue st !! fileId) as [f|] eqn:Hf; [| done].
    intros k file. cbn [uploadQueue set_uploadQueue].
    destruct (decide (fileId = k)) as [<-|Hne].
    + rewrite lookup_insert_eq. intros [= <-]. cbn. by apply Hk.
    + rewrite lookup_insert_ne by done. apply Hk.
  - unfold setFileStatus. destruct (uploadQueue st !! fileId) as [f|] eqn:Hf; [| done].
    intros k file. cbn [uploadQueue set_uploadQueue].
    destruct (decide (fileId = k)) as [<-|Hne].
    + rewrite lookup_insert_eq. intros [= <-]. cbn. by apply Hk.
    + rewrite lookup_insert_ne by done. apply Hk.
Qed.

(** Whatever the store does, every entry of the queue is stored under its
    own id, so the id read from an entry is the key that removes or
    updates it. *)
Theorem entries_keyed_by_id (tr : list action) (k : string) (file : UploadedFile) :
  uploadQueue (run init tr) !! k = Some file →
  uf_id file = k
  ∧ uploadQueue (removeFromQueue (uf_id file) (run init tr)) !! k = None.
Proof.
  assert (∀ st, keyed_by_id st → keyed_by_id (run st tr)) as H.
  { induction tr as [|a tr IH]; intros st Hst; [done |].
    cbn [run foldl]. by apply IH, keyed_step. }
  intros Hf. assert (uf_id file = k) as ->.
  { apply (H init); [| done]. intros ? ?. cbn. by rewrite lookup_empty. }
  split; [done |]. apply lookup_delete_eq.
Qed.

End Queue.

(** ** The upload area and the chat window *)

Section Uploads.

Import FileUploadArea ChatWindow.

Variable formatFileSize : Z → string.

Lemma toLowerCase_append (a b : string) :
  JS.toLowerCase (a +:+ b) = JS.toLowerCase a +:+ JS.toLowerCase b.
Proof.
  induction a as [|x a IH]; [done |].
  rewrite append_cons. cbn [JS.toLowerCase]. by rewrite IH, append_cons.
Qed.

(** The extension is matched whatever its case: a file whose name ends
    with an allowed extension in upper, lower or mixed case is of a valid
    type, whatever its MIME type. *)
Theorem extension_match_ignores_case (file : File) (base suffix ext : string) :
  file_name file = base +:+ suffix →
  JS.toLowerCase suffix = ext →
  ext ∈ allowedExtensions →
  isValidFileType file = true.
Proof.
  intros Hname Hlow Hext. unfold isValidFileType.
  apply orb_true_iff. right. apply existsb_elem_of. exists ext. split; [done |].
  rewrite Hname, toLowerCase_append, Hlow. apply endsWith_append.
Qed.

(** A batch within the count limit all of whose files pass is handed over
    whole: the upload area emits one [files-selected] with the batch and no
    error, and the queue of the chat window grows by the batch, in order.
    The limits are inclusive: a batch that fills the queue to [maxFiles]
    and a file of exactly [maxFileSize] are admitted. *)
Theorem valid_batch_enters_queue
    (maxFileSize : Z) (maxFiles : nat) (tr : list action) (batch : list File)
    (ids : nat → string) :
  let st := run init tr in
  batch ≠ [] →
  (length (queue st) + length batch ≤ maxFiles)%nat →
  Forall (λ f, file_size f ≤ maxFileSize ∧ isValidFileType f = true) batch →
  let p := props maxFileSize maxFiles st in
  let st' := userSelects formatFileSize maxFileSize maxFiles batch ids st in
  processFiles formatFileSize p batch = [files_selected batch]
  ∧ errorRef st' = errorRef st
  ∧ entry_file <$> queue st' = (entry_file <$> queue st) ++ batch
  ∧ length (queue st') = (length (queue st) + length batch)%nat.
Proof.
  intros st Hne Hcount Hall p st'.
  assert (∀ f, f ∈ batch → passes p f = true) as Hpass.
  { intros f Hf. rewrite Forall_forall in Hall. destruct (Hall f Hf) as [Hs Ht].
    unfold passes. cbn [p props props_maxFileSize].
    by rewrite Ht, andb_true_r, bool_decide_eq_true. }
  assert (filter (λ f, passes p f = true) batch = batch) as Hok.
  { clear -Hpass. induction batch as [|x l IH]; [done |].
    rewrite filter_cons_True by (apply Hpass; left).
    f_equal. apply IH. intros f Hf. apply Hpass. by right. }
  assert (filter (λ f, passes p f = false) batch = []) as Hbad.
  { apply filter_none_elem. intros f Hf. by rewrite (Hpass f Hf). }
  assert (processFiles formatFileSize p batch = [files_selected batch]) as Hemit.
  { rewrite processFiles_admitted by done. rewrite Hok, Hbad.
    rewrite decide_True, decide_False by done. done. }
  assert (st' = handleFilesSelected batch ids st) as ->.
  { subst st'. unfold userSelects. fold p. by rewrite Hemit. }
  assert (entry_file <$> queue (handleFilesSelected batch ids st)
          = (entry_file <$> queue st) ++ batch) as Hq.
  { apply queue_handleFilesSelected, valid_refs_run. }
  split_and!; try done.
  - apply errorRef_handleFilesSelected.
  - apply (f_equal length) in Hq. by rewrite length_app, !length_fmap in Hq.
Qed.

(** *** The upload run *)

Lemma tick_progress (i : nat) (st : State) (t : Task) :
  tasks st !! i = Some (Some t) →
  t_progress t + 10 ≤ 100 →
  tick i st
  = {| heap := alter (with_progress (t_progress t + 10)) (t_file t) (heap st);
       uploadedFiles := uploadedFiles st;
       isUploading := isUploading st;
       uploadProgress := t_progress t + 10;
       showFileUpload := showFileUpload st;
       errorRef := errorRef st;
       tasks := <[i := Some {| t_file := t_file t; t_progress := t_progress t + 10;
                               t_rest := t_rest t |}]> (tasks st) |}.
Proof.
  intros Hi Hle. unfold tick. rewrite Hi. unfold resume.
  by rewrite decide_True.
Qed.

Lemma tick_last (i : nat) (st : State) (t : Task) :
  tasks st !! i = Some (Some t) →
  100 < t_progress t + 10 →
  t_rest t = [] →
  tick i st
  = {| heap := alter (with_status completed) (t_file t) (heap st);
       uploadedFiles := uploadedFiles st;
       isUploading := false;
       uploadProgress := uploadProgress st;
       showFileUpload := showFileUpload st;
       errorRef := errorRef st;
       tasks := <[i := None]> (tasks st) |}.
Proof.
  intros Hi Hgt Hrest. unfold tick. rewrite Hi. unfold resume.
  rewrite decide_False by lia. by rewrite Hrest.
Qed.

Lemma tick_next (i : nat) (st : State) (t : Task) (r : nat) (rest : list nat) :
  tasks st !! i = Some (Some t) →
  100 < t_progress t + 10 →
  t_rest t = r :: rest →
  tick i st
  = {| heap := alter (with_progress 0) r
                 (alter (with_status uploading) r
                    (alter (with_status completed) (t_file t) (heap st)));
       uploadedFiles := uploadedFiles st;
       isUploading := isUploading st;
       uploadProgress := 0;
       showFileUpload := showFileUpload st;
       errorRef := errorRef st;
       tasks := <[i := Some {| t_file := r; t_progress := 0; t_rest := rest |}]>
                  (tasks st) |}.
Proof.
  intros Hi Hgt Hrest. unfold tick. rewrite Hi. unfold resume.
  rewrite decide_False by lia. by rewrite Hrest.
Qed.

(** [isUploading] is a flag, not a count: the run that finishes clears
    it, and every other run, finished or still suspended, stays as it
    is. *)
Theorem finished_run_clears_the_flag (i : nat) (st : State) (t : Task) :
  tasks st !! i = Some (Some t) →
  100 < t_progress t + 10 →
  t_rest t = [] →
  let st' := tick i st in
  isUploading st' = false
  ∧ tasks st' !! i = Some None
  ∧ (∀ j, j ≠ i → tasks st' !! j = tasks st !! j).
Proof.
  intros Hi Hgt Hrest st'. subst st'. rewrite (tick_last i st t) by done.
  cbn [isUploading tasks]. split_and!; [done | |].
  - apply list_lookup_insert_eq. by apply lookup_lt_Some in Hi.
  - intros j Hne. by rewrite list_lookup_insert_ne.
Qed.

Lemma in_steps_0 : in_steps 0.
Proof. split; [lia | apply Z.divide_0_r]. Qed.

Lemma in_steps_next (p : Z) : in_steps p → p + 10 ≤ 100 → in_steps (p + 10).
Proof.
  intros [Hr Hd] Hle. split; [lia |].
  apply Z.divide_add_r; [done | apply Z.divide_refl].
Qed.

Lemma stepped_enter_file (r : nat) (rest : list nat) (st : State) :
  in_steps (uploadProgress st)
  ∧ (∀ r f p, heap st !! r = Some f → uf_progress f = Some p → in_steps p) →
  let st1 := (enter_file r rest st).1 in
  in_steps (uploadProgress st1)
  ∧ (∀ r f p, heap st1 !! r = Some f → uf_progress f = Some p → in_steps p)
  ∧ (∀ t, (enter_file r rest st).2 = Some t → in_steps (t_progress t))
  ∧ tasks st1 = tasks st.
Proof.
  intros [Hu Hh] st1. subst st1. unfold enter_file.
  cbn [fst snd heap set_heap set_uploadProgress uploadProgress tasks].
  split_and!; try done.
  - apply in_steps_0.
  - intros r' f p Hf Hp.
    apply alter_lookup_cases in Hf as [[-> (y & _ & ->)] | [_ Hf]].
    + cbn in Hp. injection Hp as <-. apply in_steps_0.
    + apply alter_lookup_cases in Hf as [[-> (y & Hy & ->)] | [_ Hf]].
      * by eapply Hh.
      * by eapply Hh.
  - intros t [= <-]. apply in_steps_0.
Qed.

Lemma stepped_next_file (rest : list nat) (st : State) :
  in_steps (uploadProgress st)
  ∧ (∀ r f p, heap st !! r = Some f → uf_progress f = Some p → in_steps p) →
  let st1 := (next_file rest st).1 in
  in_steps (uploadProgress st1)
  ∧ (∀ r f p, heap st1 !! r = Some f → uf_progress f = Some p → in_steps p)
  ∧ (∀ t, (next_file rest st).2 = Some t → in_steps (t_progress t))
  ∧ tasks st1 = tasks st.
Proof.
  intros H. destruct rest as [|r rest]; [| by apply stepped_enter_file].
  destruct H as [Hu Hh]. cbn. split_and!; done.
Qed.

Lemma stepped_frame (st st' : State) :
  heap st' = heap st → uploadProgress st' = uploadProgress st →
  tasks st' = tasks st → stepped st → stepped st'.
Proof. unfold stepped. by intros -> -> ->. Qed.

Lemma stepped_step (st : State) (a : action) : stepped st → stepped (step st a).
Proof.
  intros (Hu & Hh & Ht).
  destruct a as [files ids|fileId|message|r shown| | | |k]; cbn [step];
    try (by apply (stepped_frame st)).
  - (* handleFilesSelected *)
    unfold handleFilesSelected, startFileUpload.
    set (newFiles := imap _ files). set (st2 := set_isUploading true _).
    destruct (stepped_next_file (seq (length (heap st)) (length newFiles)) st2)
      as (Hu' & Hh' & Ht' & Hts').
    { split; [done |]. intros r f p. subst st2. cbn [heap set_isUploading set_uploadedFiles set_heap].
      intros [Hf | [_ Hf]]%lookup_app_Some Hp; [by apply (Hh r f p) |].
      unfold newFiles in Hf. rewrite list_lookup_imap in Hf.
      destruct (files !! _); [| done]. injection Hf as <-. done. }
    unfold stepped. cbn [uploadProgress heap tasks set_tasks]. split_and!; try done.
    intros i t. rewrite Hts'. subst st2. cbn [tasks set_isUploading set_uploadedFiles set_heap].
    intros [Hi | [_ Hi]]%lookup_app_Some; [by apply (Ht i t) |].
    destruct (i - length (tasks st))%nat; [| done]. cbn in Hi.
    injection Hi as Hi. by apply Ht'.
  - destruct (userRemoves_cases r shown st) as [-> | [fileId ->]]; [done |].
    by apply (stepped_frame st).
  - (* tick *)
    unfold tick. destruct (tasks st !! k) as [[t|]|] eqn:Hk; try done.
    pose proof (Ht k t Hk) as Hp.
    unfold resume. case_decide as Hle.
    + unfold stepped.
      cbn [fst snd uploadProgress heap tasks set_tasks set_uploadProgress set_heap
           t_progress].
      split_and!.
      * by apply in_steps_next.
      * intros r f p Hf Hfp.
        apply alter_lookup_cases in Hf as [[-> (y & _ & ->)] | [_ Hf]].
        -- cbn in Hfp. injection Hfp as <-. by apply in_steps_next.
        -- by apply (Hh r f p).
      * intros i t'. destruct (decide (i = k)) as [->|Hne].
        -- rewrite list_lookup_insert_eq by (by apply lookup_lt_Some in Hk).
           intros [= <-]. cbn. by apply in_steps_next.
        -- rewrite list_lookup_insert_ne by done. apply Ht.
    + set (st1 := set_heap _ st).
      destruct (stepped_next_file (t_rest t) st1) as (Hu' & Hh' & Ht' & Hts').
      { split; [done |]. intros r f p. subst st1. cbn [heap set_heap].
        intros Hf Hfp.
        apply alter_lookup_cases in Hf as [[-> (y & Hy & ->)] | [_ Hf]].
        - by eapply Hh.
        - by eapply Hh. }
      unfold stepped. cbn [uploadProgress heap tasks set_tasks]. split_and!; try done.
      intros i t'. rewrite Hts'. subst st1. cbn [tasks set_heap].
      destruct (decide (i = k)) as [->|Hne].
      * rewrite list_lookup_insert_eq by (by apply lookup_lt_Some in Hk).
        intros [= Hi]. by apply Ht'.
      * rewrite list_lookup_insert_ne by done. apply Ht.
Qed.

(** Every progress value the chat window shows is one of 0, 10, ..., 100:
    the aggregate, and the progress of every entry of the queue, whatever
    batches are selected and in whatever order their timers fire. *)
Theorem progress_stays_in_steps (tr : list action) :
  let st := run init tr in
  in_steps (uploadProgress st)
  ∧ (∀ f, f ∈ queue st → in_steps (progress_of f)).
Proof.
  assert (∀ st, stepped st → stepped (run st tr)) as H.
  { induction tr as [|a tr IH]; intros st Hst; [done |].
    rewrite window_run_cons. by apply IH, stepped_step. }
  intros st. destruct (H init) as (Hu & Hh & _).
  { unfold stepped. cbn. split_and!; [apply in_steps_0 | |].
    - intros r f p Hf. by rewrite lookup_nil in Hf.
    - intros i t Hi. by rewrite lookup_nil in Hi. }
  split; [done |]. intros f (r & _ & Hr)%list_elem_of_omap.
  unfold progress_of. destruct (uf_progress f) as [p|] eqn:Hp; cbn.
  - by apply (Hh r f p).
  - apply in_steps_0.
Qed.

Lemma ticks_S (i n : nat) : ticks i (S n) = Tick i :: ticks i n.
Proof. reflexivity. Qed.

Lemma completed_is_uploaded (x : UploadedFile) :
  uf_progress x = Some 100 → with_status completed x = uploaded x.
Proof. intros H. unfold uploaded, with_status, with_progress. cbn. by rewrite H. Qed.

(** A suspended run, fired often enough, completes its current entry and
    every entry still to come. [d] counts the turns of the progress loop
    left for the current entry. *)
Lemma run_completes (rest : list nat) :
  ∀ (d : nat) (st : State) (i r : nat) (x : UploadedFile),
    tasks st !! i
    = Some (Some {| t_file := r; t_progress := 100 - 10 * Z.of_nat d; t_rest := rest |}) →
    (d ≤ 10)%nat →
    heap st !! r = Some x →
    uf_progress x = Some (100 - 10 * Z.of_nat d) →
    uploadProgress st = 100 - 10 * Z.of_nat d →
    NoDup (r :: rest) →
    Forall (λ r', (r' < length (heap st))%nat) rest →
    let st' := run st (ticks i (S (d + 11 * length rest))) in
    isUploading st' = false
    ∧ uploadProgress st' = 100
    ∧ tasks st' !! i = Some None
    ∧ (∀ j, j ≠ i → tasks st' !! j = tasks st !! j)
    ∧ uploadedFiles st' = uploadedFiles st
    ∧ length (heap st') = length (heap st)
    ∧ (∀ r' y, heap st !! r' = Some y →
         heap st' !! r' = Some (if decide (r' ∈ r :: rest) then uploaded y else y)).
Proof.
  induction rest as [|r2 rest2 IHrest]; intros d;
    induction d as [|d IHd]; intros st i r x Hi Hd Hx Hxp Hup Hnd Hvalid st';
    subst st'.
  - (* last entry, last turn *)
    change (ticks i (S (0 + 11 * length []))) with [Tick i].
    cbn [run foldl step]. rewrite (tick_last i st _ Hi) by (cbn; done || lia).
    cbn [isUploading uploadProgress tasks uploadedFiles heap t_file].
    split_and!; [done | exact Hup | | | done | |].
    + apply list_lookup_insert_eq. by apply lookup_lt_Some in Hi.
    + intros j Hne. by rewrite list_lookup_insert_ne.
    + by rewrite length_alter.
    + intros r' y Hy. destruct (decide (r' = r)) as [->|Hne].
      * rewrite list_lookup_alter_eq, Hy. cbn [fmap option_fmap option_map].
        rewrite decide_True by left. f_equal. apply completed_is_uploaded.
        assert (y = x) as -> by congruence. exact Hxp.
      * rewrite list_lookup_alter_ne, Hy by done.
        rewrite decide_False; [done |]. by intros [?|?%elem_of_nil]%elem_of_cons.
  - (* last entry, another turn *)
    rewrite ticks_S, window_run_cons. cbn [step Nat.add].
    rewrite (tick_progress i st _ Hi) by (cbn; lia). cbn [t_file t_progress t_rest].
    replace (100 - 10 * Z.of_nat (S d) + 10) with (100 - 10 * Z.of_nat d) by lia.
    set (st1 := {| heap := _ |}).
    destruct (IHd st1 i r (with_progress (100 - 10 * Z.of_nat d) x))
      as (H1 & H2 & H3 & H4 & H5 & H6 & H7).
    { subst st1. cbn [tasks]. apply list_lookup_insert_eq. by apply lookup_lt_Some in Hi. }
    { lia. }
    { subst st1. cbn [heap]. by rewrite list_lookup_alter_eq, Hx. }
    { done. }
    { done. }
    { done. }
    { done. }
    split_and!; [exact H1 | exact H2 | exact H3 | | exact H5 | |].
    + intros j Hne. rewrite H4 by done. subst st1. cbn [tasks].
      by rewrite list_lookup_insert_ne.
    + rewrite H6. subst st1. cbn [heap]. by rewrite length_alter.
    + intros r' y Hy. destruct (decide (r' = r)) as [->|Hne].
      * rewrite (H7 r (with_progress (100 - 10 * Z.of_nat d) y)).
        -- by rewrite !decide_True by left.
        -- subst st1. cbn [heap]. by rewrite list_lookup_alter_eq, Hy.
      * apply H7. subst st1. cbn [heap]. by rewrite list_lookup_alter_ne.
  - (* an entry follows, last turn *)
    replace (S (0 + 11 * length (r2 :: rest2)))
      with (S (S (10 + 11 * length rest2))) by (cbn [length]; lia).
    rewrite ticks_S, window_run_cons. cbn [step].
    rewrite (tick_next i st _ r2 rest2 Hi) by (cbn; done || lia). cbn [t_file].
    set (st1 := {| heap := _ |}).
    apply NoDup_cons in Hnd as [Hr Hnd2].
    apply Forall_cons in Hvalid as [Hr2 Hvalid2].
    assert (r ≠ r2) as Hne2 by (intros ->; apply Hr; left).
    destruct (lookup_lt_is_Some_2 _ _ Hr2) as [x2 Hx2].
    destruct (IHrest 10%nat st1 i r2 (with_progress 0 (with_status uploading x2)))
      as (H1 & H2 & H3 & H4 & H5 & H6 & H7).
    { subst st1. cbn [tasks]. apply list_lookup_insert_eq. by apply lookup_lt_Some in Hi. }
    { lia. }
    { subst st1. cbn [heap].
      by rewrite !list_lookup_alter_eq, list_lookup_alter_ne, Hx2. }
    { done. }
    { done. }
    { done. }
    { subst st1. cbn [heap]. by rewrite !length_alter. }
    split_and!; [exact H1 | exact H2 | exact H3 | | exact H5 | |].
    + intros j Hne. rewrite H4 by done. subst st1. cbn [tasks].
      by rewrite list_lookup_insert_ne.
    + rewrite H6. subst st1. cbn [heap]. by rewrite !length_alter.
    + intros r' y Hy. destruct (decide (r' = r2)) as [->|Hn2].
      * rewrite (H7 r2 (with_progress 0 (with_status uploading y))).
        -- rewrite !decide_True; [done | by right; left | by left].
        -- subst st1. cbn [heap].
           by rewrite !list_lookup_alter_eq, list_lookup_alter_ne, Hy.
      * destruct (decide (r' = r)) as [->|Hn].
        -- rewrite (H7 r (with_status completed y)).
           ++ rewrite decide_False, decide_True; [| by left |].
              ** f_equal. apply completed_is_uploaded.
                 assert (y = x) as -> by congruence. exact Hxp.
              ** intros Hin. apply Hr. apply elem_of_cons in Hin as [?|?]; [done |].
                 by right.
           ++ subst st1. cbn [heap].
              rewrite list_lookup_alter_ne by congruence.
              rewrite list_lookup_alter_ne by congruence.
              by rewrite list_lookup_alter_eq, Hy.
        -- rewrite (H7 r' y).
           ++ destruct (decide (r' ∈ r2 :: rest2)) as [Hin|Hnin].
              ** rewrite decide_True; [done | by right].
              ** rewrite decide_False; [done |].
                 by intros [?|?]%elem_of_cons.
           ++ subst st1. cbn [heap]. by rewrite !list_lookup_alter_ne by congruence.
  - (* an entry follows, another turn *)
    rewrite ticks_S, window_run_cons. cbn [step Nat.add].
    rewrite (tick_progress i st _ Hi) by (cbn; lia). cbn [t_file t_progress t_rest].
    replace (100 - 10 * Z.of_nat (S d) + 10) with (100 - 10 * Z.of_nat d) by lia.
    set (st1 := {| heap := _ |}).
    destruct (IHd st1 i r (with_progress (100 - 10 * Z.of_nat d) x))
      as (H1 & H2 & H3 & H4 & H5 & H6 & H7).
    { subst st1. cbn [tasks]. apply list_lookup_insert_eq. by apply lookup_lt_Some in Hi. }
    { lia. }
    { subst st1. cbn [heap]. by rewrite list_lookup_alter_eq, Hx. }
    { done. }
    { done. }
    { done. }
    { subst st1. cbn [heap]. by rewrite length_alter. }
    split_and!; [exact H1 | exact H2 | exact H3 | | exact H5 | |].
    + intros j Hne. rewrite H4 by done. subst st1. cbn [tasks].
      by rewrite list_lookup_insert_ne.
    + rewrite H6. subst st1. cbn [heap]. by rewrite length_alter.
    + intros r' y Hy. destruct (decide (r' = r)) as [->|Hne].
      * rewrite (H7 r (with_progress (100 - 10 * Z.of_nat d) y)).
        -- by rewrite !decide_True by left.
        -- subst st1. cbn [heap]. by rewrite list_lookup_alter_eq, Hy.
      * apply H7. subst st1. cbn [heap]. by rewrite list_lookup_alter_ne.
Qed.

Lemma handleFilesSelected_cons
    (file0 : File) (files : list File) (ids : nat → string) (st : State) :
  let newFiles :=
    imap (λ k file,
            {| uf_id := ids k; uf_name := file_name file; uf_size := file_size file;
               uf_type := file_type file; uf_status := pending; uf_url := None;
               uf_uploadProgress := None; uf_progress := None; uf_error := None |})
         (file0 :: files) in
  let base := length (heap st) in
  handleFilesSelected (file0 :: files) ids st
  = {| heap := alter (with_progress 0) base
                 (alter (with_status uploading) base (heap st ++ newFiles));
       uploadedFiles := uploadedFiles st ++ seq base (S (length files));
       isUploading := true;
       uploadProgress := 0;
       showFileUpload := showFileUpload st;
       errorRef := errorRef st;
       tasks := tasks st
                ++ [Some {| t_file := base; t_progress := 0;
                            t_rest := seq (S base) (length files) |}] |}.
Proof.
  intros newFiles base.
  assert (length newFiles = S (length files)) as Hlen
    by (unfold newFiles; by rewrite length_imap).
  unfold handleFilesSelected, startFileUpload. fold newFiles. rewrite Hlen.
  cbn [seq next_file]. fold base. reflexivity.
Qed.

Lemma handleFilesSelected_queue (files : list File) (ids : nat → string) (st : State) :
  uploadedFiles (handleFilesSelected files ids st)
  = uploadedFiles st ++ seq (length (heap st)) (length files).
Proof.
  destruct files as [|file0 files]; [done |]. by rewrite handleFilesSelected_cons.
Qed.

Lemma handleFilesSelected_progress (files : list File) (ids : nat → string) (st : State) :
  files ≠ [] → uploadProgress (handleFilesSelected files ids st) = 0.
Proof.
  destruct files as [|file0 files]; [done |]. by rewrite handleFilesSelected_cons.
Qed.

(** Right after the call the first entry of the batch is [uploading] and
    the others are [pending]. *)
Lemma handleFilesSelected_status
    (files : list File) (ids : nat → string) (st : State) (k : nat) :
  (k < length files)%nat →
  uf_status <$> heap (handleFilesSelected files ids st) !! (length (heap st) + k)%nat
  = Some (if decide (k = 0%nat) then uploading else pending).
Proof.
  destruct files as [|file0 files]; [cbn; lia |]. intros Hk. cbn [length] in Hk.
  rewrite handleFilesSelected_cons. cbn [heap].
  destruct (decide (k = 0%nat)) as [->|Hk0].
  - rewrite Nat.add_0_r, !list_lookup_alter_eq.
    rewrite lookup_app_r by lia. by rewrite Nat.sub_diag.
  - rewrite !list_lookup_alter_ne by lia.
    rewrite lookup_app_r by lia.
    replace (length (heap st) + k - length (heap st))%nat with k by lia.
    rewrite list_lookup_imap.
    destruct (lookup_lt_is_Some_2 (file0 :: files) k) as [f ->]; [cbn; lia |].
    done.
Qed.

(** The run of a batch, fired to its end, in any state that holds the
    heap and the tasks that [handleFilesSelected] has left. *)
Lemma batch_run_completes
    (files : list File) (ids : nat → string) (st st1 : State) :
  files ≠ [] →
  heap st1 = heap (handleFilesSelected files ids st) →
  tasks st1 = tasks (handleFilesSelected files ids st) →
  uploadProgress st1 = 0 →
  let i := length (tasks st) in
  let st' := run st1 (ticks i (11 * length files)) in
  isUploading st' = false
  ∧ uploadProgress st' = 100
  ∧ tasks st' !! i = Some None
  ∧ uploadedFiles st' = uploadedFiles st1
  ∧ (∀ r y, heap st !! r = Some y → heap st' !! r = Some y)
  ∧ (∀ k file, files !! k = Some file →
       heap st' !! (length (heap st) + k)%nat
       = Some {| uf_id := ids k; uf_name := file_name file;
                 uf_size := file_size file; uf_type := file_type file;
                 uf_status := completed; uf_url := None;
                 uf_uploadProgress := None; uf_progress := Some 100;
                 uf_error := None |}).
Proof.
  intros Hne Hheap Htasks Hup i st'. subst st'.
  destruct files as [|file0 files]; [done |]. clear Hne.
  rewrite handleFilesSelected_cons in Hheap, Htasks. cbn [heap tasks] in Hheap, Htasks.
  set (batch := file0 :: files) in *.
  set (newFiles := imap _ batch) in *.
  set (base := length (heap st)) in *.
  assert (length newFiles = S (length files)) as Hlen
    by (unfold newFiles; by rewrite length_imap).
  assert (∀ k, (k < S (length files))%nat →
               ∃ y, (heap st ++ newFiles) !! (base + k)%nat = Some y
                    ∧ newFiles !! k = Some y) as Hnew.
  { intros k Hk. destruct (lookup_lt_is_Some_2 newFiles k) as [y Hy]; [lia |].
    exists y. split; [| done]. rewrite lookup_app_r by (unfold base; lia).
    by replace (base + k - length (heap st))%nat with k by (unfold base; lia). }
  destruct (Hnew 0%nat) as (x0 & Hx0 & _); [lia |]. rewrite Nat.add_0_r in Hx0.
  destruct (run_completes (seq (S base) (length files)) 10%nat st1 i base
              (with_progress 0 (with_status uploading x0)))
    as (H1 & H2 & H3 & H4 & H5 & H6 & H7).
  { rewrite Htasks. by apply list_lookup_middle. }
  { lia. }
  { rewrite Hheap. by rewrite !list_lookup_alter_eq, Hx0. }
  { done. }
  { exact Hup. }
  { apply (NoDup_seq base (S (length files))). }
  { rewrite Hheap, !length_alter, length_app, Hlen.
    apply Forall_forall. intros r [? ?]%elem_of_seq. fold base. lia. }
  rewrite length_seq in H1, H2, H3, H5, H7.
  replace (S (10 + 11 * length files)) with (11 * length batch)%nat in *
    by (unfold batch; cbn [length]; lia).
  split_and!; [exact H1 | exact H2 | exact H3 | exact H5 | |].
  - intros r y Hy.
    assert (r < base)%nat as Hlt by (by apply lookup_lt_Some in Hy).
    rewrite (H7 r y).
    + rewrite decide_False; [done |].
      change (base :: seq (S base) (length files)) with (seq base (S (length files))).
      rewrite elem_of_seq. lia.
    + rewrite Hheap, !list_lookup_alter_ne by lia.
      by apply lookup_app_l_Some.
  - intros k file Hfile.
    assert (k < S (length files))%nat as Hk by (by apply lookup_lt_Some in Hfile).
    destruct (Hnew k Hk) as (y & Hy & Hyn).
    unfold newFiles in Hyn. rewrite list_lookup_imap, Hfile in Hyn.
    injection Hyn as <-.
    destruct (decide (k = 0%nat)) as [->|Hk0].
    + rewrite Nat.add_0_r in *. rewrite Hx0 in Hy. injection Hy as Hy.
      rewrite (H7 base (with_progress 0 (with_status uploading x0))).
      * rewrite decide_True by left. by rewrite Hy.
      * rewrite Hheap. by rewrite !list_lookup_alter_eq, Hx0.
    + erewrite (H7 (base + k)%nat); last first.
      { rewrite Hheap, !list_lookup_alter_ne by lia. exact Hy. }
      rewrite decide_True; [done |].
      change (base :: seq (S base) (length files)) with (seq base (S (length files))).
      rewrite elem_of_seq. lia.
Qed.

(** A batch handed to [handleFilesSelected] is uploaded to its end by
    eleven firings of its timer per file: every entry of the batch is then
    [completed] with progress 100, [isUploading] is cleared and the
    aggregate reads 100. The entries that were there before are not
    touched. *)
Theorem upload_run_completes
    (files : list File) (ids : nat → string) (st : State) :
  files ≠ [] →
  let i := length (tasks st) in
  let st' := run (handleFilesSelected files ids st) (ticks i (11 * length files)) in
  isUploading st' = false
  ∧ uploadProgress st' = 100
  ∧ tasks st' !! i = Some None
  ∧ uploadedFiles st'
    = uploadedFiles st ++ seq (length (heap st)) (length files)
  ∧ (∀ r y, heap st !! r = Some y → heap st' !! r = Some y)
  ∧ (∀ k file, files !! k = Some file →
       heap st' !! (length (heap st) + k)%nat
       = Some {| uf_id := ids k; uf_name := file_name file;
                 uf_size := file_size file; uf_type := file_type file;
                 uf_status := completed; uf_url := None;
                 uf_uploadProgress := None; uf_progress := Some 100;
                 uf_error := None |}).
Proof.
  intros Hne i st'. subst st'.
  destruct (batch_run_completes files ids st (handleFilesSelected files ids st))
    as (H1 & H2 & H3 & H4 & H5 & H6); [done | done | done | |].
  { destruct files as [|file0 files]; [done |]. by rewrite handleFilesSelected_cons. }
  split_and!; [exact H1 | exact H2 | exact H3 | | exact H5 | exact H6].
  etrans; [exact H4 |]. destruct files as [|file0 files]; [done |].
  by rewrite handleFilesSelected_cons.
Qed.

End Uploads.

(** ** The message input and the sending of messages *)

Section Sending.

Import ChatWindow ChatMessages.

Variable trim : string → string.

Lemma length_pos_nonempty (s : string) : (0 < String.length s)%nat ↔ s ≠ "".
Proof. destruct s; cbn; split; try done; lia. Qed.

(** The [Enter] key is taken from the textarea unless [Shift] alone is
    held with it, whether or not something can be sent; [send] is emitted
    for such a key exactly when [canSend] holds, and nothing else is ever
    emitted. *)
Theorem keydown_sends_on_enter
    (event : MessageInput.KeyboardEvent) (props : MessageInput.Props) :
  let r := MessageInput.handleKeydown trim event props in
  let taken :=
    MessageInput.key event = "Enter"
    ∧ (MessageInput.ctrlKey event = true ∨ MessageInput.metaKey event = true
       ∨ MessageInput.shiftKey event = false) in
  (r.1 = true ↔ taken)
  ∧ (r.2 = [MessageInput.send] ↔ taken ∧ MessageInput.canSend trim props = true)
  ∧ (r.2 = [MessageInput.send] ∨ r.2 = []).
Proof.
  intros r taken. subst r taken.
  unfold MessageInput.handleKeydown, MessageInput.handleSend.
  destruct (decide (MessageInput.key event = "Enter")) as [He|He];
    destruct (MessageInput.ctrlKey event), (MessageInput.metaKey event),
      (MessageInput.shiftKey event), (MessageInput.canSend trim props);
    cbn; intuition congruence.
Qed.

(** What the input emits on a key is [send] or nothing, and [send] only
    under [canSend]. *)
Lemma keydown_cases (event : MessageInput.KeyboardEvent) (id : string) (now : Z)
    (w : Window) :
  keydown trim event id now w = w
  ∨ ((MessageInput.handleKeydown trim event (input_props w)).2 = [MessageInput.send]
     ∧ MessageInput.canSend trim (input_props w) = true
     ∧ keydown trim event id now w = handleSendMessage trim id now w).
Proof.
  unfold keydown, MessageInput.handleKeydown, MessageInput.handleSend.
  destruct (decide _); [| by left].
  destruct (_ || _); [| destruct (negb _); [| by left]];
    (destruct (MessageInput.canSend trim (input_props w)) eqn:Hc; [by right | by left]).
Qed.

Lemma click_cases (id : string) (now : Z) (w : Window) :
  click trim id now w = w
  ∨ (MessageInput.canSend trim (input_props w) = true
     ∧ click trim id now w = handleSendMessage trim id now w).
Proof.
  unfold click, MessageInput.clickSend, MessageInput.handleSend.
  destruct (MessageInput.canSend trim (input_props w)) eqn:Hc; [by right | by left].
Qed.

(** Under [canSend] the guard of [handleSendMessage] lets the call
    through. *)
Lemma canSend_passes_guard (id : string) (now : Z) (w : Window) :
  MessageInput.canSend trim (input_props w) = true →
  isSending w = false
  ∧ handleSendMessage trim id now w
    = {| uploads := clearFiles (set_errorRef None (uploads w));
         messages := messages w ++ [userMessage id now w];
         messageText := "";
         isSending := true;
         isLoading := true;
         isStreaming := isStreaming w;
         streamingMessageId := streamingMessageId w;
         emitted := emitted w
                    ++ [message_sent (messageText w) (uploadedFiles (uploads w))];
         sending := S (sending w) |}.
Proof.
  unfold MessageInput.canSend. cbn [input_props MessageInput.isSending
    MessageInput.modelValue MessageInput.hasFiles].
  intros [Hs Hc]%andb_true_iff. split; [by destruct (isSending w) |].
  unfold handleSendMessage. rewrite decide_False; [done |].
  intros [Ht Hq]. apply orb_true_iff in Hc as [Hc|Hc].
  - apply bool_decide_eq_true in Hc. rewrite Ht in Hc. cbn in Hc. lia.
  - by apply bool_decide_eq_true in Hc.
Qed.

(** A [send] that the input emits is never dropped by the window: the
    guard of [handleSendMessage] agrees with [canSend] under the bindings
    of the template. The window then appends one user message whose
    content is the text as typed, not trimmed, emits [message-sent] with
    that text and the entries of the queue, and empties the text and the
    queue; the heap, the suspended upload runs and [isUploading] are left
    as they are. *)
Theorem emitted_send_is_handled
    (event : MessageInput.KeyboardEvent) (id : string) (now : Z) (w : Window) :
  MessageInput.send ∈ (MessageInput.handleKeydown trim event (input_props w)).2 →
  let w' := keydown trim event id now w in
  messages w'
  = messages w ++ [{| msg_id := id; msg_role := user; msg_content := messageText w;
                      msg_timestamp := now; msg_citations := None |}]
  ∧ emitted w'
    = emitted w ++ [message_sent (messageText w) (uploadedFiles (uploads w))]
  ∧ messageText w' = ""
  ∧ uploadedFiles (uploads w') = []
  ∧ showFileUpload (uploads w') = false
  ∧ errorRef (uploads w') = None
  ∧ isSending w' = true
  ∧ isLoading w' = true
  ∧ heap (uploads w') = heap (uploads w)
  ∧ tasks (uploads w') = tasks (uploads w)
  ∧ isUploading (uploads w') = isUploading (uploads w).
Proof.
  intros Hsend w'. subst w'.
  destruct (keydown_cases event id now w) as [Hsame|(_ & Hc & ->)].
  - exfalso. revert Hsend Hsame.
    unfold keydown, MessageInput.handleKeydown, MessageInput.handleSend.
    destruct (decide _); [| by intros ?%elem_of_nil].
    destruct (_ || _); [| destruct (negb _); [| by intros ?%elem_of_nil]];
      (destruct (MessageInput.canSend trim (input_props w)) eqn:Hc;
       [| by intros ?%elem_of_nil]);
      intros _; cbn [snd foldl on_input_emit];
      destruct (canSend_passes_guard id now w Hc) as [_ ->];
      intros Heq; apply (f_equal sending) in Heq; cbn in Heq; lia.
  - destruct (canSend_passes_guard id now w Hc) as [_ ->]. by cbn.
Qed.

(** While a send is in flight, or when the text is blank and the queue is
    empty, neither a key nor the send button changes anything: no message
    is added and nothing is emitted. *)
Theorem nothing_to_send
    (event : MessageInput.KeyboardEvent) (id : string) (now : Z) (w : Window) :
  isSending w = true
  ∨ (trim (messageText w) = "" ∧ uploadedFiles (uploads w) = []) →
  keydown trim event id now w = w ∧ click trim id now w = w.
Proof.
  intros Hidle.
  assert (MessageInput.canSend trim (input_props w) = false) as Hc.
  { unfold MessageInput.canSend. cbn [input_props MessageInput.isSending
      MessageInput.modelValue MessageInput.hasFiles].
    destruct Hidle as [->|[-> ->]]; [done |].
    apply andb_false_iff. right. apply orb_false_iff. split.
    - apply bool_decide_eq_false. cbn. lia.
    - by apply bool_decide_eq_false; intros ?. }
  split.
  - destruct (keydown_cases event id now w) as [?|(_ & ? & _)]; [done | congruence].
  - destruct (click_cases id now w) as [?|(? & _)]; [done | congruence].
Qed.

Lemma one_send_step (w : Window) (a : action) :
  one_send w → one_send (step trim w a).
Proof.
  intros [Hle Hiff]. destruct a as [a'|v|ev id now|id now| |c|m|mid| |mid content];
    cbn [step].
  - done.
  - done.
  - destruct (keydown_cases ev id now w) as [->|(_ & Hc & ->)]; [done |].
    destruct (canSend_passes_guard id now w Hc) as [Hs ->].
    assert (sending w = 0%nat) as Hz.
    { destruct (sending w) as [|[|n]]; [done | | lia].
      destruct Hiff as [_ Hiff]. rewrite Hiff in Hs; done. }
    split; cbn [sending isSending]; rewrite Hz; [lia | done].
  - destruct (click_cases id now w) as [->|(Hc & ->)]; [done |].
    destruct (canSend_passes_guard id now w Hc) as [Hs ->].
    assert (sending w = 0%nat) as Hz.
    { destruct (sending w) as [|[|n]]; [done | | lia].
      destruct Hiff as [_ Hiff]. rewrite Hiff in Hs; done. }
    split; cbn [sending isSending]; rewrite Hz; [lia | done].
  - unfold settle. destruct (sending w) as [|n] eqn:Hn.
    { unfold one_send. rewrite Hn. by split. }
    split; cbn [sending isSending]; [lia |]. split; [done | lia].
  - done.
  - done.
  - done.
  - done.
  - unfold updateStreamingMessage. by destruct (list_find _ _) as [[? ?]|].
Qed.

(** Driven through the input, the window never has two sends in flight,
    and [isSending] is set exactly while one is: a second [send] cannot
    start before the first has settled. *)
Theorem sends_do_not_overlap (initialMessages : list Message) (tr : list action) :
  one_send (run trim (init initialMessages) tr).
Proof.
  unfold run. induction tr as [|a tr IH] using rev_ind.
  - split; cbn; [lia | done].
  - rewrite foldl_app. cbn [foldl]. by apply one_send_step.
Qed.

Lemma run_uploads (w : Window) (tr : list ChatWindow.action) :
  run trim w (Upload <$> tr)
  = set_uploads (ChatWindow.run (uploads w) tr) w.
Proof.
  revert w. induction tr as [|a tr IH]; intros w.
  - by destruct w.
  - cbn [fmap list_fmap]. unfold run in *. cbn [foldl]. rewrite IH.
    by cbn [step set_uploads uploads].
Qed.

(** A message sent right after files were selected carries their entries
    while they are still uploading. The send empties the queue but does
    not stop the run: fired to its end, the run completes every entry
    that [message-sent] has handed to the parent, and clears
    [isUploading]; the queue stays empty. *)
Theorem files_sent_while_uploading
    (files : list File) (ids : nat → string) (id : string) (now : Z) (w : Window) :
  files ≠ [] →
  let i := length (tasks (uploads w)) in
  let base := length (heap (uploads w)) in
  let w1 := step trim w (Upload (FilesSelected files ids)) in
  let w2 := handleSendMessage trim id now w1 in
  let w3 := run trim w2 (Upload <$> ticks i (11 * length files)) in
  emitted w2
  = emitted w
    ++ [message_sent (messageText w)
          (uploadedFiles (uploads w) ++ seq base (length files))]
  ∧ (∀ k, (k < length files)%nat →
       uf_status <$> heap (uploads w2) !! (base + k)%nat
       = Some (if decide (k = 0%nat) then uploading else pending))
  ∧ emitted w3 = emitted w2
  ∧ uploadedFiles (uploads w3) = []
  ∧ isUploading (uploads w3) = false
  ∧ (∀ k file, files !! k = Some file →
       heap (uploads w3) !! (base + k)%nat
       = Some {| uf_id := ids k; uf_name := file_name file;
                 uf_size := file_size file; uf_type := file_type file;
                 uf_status := completed; uf_url := None;
                 uf_uploadProgress := None; uf_progress := Some 100;
                 uf_error := None |}).
Proof.
  intros Hne i base w1 w2 w3.
  assert (uploads w1 = handleFilesSelected files ids (uploads w)) as Hw1 by done.
  assert (uploadedFiles (uploads w1)
          = uploadedFiles (uploads w) ++ seq base (length files)) as Hq
    by (rewrite Hw1; apply handleFilesSelected_queue).
  assert (w2 = {| uploads := clearFiles (set_errorRef None (uploads w1));
                  messages := messages w1 ++ [userMessage id now w1];
                  messageText := "";
                  isSending := true;
                  isLoading := true;
                  isStreaming := isStreaming w1;
                  streamingMessageId := streamingMessageId w1;
                  emitted := emitted w1
                             ++ [message_sent (messageText w1)
                                   (uploadedFiles (uploads w1))];
                  sending := S (sending w1) |}) as Hw2.
  { subst w2. unfold handleSendMessage. rewrite decide_False; [done |].
    intros [_ Hempty]. rewrite Hq in Hempty.
    apply (f_equal length) in Hempty. rewrite length_app, length_seq in Hempty.
    destruct files; [done |]. cbn in Hempty. lia. }
  assert (w3 = set_uploads
                 (ChatWindow.run (uploads w2) (ticks i (11 * length files))) w2)
    as Hw3 by apply run_uploads.
  destruct (batch_run_completes files ids (uploads w) (uploads w2))
    as (H1 & H2 & H3 & H4 & H5 & H6).
  { done. }
  { by rewrite Hw2, Hw1. }
  { by rewrite Hw2, Hw1. }
  { rewrite Hw2. cbn [uploads]. rewrite Hw1.
    by apply handleFilesSelected_progress. }
  split_and!.
  - rewrite Hw2. cbn [emitted]. by rewrite Hq.
  - intros k Hk. rewrite Hw2. cbn [uploads].
    change (heap (clearFiles (set_errorRef None (uploads w1))))
      with (heap (uploads w1)).
    rewrite Hw1. by apply handleFilesSelected_status.
  - by rewrite Hw3.
  - rewrite Hw3. cbn [uploads set_uploads]. etrans; [exact H4 |]. by rewrite Hw2.
  - rewrite Hw3. cbn [uploads set_uploads]. exact H1.
  - intros k file Hfile. rewrite Hw3. cbn [uploads set_uploads]. by apply H6.
Qed.

(** [updateStreamingMessage] rewrites the content of the first message
    that carries the id, and of that one only; when no message carries
    the id it changes nothing. The other refs are never touched. *)
Theorem updateStreamingMessage_first_match
    (messageId content : string) (w : Window) :
  let w' := updateStreamingMessage messageId content w in
  (∀ i m,
      messages w !! i = Some m → msg_id m = messageId →
      (∀ j m', (j < i)%nat → messages w !! j = Some m' → msg_id m' ≠ messageId) →
      messages w' = <[i := with_content content m]> (messages w))
  ∧ ((messageId ∉ msg_id <$> messages w) → w' = w)
  ∧ uploads w' = uploads w
  ∧ isStreaming w' = isStreaming w
  ∧ streamingMessageId w' = streamingMessageId w.
Proof.
  intros w'. subst w'. unfold updateStreamingMessage.
  destruct (list_find _ _) as [[index old]|] eqn:Hfind.
  - apply list_find_Some in Hfind as (Hold & Hid & Hfirst).
    split_and!; try done.
    + intros i m Hi Hm Hbefore. cbn [messages set_messages].
      assert (i = index) as ->.
      { destruct (Nat.lt_total i index) as [Hlt|[->|Hgt]]; [| done |].
        - exfalso. by apply (Hfirst i m).
        - exfalso. by apply (Hbefore index old). }
      assert (m = old) as -> by congruence.
      apply list_eq. intros k. destruct (decide (k = index)) as [->|Hne].
      * rewrite list_lookup_alter_eq, list_lookup_insert_eq, Hold; [done |].
        by apply lookup_lt_Some in Hold.
      * by rewrite list_lookup_alter_ne, list_lookup_insert_ne.
    + intros Hfresh. exfalso. apply Hfresh.
      apply list_elem_of_fmap. exists old. split; [done |].
      by apply list_elem_of_lookup_2 in Hold.
  - apply list_find_None in Hfind. split_and!; try done.
    intros i m Hi Hm _. exfalso.
    rewrite Forall_forall in Hfind. apply (Hfind m); [| done].
    by apply list_elem_of_lookup_2 in Hi.
Qed.

End Sending.

(** ** Instances *)

Lemma stopStreaming_idle_is_noop_witness :
  Conversations.eventSource (Conversations.run (Conversations.init "token") []) = None
  ∧ Conversations.stopStreaming Samples.store0 = Samples.store0.
Proof.
  assert (Conversations.eventSource (Conversations.run (Conversations.init "token") [])
          = None) as H by reflexivity.
  split; [exact H |].
  exact (proj1 (stopStreaming_idle_is_noop "token" [] Samples.store0 H)).
Defined.

Lemma ended_session_is_silent_witness :
  let st := Conversations.run (Conversations.init "token") Samples.session in
  let a := Conversations.Dispatch 0 (Conversations.MessageEvent (Some Samples.world) 5) in
  Conversations.eventSource st = Some 0%nat
  ∧ Conversations.ends_session 0 a
  ∧ Conversations.run (Conversations.step st a)
      (map (Conversations.Dispatch 0)
         [Conversations.MessageEvent (Some Samples.world) 6; Conversations.ErrorEvent])
    = Conversations.step st a.
Proof.
  intros st a.
  assert (Conversations.eventSource st = Some 0%nat) as H1 by reflexivity.
  assert (Conversations.ends_session 0 a) as H2 by (split; reflexivity).
  split; [exact H1 |]. split; [exact H2 |].
  exact (ended_session_is_silent "token" Samples.session 0 a
           [Conversations.MessageEvent (Some Samples.world) 6; Conversations.ErrorEvent]
           H1 H2).
Defined.

Lemma streaming_only_appends_witness :
  Conversations.streaming_action Conversations.StopStreaming
  ∧ ∃ extra,
      Conversations.currentMessages "c1"
        (Conversations.step Samples.store0 Conversations.StopStreaming)
      = Conversations.currentMessages "c1" Samples.store0 ++ extra
      ∧ (length extra ≤ 1)%nat
      ∧ Forall (λ m, msg_role m = assistant) extra.
Proof.
  split; [exact I |].
  exact (streaming_only_appends Samples.store0 Conversations.StopStreaming "c1" I).
Defined.

Lemma stream_outlives_removed_conversation_witness :
  Forall (λ c : StreamChunk * Z, chunk_isComplete c.1 = false) [(Samples.hello, 1)]
  ∧ chunk_isComplete Samples.world = true
  ∧ Conversations.messages
      (Conversations.run Samples.store0
         (Conversations.StartStreaming "s1" "c1"
            :: Conversations.RemoveConversation "c1"
            :: Conversations.deliver 0 [(Samples.hello, 1)]
            ++ [Conversations.Dispatch 0
                  (Conversations.MessageEvent (Some Samples.world) 2)]))
    !! "c1"
    = Some [Conversations.finished "s1" Samples.world
              (Conversations.contents [(Samples.hello, 1)]) 2].
Proof.
  assert (Forall (λ c : StreamChunk * Z, chunk_isComplete c.1 = false)
            [(Samples.hello, 1)]) as H1 by (repeat constructor).
  assert (chunk_isComplete Samples.world = true) as H2 by reflexivity.
  split; [exact H1 |]. split; [exact H2 |].
  exact (proj1 (stream_outlives_removed_conversation Samples.store0 "s1" "c1"
                  [(Samples.hello, 1)] Samples.world 2 H1 H2)).
Defined.

Lemma addMessage_then_removeMessage_witness :
  (msg_id (Samples.final "m1" "hi")
     ∉ msg_id <$> Conversations.currentMessages "c1" Samples.store0)
  ∧ Conversations.currentMessages "c1"
      (Conversations.removeMessage "c1" "m1"
         (Conversations.addMessage "c1" (Samples.final "m1" "hi") Samples.store0))
    = Conversations.currentMessages "c1" Samples.store0.
Proof.
  assert (msg_id (Samples.final "m1" "hi")
            ∉ msg_id <$> Conversations.currentMessages "c1" Samples.store0) as H
    by (vm_compute; by intros ?%elem_of_nil).
  split; [exact H |].
  exact (proj1 (addMessage_then_removeMessage "c1" (Samples.final "m1" "hi")
                  Samples.store0 H)).
Defined.

Lemma full_store_evicts_oldest_witness :
  (0 < Notifications.maxNotifications Notifications.init)%nat
  ∧ last (Notifications.notifications
            (Notifications.addNotification "n1" 7 Notifications.n_info "Saved" None
               None false Notifications.init))
    = Some {| Notifications.n_id := "n1"; Notifications.n_type := Notifications.n_info;
              Notifications.n_title := "Saved"; Notifications.n_message := None;
              Notifications.n_duration := 5000; Notifications.n_persistent := false;
              Notifications.n_createdAt := 7 |}.
Proof.
  assert (0 < Notifications.maxNotifications Notifications.init)%nat as H
    by (simpl; lia).
  split; [exact H |].
  exact (proj1 (full_store_evicts_oldest "n1" 7 Notifications.n_info "Saved" None
                  None false Notifications.init H)).
Defined.

Lemma addToQueue_admits_the_valid_files_witness :
  let r := FilesStore.addToQueue [Samples.large; Samples.binary] Samples.ids_a
             FilesStore.init in
  r.1 = FilesStore.validateFiles FilesStore.init [Samples.large; Samples.binary]
  ∧ size (FilesStore.uploadQueue r.2)
    = (size (FilesStore.uploadQueue FilesStore.init) + length r.1.1)%nat.
Proof.
  intros r.
  assert (length r.1.1 = 1%nat) as Hlen by reflexivity.
  destruct (addToQueue_admits_the_valid_files [Samples.large; Samples.binary]
              Samples.ids_a FilesStore.init) as (H1 & H2 & _).
  - intros j k Hj Hk _. fold r in Hj, Hk. rewrite Hlen in Hj, Hk. lia.
  - intros k _. apply lookup_empty.
  - split; [exact H1 | exact H2].
Defined.

Lemma error_text_outlives_progress_witness :
  FilesStore.uploadQueue Samples.files1 !! "f1" = Some Samples.done_entry
  ∧ (40 ≠ 100)
  ∧ uf_error
      <$> FilesStore.uploadQueue
            (FilesStore.updateFileProgress "f1" 40
               (FilesStore.setFileStatus "f1" error (Some "boom") Samples.files1))
          !! "f1"
    = Some (Some "boom").
Proof.
  assert (FilesStore.uploadQueue Samples.files1 !! "f1" = Some Samples.done_entry)
    as H1 by reflexivity.
  assert (40 ≠ 100) as H2 by lia.
  split; [exact H1 |]. split; [exact H2 |].
  exact (proj1 (proj2 (proj2
           (error_text_outlives_progress "f1" "boom" 40 Samples.done_entry
              Samples.files1 H1 H2)))).
Defined.

Lemma entries_keyed_by_id_witness :
  let st := FilesStore.run FilesStore.init
              [FilesStore.AddToQueue [Samples.large] Samples.ids_a] in
  FilesStore.uploadQueue st !! "a0"
  = Some (FilesStore.createUploadedFile Samples.large "a0")
  ∧ uf_id (FilesStore.createUploadedFile Samples.large "a0") = "a0"
  ∧ FilesStore.uploadQueue
      (FilesStore.removeFromQueue
         (uf_id (FilesStore.createUploadedFile Samples.large "a0")) st) !! "a0"
    = None.
Proof.
  intros st.
  assert (FilesStore.uploadQueue st !! "a0"
          = Some (FilesStore.createUploadedFile Samples.large "a0")) as H
    by (by vm_compute).
  split; [exact H |].
  exact (entries_keyed_by_id [FilesStore.AddToQueue [Samples.large] Samples.ids_a]
           "a0" (FilesStore.createUploadedFile Samples.large "a0") H).
Defined.

Lemma extension_match_ignores_case_witness :
  file_name Samples.notes = "Notes" +:+ ".TXT"
  ∧ JS.toLowerCase ".TXT" = ".txt"
  ∧ ".txt" ∈ FileUploadArea.allowedExtensions
  ∧ FileUploadArea.isValidFileType Samples.notes = true.
Proof.
  assert (file_name Samples.notes = "Notes" +:+ ".TXT") as H1 by reflexivity.
  assert (JS.toLowerCase ".TXT" = ".txt") as H2 by reflexivity.
  assert (".txt" ∈ FileUploadArea.allowedExtensions) as H3 by left.
  split; [exact H1 |]. split; [exact H2 |]. split; [exact H3 |].
  exact (extension_match_ignores_case Samples.notes "Notes" ".TXT" ".txt" H1 H2 H3).
Defined.

Lemma valid_batch_enters_queue_witness :
  let st := ChatWindow.run ChatWindow.init [] in
  [Samples.notes] ≠ []
  ∧ (length (ChatWindow.queue st) + length [Samples.notes] ≤ 5)%nat
  ∧ Forall (λ f, file_size f ≤ 1024 ∧ FileUploadArea.isValidFileType f = true)
      [Samples.notes]
  ∧ FileUploadArea.processFiles Samples.render (ChatWindow.props 1024 5 st)
      [Samples.notes]
    = [FileUploadArea.files_selected [Samples.notes]].
Proof.
  intros st.
  assert ([Samples.notes] ≠ []) as H1 by done.
  assert (length (ChatWindow.queue st) + length [Samples.notes] ≤ 5)%nat as H2
    by (simpl; lia).
  assert (Forall (λ f, file_size f ≤ 1024 ∧ FileUploadArea.isValidFileType f = true)
            [Samples.notes]) as H3.
  { repeat constructor. simpl. lia. }
  split; [exact H1 |]. split; [exact H2 |]. split; [exact H3 |].
  exact (proj1 (valid_batch_enters_queue Samples.render 1024 5 [] [Samples.notes]
                  Samples.ids_a H1 H2 H3)).
Defined.

Lemma upload_run_completes_witness :
  [Samples.notes; Samples.large] ≠ []
  ∧ ChatWindow.isUploading
      (ChatWindow.run
         (ChatWindow.handleFilesSelected [Samples.notes; Samples.large] Samples.ids_a
            ChatWindow.init)
         (ChatWindow.ticks 0 22))
    = false.
Proof.
  assert ([Samples.notes; Samples.large] ≠ []) as H by done.
  split; [exact H |].
  exact (proj1 (upload_run_completes [Samples.notes; Samples.large] Samples.ids_a
                  ChatWindow.init H)).
Defined.

Lemma emitted_send_is_handled_witness :
  MessageInput.send
    ∈ (MessageInput.handleKeydown Samples.trim Samples.enter
         (ChatMessages.input_props Samples.typed)).2
  ∧ ChatMessages.messages
      (ChatMessages.keydown Samples.trim Samples.enter "m1" 3 Samples.typed)
    = [{| msg_id := "m1"; msg_role := user; msg_content := " hi ";
          msg_timestamp := 3; msg_citations := None |}].
Proof.
  assert (MessageInput.send
            ∈ (MessageInput.handleKeydown Samples.trim Samples.enter
                 (ChatMessages.input_props Samples.typed)).2) as H
    by (vm_compute; left).
  split; [exact H |].
  exact (proj1 (emitted_send_is_handled Samples.trim Samples.enter "m1" 3
                  Samples.typed H)).
Defined.

Lemma nothing_to_send_witness :
  (ChatMessages.isSending Samples.panel0 = true
   ∨ (Samples.trim (ChatMessages.messageText Samples.panel0) = ""
      ∧ ChatWindow.uploadedFiles (ChatMessages.uploads Samples.panel0) = []))
  ∧ ChatMessages.keydown Samples.trim Samples.enter "m1" 3 Samples.panel0
    = Samples.panel0.
Proof.
  assert (ChatMessages.isSending Samples.panel0 = true
          ∨ (Samples.trim (ChatMessages.messageText Samples.panel0) = ""
             ∧ ChatWindow.uploadedFiles (ChatMessages.uploads Samples.panel0) = []))
    as H by (right; split; reflexivity).
  split; [exact H |].
  exact (proj1 (nothing_to_send Samples.trim Samples.enter "m1" 3 Samples.panel0 H)).
Defined.

Lemma files_sent_while_uploading_witness :
  [Samples.notes] ≠ []
  ∧ ChatMessages.emitted
      (ChatMessages.handleSendMessage Samples.trim "m1" 3
         (ChatMessages.step Samples.trim Samples.typed
            (ChatMessages.Upload
               (ChatWindow.FilesSelected [Samples.notes] Samples.ids_a))))
    = [ChatMessages.message_sent " hi " [0%nat]].
Proof.
  assert ([Samples.notes] ≠ []) as H by done.
  split; [exact H |].
  exact (proj1 (files_sent_while_uploading Samples.trim [Samples.notes] Samples.ids_a
                  "m1" 3 Samples.typed H)).
Defined.
